(** * Quaternion affine frames of [templates_quat_affine.py]

    A shallow embedding of
    [apps/protein_folding/helixfold3/helixfold/data/templates_quat_affine.py]
    and the properties of its frames, quaternion kernels and canonical
    transforms.

    Conventions of the embedding.
    - Array entries are real numbers: arithmetic is exact, so a statement
      that the source meets up to rounding is stated as an equality or as
      an explicit bound.
    - A numpy array is its shape together with an entry function.  Shapes
      and indices are listed from the LAST axis to the first: numpy's
      shape [(b, n, 3)] is [[3; n; b]] and entry [a[i_b, i_n, k]] is
      [item a [k; i_n; i_b]].  numpy's axis [-k] is position [k-1].
    - A call that raises is a [Raise e]; a call that returns is an [Ok v].
    - [np.linalg.eigh], on which [rot_to_quat] rests, is left open:
      [rot_to_quat] takes the routine as a parameter, and what is proved
      of it is proved for every routine that meets what numpy documents
      of [eigh]. *)

From Stdlib Require Import Reals Lra Lia List Bool Arith ZArith Psatz.
Import ListNotations.
Open Scope R_scope.

(** ** Exceptions *)

Inductive exn : Type :=
| AssertionError
| AttributeError
| AxisError
| IndexError
| TypeError
| ValueError.

Inductive result (A : Type) : Type :=
| Ok (a : A)
| Raise (e : exn).
Arguments Ok {A} a.
Arguments Raise {A} e.

Definition bind {A B : Type} (m : result A) (k : A -> result B) : result B :=
  match m with
  | Ok a => k a
  | Raise e => Raise e
  end.

Notation "x <- m ;; k" := (bind m (fun x => k))
  (at level 61, m at next level, right associativity).
Notation "' pat <- m ;; k" := (bind m (fun x => match x with pat => k end))
  (at level 61, pat pattern, m at next level, right associativity).

(** [assert b] *)
Definition assert (b : bool) : result unit :=
  if b then Ok tt else Raise AssertionError.

(** A call returns [a] satisfying [Q]. *)
Definition returns {A : Type} (m : result A) (Q : A -> Prop) : Prop :=
  match m with
  | Ok a => Q a
  | Raise _ => False
  end.

(** A call raises. *)
Definition raises {A : Type} (m : result A) : Prop :=
  match m with
  | Ok _ => False
  | Raise _ => True
  end.

(** ** Arrays *)

Record ndarray : Type := mkarray { rshape : list nat; item : list nat -> R }.

(** [a.shape], in numpy's order. *)
Definition np_shape (a : ndarray) : list nat := rev (rshape a).

(** [len(a.shape)] *)
Definition np_ndim (a : ndarray) : nat := length (rshape a).

(** [a.shape[-k]] for [k >= 1]; a tuple index out of range raises. *)
Definition shape_neg (a : ndarray) (k : nat) : result nat :=
  match nth_error (rshape a) (k - 1) with
  | Some d => Ok d
  | None => Raise IndexError
  end.

Fixpoint shape_eqb (s t : list nat) : bool :=
  match s, t with
  | [], [] => true
  | a :: s', b :: t' => (a =? b)%nat && shape_eqb s' t'
  | _, _ => false
  end.

(** The indices of an array of shape [s]. *)
Definition in_shape (idx s : list nat) : Prop := Forall2 lt idx s.

Fixpoint insert_at {A : Type} (p : nat) (x : A) (l : list A) : list A :=
  match p, l with
  | O, _ => x :: l
  | S p', y :: l' => y :: insert_at p' x l'
  | S _, [] => [x]
  end.

Fixpoint remove_at {A : Type} (p : nat) (l : list A) : list A :=
  match p, l with
  | O, _ :: l' => l'
  | S p', y :: l' => y :: remove_at p' l'
  | _, [] => []
  end.

Fixpoint Rsum (f : nat -> R) (l : list nat) : R :=
  match l with
  | [] => 0
  | i :: l' => f i + Rsum f l'
  end.

(** *** Broadcasting *)

Definition bdim (a b : nat) : option nat :=
  if (a =? b)%nat then Some a
  else if (a =? 1)%nat then Some b
  else if (b =? 1)%nat then Some a
  else None.

Fixpoint bshape (s t : list nat) : option (list nat) :=
  match s, t with
  | [], _ => Some t
  | _, [] => Some s
  | a :: s', b :: t' =>
      match bdim a b, bshape s' t' with
      | Some d, Some r => Some (d :: r)
      | _, _ => None
      end
  end.

(** The entry of an operand of shape [s] that is used at index [idx] of
    the broadcast result: leading axes the operand lacks are dropped and an
    axis of size 1 is read at 0. *)
Fixpoint bidx (s idx : list nat) : list nat :=
  match s, idx with
  | d :: s', i :: idx' => (if (d =? 1)%nat then O else i) :: bidx s' idx'
  | _, _ => []
  end.

(** A binary ufunc ([+], [-], [*], [/]). *)
Definition np_map2 (f : R -> R -> R) (a b : ndarray) : result ndarray :=
  match bshape (rshape a) (rshape b) with
  | Some s =>
      Ok (mkarray s (fun idx =>
            f (item a (bidx (rshape a) idx)) (item b (bidx (rshape b) idx))))
  | None => Raise ValueError
  end.

(** A unary ufunc, or a ufunc with a Python scalar. *)
Definition np_map1 (f : R -> R) (a : ndarray) : ndarray :=
  mkarray (rshape a) (fun idx => f (item a idx)).

Definition np_add : ndarray -> ndarray -> result ndarray := np_map2 Rplus.
Definition np_subtract : ndarray -> ndarray -> result ndarray := np_map2 Rminus.
Definition np_multiply : ndarray -> ndarray -> result ndarray := np_map2 Rmult.
Definition np_divide : ndarray -> ndarray -> result ndarray := np_map2 Rdiv.
Definition np_negative : ndarray -> ndarray := np_map1 Ropp.
Definition np_sqrt : ndarray -> ndarray := np_map1 sqrt.
(** [a ** 2] *)
Definition np_square : ndarray -> ndarray := np_map1 (fun x => x ^ 2).
(** [a + c] and [c + a] for a Python float [c] *)
Definition np_add_scalar (a : ndarray) (c : R) : ndarray := np_map1 (fun x => x + c) a.
Definition np_scalar_add (c : R) (a : ndarray) : ndarray := np_map1 (fun x => c + x) a.
(** [np.zeros_like(a)], [np.ones_like(a)] *)
Definition np_zeros_like (a : ndarray) : ndarray := mkarray (rshape a) (fun _ => 0).
Definition np_ones_like (a : ndarray) : ndarray := mkarray (rshape a) (fun _ => 1).
(** A Python float used as an array operand. *)
Definition np_scalar (c : R) : ndarray := mkarray [] (fun _ => c).

(** *** Indexing *)

(** The index [i] taken on the axis at position [p]. *)
Definition np_take (p i : nat) (a : ndarray) : result ndarray :=
  match nth_error (rshape a) p with
  | Some d =>
      if (i <? d)%nat
      then Ok (mkarray (remove_at p (rshape a)) (fun idx => item a (insert_at p i idx)))
      else Raise IndexError
  | None => Raise IndexError
  end.

(** [a[..., i]] *)
Definition index_last (a : ndarray) (i : nat) : result ndarray := np_take 0 i a.

(** [a[..., i, j]] *)
Definition index_last2 (a : ndarray) (i j : nat) : result ndarray :=
  match rshape a with
  | dj :: di :: s =>
      if (i <? di)%nat && (j <? dj)%nat
      then Ok (mkarray s (fun idx => item a (j :: i :: idx)))
      else Raise IndexError
  | _ => Raise IndexError
  end.

(** [a[i]] *)
Definition index_first (a : ndarray) (i : nat) : result ndarray :=
  np_take (np_ndim a - 1) i a.

(** [a[i][j]] *)
Definition index_first2 (a : ndarray) (i j : nat) : result ndarray :=
  r <- index_first a i ;; index_first r j.

(** [a[:, i]] *)
Definition index_col (a : ndarray) (i : nat) : result ndarray :=
  if (2 <=? np_ndim a)%nat then np_take (np_ndim a - 2) i a else Raise IndexError.

(** [a[..., lo:hi]]; a slice is clamped to the axis. *)
Definition slice_last (a : ndarray) (lo hi : nat) : result ndarray :=
  match rshape a with
  | d :: s =>
      Ok (mkarray ((Nat.min hi d - lo)%nat :: s)
            (fun idx => match idx with
                        | k :: l => item a ((lo + k)%nat :: l)
                        | [] => 0
                        end))
  | [] => Raise IndexError
  end.

(** *** Shape manipulation *)

(** [np.expand_dims(a, axis=-(p+1))] *)
Definition np_expand_dims (p : nat) (a : ndarray) : result ndarray :=
  if (p <=? np_ndim a)%nat
  then Ok (mkarray (insert_at p 1%nat (rshape a)) (fun idx => item a (remove_at p idx)))
  else Raise AxisError.

(** [np.expand_dims(a, [-1, -3])] *)
Definition np_expand_dims_m1_m3 (a : ndarray) : result ndarray :=
  if (1 <=? np_ndim a)%nat
  then r <- np_expand_dims 0 a ;; np_expand_dims 2 r
  else Raise AxisError.

(** [a[..., None]] *)
Definition newaxis_last (a : ndarray) : ndarray :=
  mkarray (1%nat :: rshape a) (fun idx => item a (tl idx)).

(** [a[..., :, None, None]] *)
Definition newaxis_last2 (a : ndarray) : result ndarray :=
  match rshape a with
  | _ :: _ => Ok (newaxis_last (newaxis_last a))
  | [] => Raise IndexError
  end.

(** [np.sum(a, axis=-(p+1))] *)
Definition np_sum (p : nat) (a : ndarray) : result ndarray :=
  match nth_error (rshape a) p with
  | Some d =>
      Ok (mkarray (remove_at p (rshape a))
            (fun idx => Rsum (fun i => item a (insert_at p i idx)) (seq 0 d)))
  | None => Raise AxisError
  end.

(** [np.sum(a, axis=(-3, -2))] *)
Definition np_sum_m3_m2 (a : ndarray) : result ndarray :=
  r <- np_sum 2 a ;; np_sum 1 r.

(** [np.linalg.norm(a, axis=-1)] *)
Definition np_linalg_norm_last (a : ndarray) : result ndarray :=
  s <- np_sum 0 (np_map1 (fun x => x * x) a) ;; Ok (np_sqrt s).

(** [np.stack(arrs, axis=-(p+1))] *)
Definition np_stack (p : nat) (arrs : list ndarray) : result ndarray :=
  match arrs with
  | [] => Raise ValueError
  | a :: rest =>
      if forallb (fun b => shape_eqb (rshape b) (rshape a)) rest
      then
        if (p <=? np_ndim a)%nat
        then Ok (mkarray (insert_at p (length arrs) (rshape a))
                   (fun idx => item (nth (nth p idx O) arrs a) (remove_at p idx)))
        else Raise AxisError
      else Raise ValueError
  end.

(** [np.stack(arrs)] and [np.array(arrs)] of equally shaped arrays: a new
    first axis. *)
Definition np_stack_first (arrs : list ndarray) : result ndarray :=
  match arrs with
  | [] => Raise ValueError
  | a :: _ => np_stack (np_ndim a) arrs
  end.

Fixpoint flat_index (idx s : list nat) : nat :=
  match idx, s with
  | i :: idx', d :: s' => (i + d * flat_index idx' s')%nat
  | _, _ => 0%nat
  end.

Fixpoint unflat_index (k : nat) (s : list nat) : list nat :=
  match s with
  | [] => []
  | d :: s' => (k mod d)%nat :: unflat_index (k / d) s'
  end.

(** [a.reshape(s)] and [np.reshape(a, s)], in row-major order; [s] is given
    from the last axis to the first as every shape is. *)
Definition np_reshape (a : ndarray) (s : list nat) : result ndarray :=
  if (fold_right Nat.mul 1%nat s =? fold_right Nat.mul 1%nat (rshape a))%nat
  then Ok (mkarray s (fun idx => item a (unflat_index (flat_index idx s) (rshape a))))
  else Raise ValueError.

(** [a.T] *)
Definition np_T (a : ndarray) : ndarray :=
  mkarray (rev (rshape a)) (fun idx => item a (rev idx)).

(** [np.transpose(a, [2, 0, 1])] *)
Definition np_transpose_201 (a : ndarray) : result ndarray :=
  match rshape a with
  | [d2; d1; d0] =>
      Ok (mkarray [d1; d0; d2]
            (fun idx => match idx with
                        | [i1; i0; i2] => item a [i2; i1; i0]
                        | _ => 0
                        end))
  | _ => Raise ValueError
  end.

(** [np.concatenate([a, b], axis=-1)]; [None] stands for an operand that is
    Python's [None], which numpy takes for a zero-dimensional array and
    refuses to concatenate. *)
Definition np_concatenate_last (a b : option ndarray) : result ndarray :=
  match a, b with
  | Some a, Some b =>
      match rshape a, rshape b with
      | da :: sa, db :: sb =>
          if shape_eqb sa sb
          then Ok (mkarray ((da + db)%nat :: sa)
                     (fun idx => match idx with
                                 | k :: l => if (k <? da)%nat then item a (k :: l)
                                             else item b ((k - da)%nat :: l)
                                 | [] => 0
                                 end))
          else Raise ValueError
      | _, _ => Raise ValueError
      end
  | _, _ => Raise ValueError
  end.

(** *** What numpy objects lack *)

(** [t.extend(l)] for a tuple [t]: [a.shape] and its slices are tuples, and
    a tuple has no attribute [extend], so the call raises whatever [t] and
    [l] are. *)
Definition tuple_extend (t l : list nat) : result (list nat) :=
  Raise AttributeError.

(** [a.detach()]: a numpy array has no attribute [detach], so the call
    raises whatever [a] is. *)
Definition ndarray_detach (a : ndarray) : result ndarray :=
  Raise AttributeError.

(** ** Coefficient tables *)

Definition table2 (m : list (list Z)) (r c : nat) : R :=
  IZR (nth c (nth r m []) 0%Z).

(** [QUAT_TO_ROT[i, j]], a 3x3 block; blocks never assigned are zero. *)
Definition QUAT_TO_ROT_block (i j : nat) : list (list Z) :=
  match i, j with
  | 0%nat, 0%nat => [[ 1; 0; 0]; [ 0; 1; 0]; [ 0; 0; 1]]
  | 1%nat, 1%nat => [[ 1; 0; 0]; [ 0;-1; 0]; [ 0; 0;-1]]
  | 2%nat, 2%nat => [[-1; 0; 0]; [ 0; 1; 0]; [ 0; 0;-1]]
  | 3%nat, 3%nat => [[-1; 0; 0]; [ 0;-1; 0]; [ 0; 0; 1]]
  | 1%nat, 2%nat => [[ 0; 2; 0]; [ 2; 0; 0]; [ 0; 0; 0]]
  | 1%nat, 3%nat => [[ 0; 0; 2]; [ 0; 0; 0]; [ 2; 0; 0]]
  | 2%nat, 3%nat => [[ 0; 0; 0]; [ 0; 0; 2]; [ 0; 2; 0]]
  | 0%nat, 1%nat => [[ 0; 0; 0]; [ 0; 0;-2]; [ 0; 2; 0]]
  | 0%nat, 2%nat => [[ 0; 0; 2]; [ 0; 0; 0]; [-2; 0; 0]]
  | 0%nat, 3%nat => [[ 0;-2; 0]; [ 2; 0; 0]; [ 0; 0; 0]]
  | _, _ => [[ 0; 0; 0]; [ 0; 0; 0]; [ 0; 0; 0]]
  end%Z.

(** [QUAT_TO_ROT], of shape (4, 4, 3, 3). *)
Definition QUAT_TO_ROT : ndarray :=
  mkarray [3; 3; 4; 4]%nat
    (fun idx => match idx with
                | [c; r; j; i] => table2 (QUAT_TO_ROT_block i j) r c
                | _ => 0
                end).

(** [QUAT_MULTIPLY[:, :, k]], a 4x4 matrix. *)
Definition QUAT_MULTIPLY_plane (k : nat) : list (list Z) :=
  match k with
  | 0%nat => [[ 1; 0; 0; 0];
              [ 0;-1; 0; 0];
              [ 0; 0;-1; 0];
              [ 0; 0; 0;-1]]
  | 1%nat => [[ 0; 1; 0; 0];
              [ 1; 0; 0; 0];
              [ 0; 0; 0; 1];
              [ 0; 0;-1; 0]]
  | 2%nat => [[ 0; 0; 1; 0];
              [ 0; 0; 0;-1];
              [ 1; 0; 0; 0];
              [ 0; 1; 0; 0]]
  | 3%nat => [[ 0; 0; 0; 1];
              [ 0; 0; 1; 0];
              [ 0;-1; 0; 0];
              [ 1; 0; 0; 0]]
  | _ => []
  end%Z.

(** [QUAT_MULTIPLY], of shape (4, 4, 4). *)
Definition QUAT_MULTIPLY : ndarray :=
  mkarray [4; 4; 4]%nat
    (fun idx => match idx with
                | [k; j; i] => table2 (QUAT_MULTIPLY_plane k) i j
                | _ => 0
                end).

(** [QUAT_MULTIPLY_BY_VEC = QUAT_MULTIPLY[:, 1:, :]], of shape (4, 3, 4). *)
Definition QUAT_MULTIPLY_BY_VEC : ndarray :=
  mkarray [4; 3; 4]%nat
    (fun idx => match idx with
                | [k; j; i] => item QUAT_MULTIPLY [k; S j; i]
                | _ => 0
                end).

(** ** Quaternion kernels *)

(** The local [rot_tensor] of [quat_to_rot], of shape (..., 9). *)
Definition rot_tensor (normalized_quat : ndarray) : result ndarray :=
  mat <- np_expand_dims_m1_m3 normalized_quat ;;
  table <- np_reshape QUAT_TO_ROT [9; 4; 4]%nat ;;
  q <- newaxis_last2 normalized_quat ;;
  x <- np_multiply table q ;;
  y <- np_multiply x mat ;;
  np_sum_m3_m2 y.

(** [quat_to_rot(normalized_quat)]; the argument is [None] when the
    constructor is given neither a quaternion nor a rotation. *)
Definition quat_to_rot (normalized_quat : option ndarray) : result ndarray :=
  match normalized_quat with
  | None => Raise AxisError
  | Some q =>
      rot_tensor <- rot_tensor q ;;
      let t_shape := tl (rshape rot_tensor) in
      t_shape <- tuple_extend t_shape [3; 3]%nat ;;
      np_reshape rot_tensor t_shape
  end.

(** [quat_multiply_by_vec(quat, vec)] *)
Definition quat_multiply_by_vec (quat : option ndarray) (vec : ndarray)
  : result ndarray :=
  mat <- np_expand_dims_m1_m3 vec ;;
  match quat with
  | None => Raise TypeError
  | Some quat =>
      q <- newaxis_last2 quat ;;
      x <- np_multiply QUAT_MULTIPLY_BY_VEC q ;;
      y <- np_multiply x mat ;;
      np_sum_m3_m2 y
  end.

(** ** Rotations applied to vectors *)

(** The [vec] argument: an array whose last axis holds x, y, z, or a Python
    list of three arrays. *)
Inductive vec_arg : Type :=
| Stacked (v : ndarray)
| Unstacked (x y z : ndarray).

(** [a * b] of two expressions, read left to right. *)
Definition prod_of (a b : result ndarray) : result ndarray :=
  x <- a ;;
  y <- b ;;
  np_multiply x y.

(** [p0 + p1 + p2] of three expressions, read left to right. *)
Definition sum3 (p0 p1 p2 : result ndarray) : result ndarray :=
  x <- p0 ;;
  y <- p1 ;;
  s <- np_add x y ;;
  z <- p2 ;;
  np_add s z.

(** [a0 * x + a1 * y + a2 * z] for arrays [x], [y], [z] already read. *)
Definition lin3 (a0 : result ndarray) (x : ndarray) (a1 : result ndarray)
  (y : ndarray) (a2 : result ndarray) (z : ndarray) : result ndarray :=
  sum3 (prod_of a0 (Ok x)) (prod_of a1 (Ok y)) (prod_of a2 (Ok z)).

(** [x, y, z = ...] at the head of the three [apply_*rot_to_vec*]. *)
Definition unpack_vec (vec : vec_arg) (unstack : bool)
  : result (ndarray * ndarray * ndarray) :=
  if unstack then
    match vec with
    | Stacked v =>
        x <- index_last v 0 ;;
        y <- index_last v 1 ;;
        z <- index_last v 2 ;;
        Ok (x, y, z)
    | Unstacked _ _ _ => Raise TypeError
    end
  else
    match vec with
    | Unstacked x y z => Ok (x, y, z)
    | Stacked v =>
        match rev (rshape v) with
        | [] => Raise TypeError
        | d :: _ =>
            if (d =? 3)%nat
            then
              x <- index_first v 0 ;;
              y <- index_first v 1 ;;
              z <- index_first v 2 ;;
              Ok (x, y, z)
            else Raise ValueError
        end
    end.

(** [apply_rot_to_vec(rot, vec, unstack)] *)
Definition apply_rot_to_vec (rot : ndarray) (vec : vec_arg) (unstack : bool)
  : result (ndarray * ndarray * ndarray) :=
  '(x, y, z) <- unpack_vec vec unstack ;;
  r0 <- lin3 (index_last2 rot 0 0) x (index_last2 rot 0 1) y (index_last2 rot 0 2) z ;;
  r1 <- lin3 (index_last2 rot 1 0) x (index_last2 rot 1 1) y (index_last2 rot 1 2) z ;;
  r2 <- lin3 (index_last2 rot 2 0) x (index_last2 rot 2 1) y (index_last2 rot 2 2) z ;;
  Ok (r0, r1, r2).

(** [apply_rot_to_vec_np(rot, vec, unstack)] *)
Definition apply_rot_to_vec_np (rot : ndarray) (vec : vec_arg) (unstack : bool)
  : result (ndarray * ndarray * ndarray) :=
  '(x, y, z) <- unpack_vec vec unstack ;;
  r0 <- lin3 (index_first2 rot 0 0) x (index_first2 rot 0 1) y (index_first2 rot 0 2) z ;;
  r1 <- lin3 (index_first2 rot 1 0) x (index_first2 rot 1 1) y (index_first2 rot 1 2) z ;;
  r2 <- lin3 (index_first2 rot 2 0) x (index_first2 rot 2 1) y (index_first2 rot 2 2) z ;;
  Ok (r0, r1, r2).

(** [apply_inverse_rot_to_vec(rot, vec)] *)
Definition apply_inverse_rot_to_vec (rot : ndarray) (vec : vec_arg)
  : result (ndarray * ndarray * ndarray) :=
  '(x, y, z) <- unpack_vec vec false ;;
  r0 <- lin3 (index_last2 rot 0 0) x (index_last2 rot 1 0) y (index_last2 rot 2 0) z ;;
  r1 <- lin3 (index_last2 rot 0 1) x (index_last2 rot 1 1) y (index_last2 rot 2 1) z ;;
  r2 <- lin3 (index_last2 rot 0 2) x (index_last2 rot 1 2) y (index_last2 rot 2 2) z ;;
  Ok (r0, r1, r2).

(** ** QuatAffine *)

(** The attributes of a [QuatAffine] object.  [quaternion] is [None] when
    the object was built from a rotation alone. *)
Record QuatAffine : Type := mkQuatAffine {
  quaternion : option ndarray;
  rotation : ndarray;
  translation : ndarray
}.

(** [QuatAffine(quaternion, translation, rotation, normalize)], that is
    [QuatAffine.__init__].  [quaternion] and [rotation] are tested against
    [None] by the constructor; [translation] is an array. *)
Definition QuatAffine_init (quaternion : option ndarray) (translation : ndarray)
  (rotation : option ndarray) (normalize : bool) : result QuatAffine :=
  _ <- match quaternion with
       | Some q => d <- shape_neg q 1 ;; assert (d =? 4)%nat
       | None => Ok tt
       end ;;
  quaternion <-
    match quaternion with
    | Some q =>
        if normalize
        then
          q_length <- np_linalg_norm_last q ;;
          q' <- np_divide q (newaxis_last q_length) ;;
          Ok (Some q')
        else Ok (Some q)
    | None => Ok None
    end ;;
  rotation <- match rotation with
              | None => quat_to_rot quaternion
              | Some r => Ok r
              end ;;
  d1 <- shape_neg rotation 1 ;;
  is33 <- (if (d1 =? 3)%nat
           then d2 <- shape_neg rotation 2 ;; Ok (d2 =? 3)%nat
           else Ok false) ;;
  _ <- assert is33 ;;
  d <- shape_neg translation 1 ;;
  _ <- assert (d =? 3)%nat ;;
  Ok (mkQuatAffine quaternion rotation translation).

(** [self.to_tensor()] *)
Definition to_tensor (self : QuatAffine) : result ndarray :=
  np_concatenate_last (quaternion self) (Some (translation self)).

(** [self.stop_rot_gradient()] *)
Definition stop_rot_gradient (self : QuatAffine) : result QuatAffine :=
  quat <- match quaternion self with
          | Some q => q' <- ndarray_detach q ;; Ok (Some q')
          | None => Ok None
          end ;;
  rot <- ndarray_detach (rotation self) ;;
  QuatAffine_init quat (translation self) (Some rot) false.

(** [self.scale_translation(position_scale)]; a Python float is the
    zero-dimensional [np_scalar]. *)
Definition scale_translation (self : QuatAffine) (position_scale : ndarray)
  : result QuatAffine :=
  t <- np_multiply position_scale (translation self) ;;
  QuatAffine_init (quaternion self) t (Some (rotation self)) false.

(** [QuatAffine.from_tensor(tensor, normalize)] *)
Definition from_tensor (tensor : ndarray) (normalize : bool) : result QuatAffine :=
  d <- shape_neg tensor 1 ;;
  _ <- assert (d =? 7)%nat ;;
  quaternion <- slice_last tensor 0 4 ;;
  translation <- slice_last tensor 4 7 ;;
  QuatAffine_init (Some quaternion) translation None normalize.

(** [self.pre_compose(update)] *)
Definition pre_compose (self : QuatAffine) (update : ndarray) : result QuatAffine :=
  vector_quaternion_update <- slice_last update 0 3 ;;
  u3 <- index_last update 3 ;;
  u4 <- index_last update 4 ;;
  u5 <- index_last update 5 ;;
  qv <- quat_multiply_by_vec (quaternion self) vector_quaternion_update ;;
  new_quaternion <- match quaternion self with
                    | Some q => np_add q qv
                    | None => Raise TypeError
                    end ;;
  '(t0, t1, t2) <- apply_rot_to_vec (rotation self) (Unstacked u3 u4 u5) false ;;
  trans_update <- np_stack 0 [t0; t1; t2] ;;
  new_translation <- np_add (translation self) trans_update ;;
  QuatAffine_init (Some new_quaternion) new_translation None true.

(** The loop [for _ in range(extra_dims)] of [apply_to_point] and
    [invert_point]. *)
Fixpoint expand_extra_dims (extra_dims : nat) (translation rotation : ndarray)
  : result (ndarray * ndarray) :=
  match extra_dims with
  | O => Ok (translation, rotation)
  | S k =>
      translation <- np_expand_dims 1 translation ;;
      rotation <- np_expand_dims 2 rotation ;;
      expand_extra_dims k translation rotation
  end.

(** [self.apply_to_point(point, extra_dims)] *)
Definition apply_to_point (self : QuatAffine) (point : vec_arg) (extra_dims : nat)
  : result (ndarray * ndarray * ndarray) :=
  '(translation, rotation) <-
     expand_extra_dims extra_dims (translation self) (rotation self) ;;
  '(r0, r1, r2) <- apply_rot_to_vec rotation point false ;;
  t0 <- index_last translation 0 ;;
  p0 <- np_add r0 t0 ;;
  t1 <- index_last translation 1 ;;
  p1 <- np_add r1 t1 ;;
  t2 <- index_last translation 2 ;;
  p2 <- np_add r2 t2 ;;
  Ok (p0, p1, p2).

(** [transformed_point[i]] of a Python list of three arrays, or of an
    array. *)
Definition point_get (point : vec_arg) (i : nat) : result ndarray :=
  match point with
  | Unstacked x y z =>
      match i with
      | 0%nat => Ok x
      | 1%nat => Ok y
      | 2%nat => Ok z
      | _ => Raise IndexError
      end
  | Stacked v => index_first v i
  end.

(** [self.invert_point(transformed_point, extra_dims)] *)
Definition invert_point (self : QuatAffine) (transformed_point : vec_arg)
  (extra_dims : nat) : result (ndarray * ndarray * ndarray) :=
  '(translation, rotation) <-
     expand_extra_dims extra_dims (translation self) (rotation self) ;;
  p0 <- point_get transformed_point 0 ;;
  t0 <- index_last translation 0 ;;
  r0 <- np_subtract p0 t0 ;;
  p1 <- point_get transformed_point 1 ;;
  t1 <- index_last translation 1 ;;
  r1 <- np_subtract p1 t1 ;;
  p2 <- point_get transformed_point 2 ;;
  t2 <- index_last translation 2 ;;
  r2 <- np_subtract p2 t2 ;;
  apply_inverse_rot_to_vec rotation (Unstacked r0 r1 r2).

(** ** Canonical transforms *)

(** The additive guard [1e-20] of every normalisation. *)
Definition eps20 : R := 1e-20.

(** [a1*b1 + a2*b2 + a3*b12], a sum of three products of arrays already
    read. *)
Definition dot3 (a0 b0 a1 b1 a2 b2 : ndarray) : result ndarray :=
  lin3 (Ok a0) b0 (Ok a1) b1 (Ok a2) b2.

(** [_multiply(a, b)] *)
Definition _multiply (a b : ndarray) : result ndarray :=
  a1 <- index_last2 a 0 0 ;;
  a2 <- index_last2 a 0 1 ;;
  a3 <- index_last2 a 0 2 ;;
  a11 <- index_last2 a 1 0 ;;
  a12 <- index_last2 a 1 1 ;;
  a13 <- index_last2 a 1 2 ;;
  a21 <- index_last2 a 2 0 ;;
  a22 <- index_last2 a 2 1 ;;
  a23 <- index_last2 a 2 2 ;;
  b1 <- index_last2 b 0 0 ;;
  b2 <- index_last2 b 1 0 ;;
  b3 <- index_last2 b 0 1 ;;
  b11 <- index_last2 b 1 1 ;;
  b12 <- index_last2 b 2 0 ;;
  b13 <- index_last2 b 0 2 ;;
  b21 <- index_last2 b 1 2 ;;
  b22 <- index_last2 b 2 1 ;;
  b23 <- index_last2 b 2 2 ;;
  e00 <- dot3 a1 b1 a2 b2 a3 b12 ;;
  e01 <- dot3 a1 b3 a2 b11 a3 b22 ;;
  e02 <- dot3 a1 b13 a2 b21 a3 b23 ;;
  row0 <- np_stack 0 [e00; e01; e02] ;;
  e10 <- dot3 a11 b1 a12 b2 a13 b12 ;;
  e11 <- dot3 a11 b3 a12 b11 a13 b22 ;;
  e12 <- dot3 a11 b13 a12 b21 a13 b23 ;;
  row1 <- np_stack 0 [e10; e11; e12] ;;
  e20 <- dot3 a21 b1 a22 b2 a23 b12 ;;
  e21 <- dot3 a21 b3 a22 b11 a23 b22 ;;
  e22 <- dot3 a21 b13 a22 b21 a23 b23 ;;
  row2 <- np_stack 0 [e20; e21; e22] ;;
  np_stack 1 [row0; row1; row2].

(** [np.stack([...nine arrays...], axis=-1).reshape(s.shape + (3, 3))] *)
Definition stack_reshape_33 (entries : list ndarray) (s : ndarray) : result ndarray :=
  m <- np_stack 0 entries ;;
  np_reshape m (3 :: 3 :: rshape s)%nat.

(** [make_canonical_transform(n_xyz, ca_xyz, c_xyz)]; it returns
    [(translation, rotation)]. *)
Definition make_canonical_transform (n_xyz ca_xyz c_xyz : ndarray)
  : result (ndarray * ndarray) :=
  _ <- assert (np_ndim n_xyz =? 3)%nat ;;
  d <- shape_neg n_xyz 1 ;;
  _ <- assert (d =? 3)%nat ;;
  _ <- assert (shape_eqb (rshape n_xyz) (rshape ca_xyz)
               && shape_eqb (rshape ca_xyz) (rshape c_xyz)) ;;
  (* Place CA at the origin. *)
  let translation := np_negative ca_xyz in
  n_xyz <- np_add n_xyz translation ;;
  c_xyz <- np_add c_xyz translation ;;
  (* Place C on the x-axis. *)
  c_x <- index_last c_xyz 0 ;;
  c_y <- index_last c_xyz 1 ;;
  c_z <- index_last c_xyz 2 ;;
  (* Rotate by angle c1 in the x-y plane (around the z-axis). *)
  s <- np_add (np_square c_x) (np_square c_y) ;;
  let norm := np_sqrt (np_add_scalar s eps20) in
  sin_c1 <- np_divide (np_negative c_y) norm ;;
  cos_c1 <- np_divide c_x norm ;;
  let zeros := np_zeros_like sin_c1 in
  let ones := np_ones_like sin_c1 in
  c1_rot_matrix <-
    stack_reshape_33 [cos_c1; np_negative sin_c1; zeros;
                      sin_c1; cos_c1; zeros;
                      zeros; zeros; ones] sin_c1 ;;
  (* Rotate by angle c2 in the x-z plane (around the y-axis). *)
  s <- np_sum 0 (np_square c_xyz) ;;
  let norm := np_add_scalar (np_sqrt s) eps20 in
  sin_c2 <- np_divide c_z norm ;;
  s <- np_add (np_square c_x) (np_square c_y) ;;
  cos_c2 <- np_divide (np_sqrt s) norm ;;
  c2_rot_matrix <-
    stack_reshape_33 [cos_c2; zeros; sin_c2;
                      zeros; ones; zeros;
                      np_negative sin_c2; zeros; cos_c2] sin_c2 ;;
  c_rot_matrix <- _multiply c2_rot_matrix c1_rot_matrix ;;
  '(n0, n1, n2) <- apply_rot_to_vec c_rot_matrix (Stacked n_xyz) true ;;
  n_xyz <- np_stack 0 [n0; n1; n2] ;;
  (* Place N in the x-y plane. *)
  _ <- index_last n_xyz 0 ;;
  n_y <- index_last n_xyz 1 ;;
  n_z <- index_last n_xyz 2 ;;
  (* Rotate by angle alpha in the y-z plane (around the x-axis). *)
  s <- np_add (np_square n_y) (np_square n_z) ;;
  let norm := np_sqrt (np_add_scalar s eps20) in
  sin_n <- np_divide (np_negative n_z) norm ;;
  cos_n <- np_divide n_y norm ;;
  n_rot_matrix <-
    stack_reshape_33 [ones; zeros; zeros;
                      zeros; cos_n; np_negative sin_n;
                      zeros; sin_n; cos_n] sin_n ;;
  r <- _multiply n_rot_matrix c_rot_matrix ;;
  Ok (translation, r).

(** [np.transpose(rotation, (0, 1, 3, 2))] *)
Definition np_transpose_0132 (a : ndarray) : result ndarray :=
  match rshape a with
  | [d3; d2; d1; d0] =>
      Ok (mkarray [d2; d3; d1; d0]
            (fun idx => match idx with
                        | [i2; i3; i1; i0] => item a [i3; i2; i1; i0]
                        | _ => 0
                        end))
  | _ => Raise ValueError
  end.

(** [make_transform_from_reference(n_xyz, ca_xyz, c_xyz)]; it returns
    [(rotation, translation)]. *)
Definition make_transform_from_reference (n_xyz ca_xyz c_xyz : ndarray)
  : result (ndarray * ndarray) :=
  '(translation, rotation) <- make_canonical_transform n_xyz ca_xyz c_xyz ;;
  r <- np_transpose_0132 rotation ;;
  Ok (r, np_negative translation).

(** [_multiply_np(a, b)] *)
Definition _multiply_np (a b : ndarray) : result ndarray :=
  let e (i j : nat) :=
    sum3 (prod_of (index_first2 a i 0) (index_first2 b 0 j))
         (prod_of (index_first2 a i 1) (index_first2 b 1 j))
         (prod_of (index_first2 a i 2) (index_first2 b 2 j)) in
  e00 <- e 0%nat 0%nat ;;
  e01 <- e 0%nat 1%nat ;;
  e02 <- e 0%nat 2%nat ;;
  row0 <- np_stack_first [e00; e01; e02] ;;
  e10 <- e 1%nat 0%nat ;;
  e11 <- e 1%nat 1%nat ;;
  e12 <- e 1%nat 2%nat ;;
  row1 <- np_stack_first [e10; e11; e12] ;;
  e20 <- e 2%nat 0%nat ;;
  e21 <- e 2%nat 1%nat ;;
  e22 <- e 2%nat 2%nat ;;
  row2 <- np_stack_first [e20; e21; e22] ;;
  np_stack_first [row0; row1; row2].

(** [np.stack([np.array([..]), np.array([..]), np.array([..])])] of nine
    arrays, three to a row. *)
Definition stack_rows (r0 r1 r2 : list ndarray) : result ndarray :=
  row0 <- np_stack_first r0 ;;
  row1 <- np_stack_first r1 ;;
  row2 <- np_stack_first r2 ;;
  np_stack_first [row0; row1; row2].

(** [make_canonical_transform_np(n_xyz, ca_xyz, c_xyz)]; it returns
    [(translation, rotation)]. *)
Definition make_canonical_transform_np (n_xyz ca_xyz c_xyz : ndarray)
  : result (ndarray * ndarray) :=
  _ <- assert (np_ndim n_xyz =? 2)%nat ;;
  d <- shape_neg n_xyz 1 ;;
  _ <- assert (d =? 3)%nat ;;
  _ <- assert (shape_eqb (rshape n_xyz) (rshape ca_xyz)
               && shape_eqb (rshape ca_xyz) (rshape c_xyz)) ;;
  (* Place CA at the origin. *)
  let translation := np_negative ca_xyz in
  n_xyz <- np_add n_xyz translation ;;
  c_xyz <- np_add c_xyz translation ;;
  (* Place C on the x-axis. *)
  c_x <- index_col c_xyz 0 ;;
  c_y <- index_col c_xyz 1 ;;
  c_z <- index_col c_xyz 2 ;;
  (* Rotate by angle c1 in the x-y plane (around the z-axis). *)
  s <- np_add (np_scalar_add eps20 (np_square c_x)) (np_square c_y) ;;
  sin_c1 <- np_divide (np_negative c_y) (np_sqrt s) ;;
  s <- np_add (np_scalar_add eps20 (np_square c_x)) (np_square c_y) ;;
  cos_c1 <- np_divide c_x (np_sqrt s) ;;
  let zeros := np_zeros_like sin_c1 in
  let ones := np_ones_like sin_c1 in
  c1_rot_matrix <- stack_rows [cos_c1; np_negative sin_c1; zeros]
                              [sin_c1; cos_c1; zeros]
                              [zeros; zeros; ones] ;;
  (* Rotate by angle c2 in the x-z plane (around the y-axis). *)
  s <- np_add (np_scalar_add eps20 (np_square c_x)) (np_square c_y) ;;
  s <- np_add s (np_square c_z) ;;
  sin_c2 <- np_divide c_z (np_sqrt s) ;;
  s1 <- np_add (np_square c_x) (np_square c_y) ;;
  s <- np_add (np_scalar_add eps20 (np_square c_x)) (np_square c_y) ;;
  s <- np_add s (np_square c_z) ;;
  cos_c2 <- np_divide (np_sqrt s1) (np_sqrt s) ;;
  c2_rot_matrix <- stack_rows [cos_c2; zeros; sin_c2]
                              [zeros; ones; zeros]
                              [np_negative sin_c2; zeros; cos_c2] ;;
  c_rot_matrix <- _multiply_np c2_rot_matrix c1_rot_matrix ;;
  '(n0, n1, n2) <- apply_rot_to_vec_np c_rot_matrix (Stacked n_xyz) true ;;
  n_st <- np_stack_first [n0; n1; n2] ;;
  let n_xyz := np_T n_st in
  (* Place N in the x-y plane. *)
  _ <- index_col n_xyz 0 ;;
  n_y <- index_col n_xyz 1 ;;
  n_z <- index_col n_xyz 2 ;;
  (* Rotate by angle alpha in the y-z plane (around the x-axis). *)
  s <- np_add (np_scalar_add eps20 (np_square n_y)) (np_square n_z) ;;
  sin_n <- np_divide (np_negative n_z) (np_sqrt s) ;;
  s <- np_add (np_scalar_add eps20 (np_square n_y)) (np_square n_z) ;;
  cos_n <- np_divide n_y (np_sqrt s) ;;
  n_rot_matrix <- stack_rows [ones; zeros; zeros]
                             [zeros; cos_n; np_negative sin_n]
                             [zeros; sin_n; cos_n] ;;
  m <- _multiply_np n_rot_matrix c_rot_matrix ;;
  r <- np_transpose_201 m ;;
  Ok (translation, r).


(** ** Rotation matrix to quaternion *)

(** [a[..., -1]] *)
Definition index_last_m1 (a : ndarray) : result ndarray :=
  match rshape a with
  | d :: _ => index_last a (d - 1)
  | [] => Raise IndexError
  end.

(** [a + b + c] and [a - b - c] of arrays already read. *)
Definition add3 (a b c : ndarray) : result ndarray :=
  s <- np_add a b ;;
  np_add s c.

Definition sub3 (a b c : ndarray) : result ndarray :=
  s <- np_subtract a b ;;
  np_subtract s c.

(** The local [k] of [rot_to_quat] as it is handed to [np.linalg.eigh]:
    an array of shape (..., 4, 4). *)
Definition rot_to_quat_k (rot : ndarray) : result ndarray :=
  xx <- index_last2 rot 0 0 ;;
  xy <- index_last2 rot 0 1 ;;
  xz <- index_last2 rot 0 2 ;;
  yx <- index_last2 rot 1 0 ;;
  yy <- index_last2 rot 1 1 ;;
  yz <- index_last2 rot 1 2 ;;
  zx <- index_last2 rot 2 0 ;;
  zy <- index_last2 rot 2 1 ;;
  zz <- index_last2 rot 2 2 ;;
  k00 <- add3 xx yy zz ;;
  k01 <- np_subtract zy yz ;;
  k02 <- np_subtract xz zx ;;
  k03 <- np_subtract yx xy ;;
  k10 <- np_subtract zy yz ;;
  k11 <- sub3 xx yy zz ;;
  k12 <- np_add xy yx ;;
  k13 <- np_add xz zx ;;
  k20 <- np_subtract xz zx ;;
  k21 <- np_add xy yx ;;
  k22 <- sub3 yy xx zz ;;
  k23 <- np_add yz zy ;;
  k30 <- np_subtract yx xy ;;
  k31 <- np_add xz zx ;;
  k32 <- np_add yz zy ;;
  k33 <- sub3 zz xx yy ;;
  row0 <- np_stack 0 [k00; k01; k02; k03] ;;
  row1 <- np_stack 0 [k10; k11; k12; k13] ;;
  row2 <- np_stack 0 [k20; k21; k22; k23] ;;
  row3 <- np_stack 0 [k30; k31; k32; k33] ;;
  k <- np_stack 1 [row0; row1; row2; row3] ;;
  Ok (np_map1 (fun x => 1 / 3 * x) k).

Section Eigh.

(** [np.linalg.eigh], a library routine the embedding leaves open: it
    takes an array of symmetric matrices and returns the pair
    (eigenvalues, eigenvectors). *)
Variable np_linalg_eigh : ndarray -> result (ndarray * ndarray).

(** [rot_to_quat(rot)] *)
Definition rot_to_quat (rot : ndarray) : result ndarray :=
  k <- rot_to_quat_k rot ;;
  '(_, qs) <- np_linalg_eigh k ;;
  index_last_m1 qs.

End Eigh.
(** ** Vocabulary of the specifications *)

(** [a] has shape [s] and entries [f]. *)
Definition denotes (a : ndarray) (s : list nat) (f : list nat -> R) : Prop :=
  rshape a = s /\ forall idx, in_shape idx s -> item a idx = f idx.

(** Two arrays of one shape and the same entries. *)
Definition same_array (a b : ndarray) : Prop :=
  rshape a = rshape b /\ forall idx, in_shape idx (rshape a) -> item a idx = item b idx.

(** *** One batch element

    The arrays hold one 3-vector, or one 3x3 matrix, for each index of the
    leading axes.  What the vectorised code computes at one such index is
    written on [vec3] and [mat3]. *)

Definition vec3 : Type := (R * R * R)%type.
Definition mat3 : Type := nat -> nat -> R.

Definition vec_get (v : vec3) (k : nat) : R :=
  match v, k with
  | (x, _, _), 0%nat => x
  | (_, y, _), 1%nat => y
  | (_, _, z), 2%nat => z
  | _, _ => 0
  end.

(** The matrix whose rows are read off a list of nine entries. *)
Definition rows9 (l : list R) : mat3 := fun i j => nth (3 * i + j) l 0.

(** The matrix product, summed in the order of [_multiply]. *)
Definition mmul (a b : mat3) : mat3 :=
  fun i j => a i 0%nat * b 0%nat j + a i 1%nat * b 1%nat j + a i 2%nat * b 2%nat j.

(** The matrix-vector product, summed in the order of [apply_rot_to_vec]. *)
Definition mvec (a : mat3) (v : vec3) : vec3 :=
  let '(x, y, z) := v in
  (a 0%nat 0%nat * x + a 0%nat 1%nat * y + a 0%nat 2%nat * z,
   a 1%nat 0%nat * x + a 1%nat 1%nat * y + a 1%nat 2%nat * z,
   a 2%nat 0%nat * x + a 2%nat 1%nat * y + a 2%nat 2%nat * z).

(** The transposed matrix-vector product of [apply_inverse_rot_to_vec]. *)
Definition mtvec (a : mat3) (v : vec3) : vec3 :=
  let '(x, y, z) := v in
  (a 0%nat 0%nat * x + a 1%nat 0%nat * y + a 2%nat 0%nat * z,
   a 0%nat 1%nat * x + a 1%nat 1%nat * y + a 2%nat 1%nat * z,
   a 0%nat 2%nat * x + a 1%nat 2%nat * y + a 2%nat 2%nat * z).

(** The entries of an array of shape [3 :: 3 :: s] that holds the matrix
    [M l] at each index [l] of [s], and of an array of shape [3 :: s] that
    holds the vector [V l]. *)
Definition mat_entries (M : list nat -> mat3) : list nat -> R :=
  fun idx => match idx with
             | j :: i :: l => M l i j
             | _ => 0
             end.

Definition vec_entries (V : list nat -> vec3) : list nat -> R :=
  fun idx => match idx with
             | k :: l => vec_get (V l) k
             | [] => 0
             end.

(** The vector and the matrix an array holds at index [l]. *)
Definition vec_at (a : ndarray) (l : list nat) : vec3 :=
  (item a (0%nat :: l), item a (1%nat :: l), item a (2%nat :: l)).

Definition mat_at (a : ndarray) (l : list nat) : mat3 :=
  fun i j => item a (j :: i :: l).

Definition vneg (v : vec3) : vec3 :=
  let '(x, y, z) := v in (- x, - y, - z).

Definition vadd (u v : vec3) : vec3 :=
  let '(x, y, z) := u in
  let '(x', y', z') := v in (x + x', y + y', z + z').

(** [np.sum(v ** 2, axis=-1)] *)
Definition sumsq (v : vec3) : R :=
  let '(x, y, z) := v in x ^ 2 + y ^ 2 + z ^ 2.

(** [c1_rot_matrix] of [make_canonical_transform] at one index, from the
    shifted C. *)
Definition c1_rot (c : vec3) : mat3 :=
  let '(c_x, c_y, c_z) := c in
  let norm := sqrt (c_x ^ 2 + c_y ^ 2 + eps20) in
  let sin_c1 := - c_y / norm in
  let cos_c1 := c_x / norm in
  rows9 [cos_c1; - sin_c1; 0;
         sin_c1; cos_c1; 0;
         0; 0; 1].

(** [c2_rot_matrix] of [make_canonical_transform] at one index. *)
Definition c2_rot (c : vec3) : mat3 :=
  let '(c_x, c_y, c_z) := c in
  let norm := sqrt (sumsq c) + eps20 in
  let sin_c2 := c_z / norm in
  let cos_c2 := sqrt (c_x ^ 2 + c_y ^ 2) / norm in
  rows9 [cos_c2; 0; sin_c2;
         0; 1; 0;
         - sin_c2; 0; cos_c2].

(** [n_rot_matrix] at one index, from the N that [c_rot_matrix] has
    rotated. *)
Definition n_rot (n : vec3) : mat3 :=
  let '(_, n_y, n_z) := n in
  let norm := sqrt (n_y ^ 2 + n_z ^ 2 + eps20) in
  let sin_n := - n_z / norm in
  let cos_n := n_y / norm in
  rows9 [1; 0; 0;
         0; cos_n; - sin_n;
         0; sin_n; cos_n].

(** The rotation [make_canonical_transform] returns at one index. *)
Definition canonical_rotation (n ca c : vec3) : mat3 :=
  let translation := vneg ca in
  let n := vadd n translation in
  let c := vadd c translation in
  let c_rot := mmul (c2_rot c) (c1_rot c) in
  let n := mvec c_rot n in
  mmul (n_rot n) c_rot.

(** *** The canonical placement *)

(** "Shift by [translation], then rotate by [rotation]": the image of the
    point that the array [p] holds at index [l]. *)
Definition shift_rotate (translation rotation p : ndarray) (l : list nat) : vec3 :=
  mvec (mat_at rotation l) (vadd (vec_at p l) (vec_at translation l)).

Definition on_positive_x_axis (v : vec3) : Prop :=
  let '(x, y, z) := v in 0 < x /\ y = 0 /\ z = 0.

Definition in_xy_plane (v : vec3) : Prop :=
  let '(_, _, z) := v in z = 0.

(** The placement the canonical transform is said to achieve for every
    triplet: CA at the origin, C on the positive x-axis, N in the
    xy-plane. *)
Definition places_canonically (n_xyz ca_xyz c_xyz : ndarray) : Prop :=
  returns (make_canonical_transform n_xyz ca_xyz c_xyz)
    (fun '(translation, rotation) =>
       forall l, in_shape l (tl (rshape ca_xyz)) ->
         shift_rotate translation rotation ca_xyz l = (0, 0, 0) /\
         on_positive_x_axis (shift_rotate translation rotation c_xyz l) /\
         in_xy_plane (shift_rotate translation rotation n_xyz l)).

(** [np.array([[[x, y, z]]])], of shape (1, 1, 3). *)
Definition array_1_1_3 (v : vec3) : ndarray :=
  mkarray [3; 1; 1]%nat (fun idx => vec_get v (hd 0%nat idx)).

(** The reference backbone triplet. *)
Definition N_ref : vec3 := (-0.527, 1.359, 0).
Definition CA_ref : vec3 := (0, 0, 0).
Definition C_ref : vec3 := (1.525, 0, 0).

(** A degenerate triplet: C coincides with CA. *)
Definition N_deg : vec3 := (0, 1, 0).
Definition CA_deg : vec3 := (0, 0, 0).
Definition C_deg : vec3 := (0, 0, 0).

(** The point of [p] at index [l] once CA has been moved to the origin. *)
Definition shifted (p ca_xyz : ndarray) (l : list nat) : vec3 :=
  vadd (vec_at p l) (vneg (vec_at ca_xyz l)).

(** *** Shapes at construction *)

(** The trailing dimension, and the trailing two dimensions (rows,
    columns), of an array that has them. *)
Definition last_dim (a : ndarray) : option nat := hd_error (rshape a).

Definition last_two_dims (a : ndarray) : option (nat * nat) :=
  match rshape a with
  | dj :: di :: _ => Some (di, dj)
  | _ => None
  end.

(** The leading (batch) dimensions of an array whose entries are vectors. *)
Definition batch_dims (a : ndarray) : list nat := tl (rshape a).

(** A provided quaternion whose trailing dimension is not 4, a translation
    whose trailing dimension is not 3, or a provided rotation whose
    trailing two dimensions are not 3x3. *)
Definition trailing_violation (quaternion : option ndarray) (translation : ndarray)
  (rotation : option ndarray) : Prop :=
  (exists q, quaternion = Some q /\ last_dim q <> Some 4%nat) \/
  last_dim translation <> Some 3%nat \/
  (exists r, rotation = Some r /\ last_two_dims r <> Some (3, 3)%nat).

(** A provided quaternion whose leading dimensions differ from the
    translation's. *)
Definition batch_mismatch (quaternion : option ndarray) (translation : ndarray) : Prop :=
  exists q, quaternion = Some q /\ batch_dims q <> batch_dims translation.

(** Construction is said to raise on every violated precondition and to
    succeed otherwise. *)
Definition construction_checks_preconditions (quaternion : option ndarray)
  (translation : ndarray) (rotation : option ndarray) (normalize : bool) : Prop :=
  (trailing_violation quaternion translation rotation
   \/ batch_mismatch quaternion translation ->
   raises (QuatAffine_init quaternion translation rotation normalize)) /\
  (~ (trailing_violation quaternion translation rotation
      \/ batch_mismatch quaternion translation) ->
   returns (QuatAffine_init quaternion translation rotation normalize) (fun _ => True)).

(** Arrays of given shape filled with one vector, one matrix, one
    quaternion. *)
Definition full_vec (s : list nat) (v : vec3) : ndarray :=
  mkarray (3%nat :: s) (fun idx => vec_get v (hd 0%nat idx)).

Definition full_mat (s : list nat) (m : mat3) : ndarray :=
  mkarray (3%nat :: 3%nat :: s)
    (fun idx => match idx with
                | j :: i :: _ => m i j
                | _ => 0
                end).

Definition quat : Type := (R * R * R * R)%type.

Definition quat_get (q : quat) (k : nat) : R :=
  match q, k with
  | (w, _, _, _), 0%nat => w
  | (_, x, _, _), 1%nat => x
  | (_, _, y, _), 2%nat => y
  | (_, _, _, z), 3%nat => z
  | _, _ => 0
  end.

Definition full_quat (s : list nat) (q : quat) : ndarray :=
  mkarray (4%nat :: s) (fun idx => quat_get q (hd 0%nat idx)).

Definition identity_mat : mat3 := fun i j => if (i =? j)%nat then 1 else 0.
Definition identity_quat : quat := (1, 0, 0, 0).

(** The quaternion an array holds at index [l]. *)
Definition quat_at (a : ndarray) (l : list nat) : quat :=
  (item a (0%nat :: l), item a (1%nat :: l), item a (2%nat :: l), item a (3%nat :: l)).

(** *** Quaternions and rotation matrices *)

(** The matrix [quat_to_rot] computes from one quaternion: entry (r, c) is
    the sum over i, j of [QUAT_TO_ROT[i, j, r, c] * q_i * q_j]. *)
Definition quat_rot (q : quat) : mat3 :=
  fun r c =>
    Rsum (fun j => Rsum (fun i =>
      table2 (QUAT_TO_ROT_block i j) r c * quat_get q i * quat_get q j)
      (seq 0 4)) (seq 0 4).

Definition mtranspose (m : mat3) : mat3 := fun i j => m j i.

Definition det3 (m : mat3) : R :=
  m 0%nat 0%nat * (m 1%nat 1%nat * m 2%nat 2%nat - m 1%nat 2%nat * m 2%nat 1%nat)
  - m 0%nat 1%nat * (m 1%nat 0%nat * m 2%nat 2%nat - m 1%nat 2%nat * m 2%nat 0%nat)
  + m 0%nat 2%nat * (m 1%nat 0%nat * m 2%nat 1%nat - m 1%nat 1%nat * m 2%nat 0%nat).

(** [R R^T = I] *)
Definition orthonormal (m : mat3) : Prop :=
  forall i j, (i < 3)%nat -> (j < 3)%nat ->
    mmul m (mtranspose m) i j = identity_mat i j.

(** [np.linalg.norm] of one quaternion. *)
Definition quat_norm (q : quat) : R :=
  let '(w, x, y, z) := q in sqrt (w * w + x * x + y * y + z * z).

(** The Hamilton product of two quaternions, scalar part first. *)
Definition hamilton (a b : quat) : quat :=
  let '(a1, b1, c1, d1) := a in
  let '(a2, b2, c2, d2) := b in
  (a1 * a2 - b1 * b2 - c1 * c2 - d1 * d2,
   a1 * b2 + b1 * a2 + c1 * d2 - d1 * c2,
   a1 * c2 - b1 * d2 + c1 * a2 + d1 * b2,
   a1 * d2 + b1 * c2 - c1 * b2 + d1 * a2).

(** The pure-vector quaternion (0, v) and the vector part of a
    quaternion. *)
Definition pure_quat (v : vec3) : quat := let '(x, y, z) := v in (0, x, y, z).
Definition vector_part (q : quat) : vec3 := let '(_, x, y, z) := q in (x, y, z).

(** [quat_multiply_by_vec] is said to return the vector part of the
    Hamilton product of [q] with (0, v). *)
Definition returns_vector_part (q v : ndarray) : Prop :=
  returns (quat_multiply_by_vec (Some q) v)
    (fun r => rshape r = (3 :: batch_dims q)%nat /\
       forall l, in_shape l (batch_dims q) ->
         vec_at r l = vector_part (hamilton (quat_at q l) (pure_quat (vec_at v l)))).

(** *** Frames *)

(** The rotation and the translation of the frame that serve the point
    entry at index [idx]: the leading axes of [idx], once its [extra_dims]
    trailing axes are dropped, select the batch element. *)
Definition frame_rot (self : QuatAffine) (extra_dims : nat) (idx : list nat) : mat3 :=
  mat_at (rotation self) (skipn extra_dims idx).

Definition frame_trans (self : QuatAffine) (extra_dims : nat) (idx : list nat) : vec3 :=
  vec_at (translation self) (skipn extra_dims idx).

(** The point that three arrays of coordinates hold at index [idx]. *)
Definition point_at (x y z : ndarray) (idx : list nat) : vec3 :=
  (item x idx, item y idx, item z idx).

Definition vsub (u v : vec3) : vec3 :=
  let '(x, y, z) := u in
  let '(x', y', z') := v in (x - x', y - y', z - z').

(** Four coordinates for each of two batch elements: an array of shape
    (2, 4). *)
Definition points_2_4 : ndarray :=
  mkarray [4; 2]%nat (fun idx => INR (hd 0%nat idx)).

(** A frame of batch shape [s] with the identity rotation, held both as a
    quaternion and as a matrix, and the translation [t]. *)
Definition identity_frame (s : list nat) (t : vec3) : QuatAffine :=
  mkQuatAffine (Some (full_quat s identity_quat)) (full_mat s identity_mat) (full_vec s t).

(** *** The unbatched variant *)

(** The entries of an array of shape (3, 3, b), the layout in which
    [make_canonical_transform_np] builds its matrices, that holds the
    matrix [M [i]] at each index [i] of its last axis. *)
Definition mat_entries_first (M : list nat -> mat3) : list nat -> R :=
  fun idx => match idx with
             | [ib; j; i] => M [ib] i j
             | _ => 0
             end.

(** [c1_rot_matrix], [c2_rot_matrix] and [n_rot_matrix] of
    [make_canonical_transform_np] at one index. *)
Definition c1_rot_np (c : vec3) : mat3 :=
  let '(c_x, c_y, c_z) := c in
  let sin_c1 := - c_y / sqrt (eps20 + c_x ^ 2 + c_y ^ 2) in
  let cos_c1 := c_x / sqrt (eps20 + c_x ^ 2 + c_y ^ 2) in
  rows9 [cos_c1; - sin_c1; 0;
         sin_c1; cos_c1; 0;
         0; 0; 1].

Definition c2_rot_np (c : vec3) : mat3 :=
  let '(c_x, c_y, c_z) := c in
  let sin_c2 := c_z / sqrt (eps20 + c_x ^ 2 + c_y ^ 2 + c_z ^ 2) in
  let cos_c2 := sqrt (c_x ^ 2 + c_y ^ 2) / sqrt (eps20 + c_x ^ 2 + c_y ^ 2 + c_z ^ 2) in
  rows9 [cos_c2; 0; sin_c2;
         0; 1; 0;
         - sin_c2; 0; cos_c2].

Definition n_rot_np (n : vec3) : mat3 :=
  let '(_, n_y, n_z) := n in
  let sin_n := - n_z / sqrt (eps20 + n_y ^ 2 + n_z ^ 2) in
  let cos_n := n_y / sqrt (eps20 + n_y ^ 2 + n_z ^ 2) in
  rows9 [1; 0; 0;
         0; cos_n; - sin_n;
         0; sin_n; cos_n].

(** The rotation [make_canonical_transform_np] returns at one index. *)
Definition canonical_rotation_np (n ca c : vec3) : mat3 :=
  let translation := vneg ca in
  let n := vadd n translation in
  let c := vadd c translation in
  let c_rot := mmul (c2_rot_np c) (c1_rot_np c) in
  let n := mvec c_rot n in
  mmul (n_rot_np n) c_rot.

(** [np.array([[x, y, z]])], of shape (1, 3). *)
Definition array_1_3 (v : vec3) : ndarray :=
  mkarray [3; 1]%nat (fun idx => vec_get v (hd 0%nat idx)).

(** [a[None]]: the same entries under a new first axis of size 1. *)
Definition newaxis_first (a : ndarray) : ndarray :=
  mkarray (rshape a ++ [1%nat]) (fun idx => item a (removelast idx)).

(** The two variants are said to return the same pair, up to [tol], on one
    triplet: given to the batched variant as arrays of shape (1, 1, 3) and
    to the unbatched one as arrays of shape (1, 3). *)
Definition variants_agree (tol : R) (n ca c : vec3) : Prop :=
  returns (make_canonical_transform (array_1_1_3 n) (array_1_1_3 ca) (array_1_1_3 c))
    (fun '(translation, rotation) =>
       returns (make_canonical_transform_np (array_1_3 n) (array_1_3 ca) (array_1_3 c))
         (fun '(translation', rotation') =>
            (forall k, (k < 3)%nat ->
               Rabs (item translation [k; 0; 0]%nat - item translation' [k; 0]%nat) <= tol) /\
            (forall i j, (i < 3)%nat -> (j < 3)%nat ->
               Rabs (item rotation [j; i; 0; 0]%nat - item rotation' [j; i; 0]%nat) <= tol))).

(** A triplet whose C is 1e-10 above CA. *)
Definition N_near : vec3 := (0, 1, 0).
Definition CA_near : vec3 := (0, 0, 0).
Definition C_near : vec3 := (0, 0, 1e-10).



(** *** Further vocabulary: matrices, points and sample arrays *)

(** The trailing two axes of [a] hold at least a 3x3 block, the entries
    [_multiply] and [apply_rot_to_vec] read. *)
Definition has_3x3 (a : ndarray) : bool :=
  match rshape a with
  | dj :: di :: _ => (3 <=? di)%nat && (3 <=? dj)%nat
  | _ => false
  end.

(** The squared Euclidean distance of two points. *)
Definition dist2 (u v : vec3) : R := sumsq (vsub u v).

(** A quarter turn about the z-axis. *)
Definition quarter_turn : mat3 :=
  rows9 [0; -1; 0;
         1; 0; 0;
         0; 0; 1].

(** One coordinate for each of two batch elements: an array of shape (2,). *)
Definition points_2 : ndarray :=
  mkarray [2]%nat (fun idx => INR (hd 0%nat idx)).

(** [q / |q|], the quaternion the constructor stores when it normalises. *)
Definition quat_unit (q : quat) : quat :=
  let '(w, x, y, z) := q in
  let n := quat_norm q in
  (w / n, x / n, y / n, z / n).

(** A flat encoding for one frame: an array of shape (1, 7). *)
Definition tensor_1_7 : ndarray :=
  mkarray [7; 1]%nat (fun idx => INR (hd 0%nat idx)).

(** What the two canonical-transform builders assert of their arguments:
    [n_xyz] has [rank] axes, the last of them 3 long, and the three arrays
    have one shape. *)
Definition canonical_inputs (rank : nat) (n_xyz ca_xyz c_xyz : ndarray) : Prop :=
  np_ndim n_xyz = rank /\ last_dim n_xyz = Some 3%nat /\
  rshape n_xyz = rshape ca_xyz /\ rshape ca_xyz = rshape c_xyz.

(** The determinant guard: the shifted C and N are not collinear with the
    z-axis through CA. *)
Definition xy_independent (n c : vec3) : Prop :=
  let '(c_x, c_y, _) := c in
  let '(n_x, n_y, _) := n in
  c_x * n_y - c_y * n_x <> 0.

(** [|q|^2], the squared norm of a quaternion. *)
Definition quat_sumsq (q : quat) : R :=
  let '(w, x, y, z) := q in w * w + x * x + y * y + z * z.

(** The matrix whose nine entries, row after row, an array of shape
    (..., 9) holds at index [l]. *)
Definition mat_of_9 (r : ndarray) (l : list nat) : mat3 :=
  fun i j => item r ((3 * i + j)%nat :: l).

(** *** Eigen-decomposition *)

(** The matrix [rot_to_quat] builds from one rotation matrix [m]. *)
Definition davenport (m : mat3) : nat -> nat -> R :=
  let xx := m 0%nat 0%nat in let xy := m 0%nat 1%nat in let xz := m 0%nat 2%nat in
  let yx := m 1%nat 0%nat in let yy := m 1%nat 1%nat in let yz := m 1%nat 2%nat in
  let zx := m 2%nat 0%nat in let zy := m 2%nat 1%nat in let zz := m 2%nat 2%nat in
  fun a b =>
    1 / 3 * nth b (nth a [[xx + yy + zz; zy - yz; xz - zx; yx - xy];
                          [zy - yz; xx - yy - zz; xy + yx; xz + zx];
                          [xz - zx; xy + yx; yy - xx - zz; yz + zy];
                          [yx - xy; xz + zx; yz + zy; zz - xx - yy]] []) 0.

Definition delta (i j : nat) : R := if (i =? j)%nat then 1 else 0.

(** What numpy documents of [w, v = np.linalg.eigh(k)] for arrays of
    symmetric 4x4 matrices, in exact arithmetic: at each batch index the
    eigenvalues [w] ascend, column [v[:, i]] is an eigenvector of [k] for
    [w[i]], and [v] is an orthogonal matrix. *)
Definition eigh_contract (s : list nat) (k w v : ndarray) : Prop :=
  rshape w = (4 :: s)%nat /\ rshape v = (4 :: 4 :: s)%nat /\
  forall l, in_shape l s ->
    (item w (0 :: l)%nat <= item w (1 :: l)%nat /\
     item w (1 :: l)%nat <= item w (2 :: l)%nat /\
     item w (2 :: l)%nat <= item w (3 :: l)%nat) /\
    (forall a i, (a < 4)%nat -> (i < 4)%nat ->
       Rsum (fun b => item k (b :: a :: l) * item v (i :: b :: l)) (seq 0 4)
       = item w (i :: l) * item v (i :: a :: l)) /\
    (forall i j, (i < 4)%nat -> (j < 4)%nat ->
       Rsum (fun a => item v (i :: a :: l) * item v (j :: a :: l)) (seq 0 4) = delta i j) /\
    (forall a b, (a < 4)%nat -> (b < 4)%nat ->
       Rsum (fun i => item v (i :: a :: l) * item v (i :: b :: l)) (seq 0 4) = delta a b).

Definition quat_neg (q : quat) : quat :=
  let '(w, x, y, z) := q in (- w, - x, - y, - z).

(** An eigen-decomposition of the matrix [rot_to_quat] builds from the
    identity rotation, diag(1, -1/3, -1/3, -1/3): the eigenvalues in
    ascending order and, in columns, the eigenvectors e1, e2, e3, e0. *)
Definition eigh_of_identity (k : ndarray) : result (ndarray * ndarray) :=
  Ok (mkarray [4]%nat (fun idx => if (hd 0%nat idx =? 3)%nat then 1 else - (1 / 3)),
      mkarray [4; 4]%nat
        (fun idx => match idx with
                    | [i; a] => if (a =? (i + 1) mod 4)%nat then 1 else 0
                    | _ => 0
                    end)).

(** *** How far the two variants may differ *)

(** The rotation about the y-axis with cosine [c] and sine [s]: the form
    of [c2_rot_matrix] in both variants. *)
Definition y_rot (c s : R) : mat3 :=
  rows9 [c; 0; s;
         0; 1; 0;
         - s; 0; c].

(** The bound on the difference of the two rotations, entry by entry, for
    a C at distance at least [d] from CA. *)
Definition variants_tolerance (d : R) : R := 4 * eps20 * (1 + 1 / (2 * d)) / d.
(** * Facts about the error monad *)

Lemma returns_bind {A B : Type} (m : result A) (k : A -> result B)
  (P : A -> Prop) (Q : B -> Prop) :
  returns m P -> (forall a, P a -> returns (k a) Q) -> returns (x <- m ;; k x) Q.
Proof.
  destruct m as [a|e]; simpl; intros Hm Hk; [apply Hk, Hm | contradiction].
Qed.

Lemma returns_mono {A : Type} (m : result A) (P Q : A -> Prop) :
  returns m P -> (forall a, P a -> Q a) -> returns m Q.
Proof.
  destruct m as [a|e]; simpl; intros Hm Hk; [apply Hk, Hm | contradiction].
Qed.

Lemma returns_inv {A : Type} (m : result A) (Q : A -> Prop) :
  returns m Q -> exists a, m = Ok a /\ Q a.
Proof.
  destruct m as [a|e]; simpl; intros H; [exists a; split; auto | contradiction].
Qed.

Lemma returns_intro {A : Type} (m : result A) (Q : A -> Prop) (a : A) :
  m = Ok a -> Q a -> returns m Q.
Proof. intros -> H. exact H. Qed.

Lemma raises_bind_l {A B : Type} (m : result A) (k : A -> result B) :
  raises m -> raises (x <- m ;; k x).
Proof. destruct m; simpl; intros H; [contradiction | exact I]. Qed.

Lemma raises_bind_r {A B : Type} (m : result A) (k : A -> result B) :
  (forall a, raises (k a)) -> raises (x <- m ;; k x).
Proof. destruct m; simpl; intros H; [apply H | exact I]. Qed.

Lemma raises_inv {A : Type} (m : result A) :
  raises m -> exists e, m = Raise e.
Proof. destruct m as [a|e]; simpl; intros H; [contradiction | eauto]. Qed.

Lemma raises_not_returns {A : Type} (m : result A) (Q : A -> Prop) :
  raises m -> ~ returns m Q.
Proof. destruct m; simpl; intros H H'; assumption. Qed.

(** [step tac as a H]: the first call of a sequence returns, by [tac]; its
    value is [a] and [H] is what is known of it. *)
Tactic Notation "step" tactic3(tac) "as" ident(a) ident(H) :=
  eapply returns_bind; [ solve [tac] | intros a H; cbv beta in H ].

(** The last call of a sequence. *)
Tactic Notation "finish" tactic3(tac) :=
  eapply returns_mono; [ solve [tac] | cbv beta ].

(** * Facts about shapes and indices *)

Lemma in_shape_nil : in_shape [] [].
Proof. constructor. Qed.

Lemma in_shape_cons i idx d s :
  in_shape (i :: idx) (d :: s) <-> (i < d)%nat /\ in_shape idx s.
Proof.
  split.
  - intros H. inversion H; subst. auto.
  - intros [H1 H2]. constructor; assumption.
Qed.

Lemma in_shape_length idx s : in_shape idx s -> length idx = length s.
Proof. apply Forall2_length. Qed.

Lemma in_shape_app idx1 s1 idx2 s2 :
  in_shape idx1 s1 -> in_shape idx2 s2 -> in_shape (idx1 ++ idx2) (s1 ++ s2).
Proof. apply Forall2_app. Qed.

Lemma in_shape_cons_inv idx d s :
  in_shape idx (d :: s) ->
  exists i l, idx = i :: l /\ (i < d)%nat /\ in_shape l s.
Proof. intros H. inversion H; subst. eauto. Qed.

Lemma shape_eqb_refl s : shape_eqb s s = true.
Proof. induction s; simpl; [reflexivity|]. now rewrite Nat.eqb_refl. Qed.

Lemma shape_eqb_eq s t : shape_eqb s t = true <-> s = t.
Proof.
  split.
  - revert t. induction s as [|a s IH]; destruct t as [|b t]; simpl; try discriminate; auto.
    intros H. apply andb_true_iff in H. destruct H as [H1 H2].
    apply Nat.eqb_eq in H1. f_equal; auto.
  - intros ->. apply shape_eqb_refl.
Qed.

Lemma bdim_refl a : bdim a a = Some a.
Proof. unfold bdim. now rewrite Nat.eqb_refl. Qed.

Lemma bdim_1_l b : bdim 1 b = Some b.
Proof.
  unfold bdim. destruct (Nat.eqb_spec 1 b); [now subst|]. reflexivity.
Qed.

Lemma bdim_1_r a : bdim a 1 = Some a.
Proof.
  unfold bdim. destruct (Nat.eqb_spec a 1); [reflexivity|].
  destruct (Nat.eqb_spec a 1); [contradiction|]. reflexivity.
Qed.

Lemma bdim_inv a b d :
  bdim a b = Some d -> (a = d \/ a = 1%nat) /\ (b = d \/ b = 1%nat).
Proof.
  unfold bdim.
  destruct (Nat.eqb_spec a b); [intros [= <-]; subst; auto|].
  destruct (Nat.eqb_spec a 1); [intros [= <-]; auto|].
  destruct (Nat.eqb_spec b 1); [intros [= <-]; auto|discriminate].
Qed.

Lemma bshape_refl s : bshape s s = Some s.
Proof.
  induction s as [|a s IH]; simpl; [reflexivity|].
  now rewrite bdim_refl, IH.
Qed.

Lemma bshape_nil_r s : bshape s [] = Some s.
Proof. destruct s; reflexivity. Qed.

Lemma bidx_id idx s : in_shape idx s -> bidx s idx = idx.
Proof.
  intros H. induction H as [|i d idx s Hi _ IH]; simpl; [reflexivity|].
  rewrite IH. destruct (Nat.eqb_spec d 1); [f_equal; lia | reflexivity].
Qed.

Lemma bidx_in_shape_l sa : forall sb s idx,
  bshape sa sb = Some s -> in_shape idx s -> in_shape (bidx sa idx) sa.
Proof.
  induction sa as [|a sa IH]; intros sb s idx Hb Hi.
  - simpl. constructor.
  - destruct sb as [|b sb].
    + simpl in Hb. injection Hb as <-. now rewrite bidx_id.
    + simpl in Hb. destruct (bdim a b) as [d|] eqn:Hd; [|discriminate].
      destruct (bshape sa sb) as [r|] eqn:Hr; [|discriminate].
      injection Hb as <-.
      apply in_shape_cons_inv in Hi. destruct Hi as (i & l & -> & Hi & Hl).
      simpl. apply in_shape_cons. split; [|eapply IH; eauto].
      apply bdim_inv in Hd.
      destruct (Nat.eqb_spec a 1); lia.
Qed.

Lemma bidx_in_shape_r sa : forall sb s idx,
  bshape sa sb = Some s -> in_shape idx s -> in_shape (bidx sb idx) sb.
Proof.
  induction sa as [|a sa IH]; intros sb s idx Hb Hi.
  - simpl in Hb. injection Hb as <-. now rewrite bidx_id.
  - destruct sb as [|b sb].
    + simpl. destruct idx; constructor.
    + simpl in Hb. destruct (bdim a b) as [d|] eqn:Hd; [|discriminate].
      destruct (bshape sa sb) as [r|] eqn:Hr; [|discriminate].
      injection Hb as <-.
      apply in_shape_cons_inv in Hi. destruct Hi as (i & l & -> & Hi & Hl).
      simpl. apply in_shape_cons. split; [|eapply IH; eauto].
      apply bdim_inv in Hd.
      destruct (Nat.eqb_spec b 1); lia.
Qed.

(** * Facts about the array operations *)

Lemma denotes_self a : denotes a (rshape a) (item a).
Proof. split; auto. Qed.

Lemma denotes_ext a s f g :
  denotes a s f -> (forall idx, in_shape idx s -> f idx = g idx) -> denotes a s g.
Proof.
  intros [Hs Hf] Hfg. split; [assumption|].
  intros idx Hi. rewrite Hf by assumption. auto.
Qed.

Lemma denotes_shape a s f : denotes a s f -> rshape a = s.
Proof. intros [H _]. exact H. Qed.

Lemma denotes_item a s f idx : denotes a s f -> in_shape idx s -> item a idx = f idx.
Proof. intros [_ H]. apply H. Qed.

Lemma np_map2_spec op a b sa sb s f g :
  denotes a sa f -> denotes b sb g -> bshape sa sb = Some s ->
  returns (np_map2 op a b)
    (fun c => denotes c s (fun idx => op (f (bidx sa idx)) (g (bidx sb idx)))).
Proof.
  intros [Ha Hf] [Hb Hg] Hs. unfold np_map2. rewrite Ha, Hb, Hs. simpl.
  split; [reflexivity|]. simpl. intros idx Hi.
  rewrite Hf by (eapply bidx_in_shape_l; eauto).
  rewrite Hg by (eapply bidx_in_shape_r; eauto).
  reflexivity.
Qed.

Lemma np_map2_same op a b s f g :
  denotes a s f -> denotes b s g ->
  returns (np_map2 op a b) (fun c => denotes c s (fun idx => op (f idx) (g idx))).
Proof.
  intros Ha Hb.
  eapply returns_mono; [eapply np_map2_spec; eauto using bshape_refl|].
  intros c Hc. eapply denotes_ext; [exact Hc|].
  intros idx Hi. simpl. now rewrite bidx_id.
Qed.

Lemma np_add_same a b s f g :
  denotes a s f -> denotes b s g ->
  returns (np_add a b) (fun c => denotes c s (fun idx => f idx + g idx)).
Proof. apply np_map2_same. Qed.

Lemma np_subtract_same a b s f g :
  denotes a s f -> denotes b s g ->
  returns (np_subtract a b) (fun c => denotes c s (fun idx => f idx - g idx)).
Proof. apply np_map2_same. Qed.

Lemma np_multiply_same a b s f g :
  denotes a s f -> denotes b s g ->
  returns (np_multiply a b) (fun c => denotes c s (fun idx => f idx * g idx)).
Proof. apply np_map2_same. Qed.

Lemma np_divide_same a b s f g :
  denotes a s f -> denotes b s g ->
  returns (np_divide a b) (fun c => denotes c s (fun idx => f idx / g idx)).
Proof. apply np_map2_same. Qed.

Lemma np_map1_spec h a s f :
  denotes a s f -> denotes (np_map1 h a) s (fun idx => h (f idx)).
Proof.
  intros [Ha Hf]. split; [exact Ha|]. intros idx Hi. simpl. now rewrite Hf.
Qed.

Lemma np_negative_spec a s f :
  denotes a s f -> denotes (np_negative a) s (fun idx => - f idx).
Proof. apply np_map1_spec. Qed.

Lemma np_sqrt_spec a s f :
  denotes a s f -> denotes (np_sqrt a) s (fun idx => sqrt (f idx)).
Proof. apply np_map1_spec. Qed.

Lemma np_square_spec a s f :
  denotes a s f -> denotes (np_square a) s (fun idx => f idx ^ 2).
Proof. apply (np_map1_spec (fun x => x ^ 2)). Qed.

Lemma np_add_scalar_spec a c s f :
  denotes a s f -> denotes (np_add_scalar a c) s (fun idx => f idx + c).
Proof. apply (np_map1_spec (fun x => x + c)). Qed.

Lemma np_scalar_add_spec a c s f :
  denotes a s f -> denotes (np_scalar_add c a) s (fun idx => c + f idx).
Proof. apply (np_map1_spec (fun x => c + x)). Qed.

Lemma np_zeros_like_spec a s f :
  denotes a s f -> denotes (np_zeros_like a) s (fun _ => 0).
Proof. intros [Ha _]. split; auto. Qed.

Lemma np_ones_like_spec a s f :
  denotes a s f -> denotes (np_ones_like a) s (fun _ => 1).
Proof. intros [Ha _]. split; auto. Qed.

Lemma index_last_spec a i d s f :
  denotes a (d :: s) f -> (i < d)%nat ->
  returns (index_last a i) (fun r => denotes r s (fun idx => f (i :: idx))).
Proof.
  intros [Ha Hf] Hi. unfold index_last, np_take. rewrite Ha. simpl.
  destruct (Nat.ltb_spec i d); [|lia]. simpl. split; [reflexivity|].
  simpl. intros idx Hidx. apply Hf. now apply in_shape_cons.
Qed.

Lemma index_last2_spec a i j dj di s f :
  denotes a (dj :: di :: s) f -> (i < di)%nat -> (j < dj)%nat ->
  returns (index_last2 a i j) (fun r => denotes r s (fun idx => f (j :: i :: idx))).
Proof.
  intros [Ha Hf] Hi Hj. unfold index_last2. rewrite Ha.
  destruct (Nat.ltb_spec i di); [|lia]. destruct (Nat.ltb_spec j dj); [|lia].
  simpl. split; [reflexivity|].
  simpl. intros idx Hidx. apply Hf. apply in_shape_cons. split; [assumption|].
  now apply in_shape_cons.
Qed.

Lemma np_stack_0_3 a0 a1 a2 s f0 f1 f2 :
  denotes a0 s f0 -> denotes a1 s f1 -> denotes a2 s f2 ->
  returns (np_stack 0 [a0; a1; a2])
    (fun r => denotes r (3%nat :: s)
       (fun idx => match idx with
                   | 0%nat :: l => f0 l
                   | 1%nat :: l => f1 l
                   | 2%nat :: l => f2 l
                   | _ => 0
                   end)).
Proof.
  intros [H0 F0] [H1 F1] [H2 F2]. unfold np_stack. simpl.
  rewrite H0, H1, H2, shape_eqb_refl. simpl.
  split; [reflexivity|]. simpl. intros idx Hi.
  apply in_shape_cons_inv in Hi. destruct Hi as (k & l & -> & Hk & Hl).
  simpl. destruct k as [|[|[|k]]]; simpl; auto; lia.
Qed.

Lemma np_stack_1_3 a0 a1 a2 d s f0 f1 f2 :
  denotes a0 (d :: s) f0 -> denotes a1 (d :: s) f1 -> denotes a2 (d :: s) f2 ->
  returns (np_stack 1 [a0; a1; a2])
    (fun r => denotes r (d :: 3%nat :: s)
       (fun idx => match idx with
                   | j :: 0%nat :: l => f0 (j :: l)
                   | j :: 1%nat :: l => f1 (j :: l)
                   | j :: 2%nat :: l => f2 (j :: l)
                   | _ => 0
                   end)).
Proof.
  intros [H0 F0] [H1 F1] [H2 F2]. unfold np_stack, np_ndim. simpl.
  rewrite H0, H1, H2, shape_eqb_refl. simpl.
  split; [reflexivity|]. simpl. intros idx Hi.
  apply in_shape_cons_inv in Hi. destruct Hi as (j & l' & -> & Hj & Hl').
  apply in_shape_cons_inv in Hl'. destruct Hl' as (k & l & -> & Hk & Hl).
  assert (Hjl : in_shape (j :: l) (d :: s)) by now apply in_shape_cons.
  simpl. destruct k as [|[|[|k]]]; simpl; auto; lia.
Qed.

Lemma prod_of_same a b s f g :
  returns a (fun x => denotes x s f) -> returns b (fun y => denotes y s g) ->
  returns (prod_of a b) (fun c => denotes c s (fun idx => f idx * g idx)).
Proof.
  intros Ha Hb. unfold prod_of.
  step (exact Ha) as x Hx.
  step (exact Hb) as y Hy.
  now apply np_multiply_same.
Qed.

Lemma sum3_same p0 p1 p2 s f0 f1 f2 :
  returns p0 (fun x => denotes x s f0) ->
  returns p1 (fun x => denotes x s f1) ->
  returns p2 (fun x => denotes x s f2) ->
  returns (sum3 p0 p1 p2) (fun c => denotes c s (fun idx => f0 idx + f1 idx + f2 idx)).
Proof.
  intros H0 H1 H2. unfold sum3.
  step (exact H0) as x Hx.
  step (exact H1) as y Hy.
  step (eapply np_add_same; eassumption) as w Hw.
  step (exact H2) as z Hz.
  finish (eapply np_add_same; eassumption). auto.
Qed.

Lemma lin3_same a0 x a1 y a2 z s f0 g0 f1 g1 f2 g2 :
  returns a0 (fun r => denotes r s f0) -> denotes x s g0 ->
  returns a1 (fun r => denotes r s f1) -> denotes y s g1 ->
  returns a2 (fun r => denotes r s f2) -> denotes z s g2 ->
  returns (lin3 a0 x a1 y a2 z)
    (fun c => denotes c s (fun idx => f0 idx * g0 idx + f1 idx * g1 idx + f2 idx * g2 idx)).
Proof.
  intros. unfold lin3. apply sum3_same; apply prod_of_same; simpl; assumption.
Qed.

Lemma dot3_same a0 b0 a1 b1 a2 b2 s f0 g0 f1 g1 f2 g2 :
  denotes a0 s f0 -> denotes b0 s g0 ->
  denotes a1 s f1 -> denotes b1 s g1 ->
  denotes a2 s f2 -> denotes b2 s g2 ->
  returns (dot3 a0 b0 a1 b1 a2 b2)
    (fun c => denotes c s (fun idx => f0 idx * g0 idx + f1 idx * g1 idx + f2 idx * g2 idx)).
Proof. intros. unfold dot3. apply lin3_same; simpl; assumption. Qed.

(** * Matrices and vectors held in arrays *)

Lemma denotes_mat_entries a s M :
  denotes a (3 :: 3 :: s)%nat (mat_entries M) <->
  rshape a = (3 :: 3 :: s)%nat /\
  forall l i j, in_shape l s -> (i < 3)%nat -> (j < 3)%nat -> item a (j :: i :: l) = M l i j.
Proof.
  split.
  - intros [Ha Hf]. split; [assumption|]. intros l i j Hl Hi Hj.
    rewrite Hf; [reflexivity|]. apply in_shape_cons; split; [assumption|].
    apply in_shape_cons; split; assumption.
  - intros [Ha Hf]. split; [assumption|]. intros idx Hi.
    apply in_shape_cons_inv in Hi. destruct Hi as (j & l' & -> & Hj & Hl').
    apply in_shape_cons_inv in Hl'. destruct Hl' as (i & l & -> & Hi & Hl).
    simpl. auto.
Qed.

Lemma denotes_vec_entries a s V :
  denotes a (3 :: s)%nat (vec_entries V) <->
  rshape a = (3 :: s)%nat /\
  forall l k, in_shape l s -> (k < 3)%nat -> item a (k :: l) = vec_get (V l) k.
Proof.
  split.
  - intros [Ha Hf]. split; [assumption|]. intros l k Hl Hk.
    rewrite Hf; [reflexivity|]. apply in_shape_cons; split; assumption.
  - intros [Ha Hf]. split; [assumption|]. intros idx Hi.
    apply in_shape_cons_inv in Hi. destruct Hi as (k & l & -> & Hk & Hl).
    simpl. auto.
Qed.

Lemma denotes_mat_at a s :
  rshape a = (3 :: 3 :: s)%nat -> denotes a (3 :: 3 :: s)%nat (mat_entries (mat_at a)).
Proof. intros H. apply denotes_mat_entries. split; [assumption|]. reflexivity. Qed.

Lemma denotes_vec_at a s :
  rshape a = (3 :: s)%nat -> denotes a (3 :: s)%nat (vec_entries (vec_at a)).
Proof.
  intros H. apply denotes_vec_entries. split; [assumption|].
  intros l k _ Hk. destruct k as [|[|[|k]]]; try reflexivity; lia.
Qed.

(** Every index of a matrix array, case by case. *)
Ltac mat_cases idx Hi :=
  let j := fresh "j" in let i := fresh "i" in let l := fresh "l" in
  let l' := fresh "l'" in let Hj := fresh "Hj" in let Hl := fresh "Hl" in
  let Hl' := fresh "Hl'" in let Hii := fresh "Hi" in
  apply in_shape_cons_inv in Hi; destruct Hi as (j & l' & -> & Hj & Hl');
  apply in_shape_cons_inv in Hl'; destruct Hl' as (i & l & -> & Hii & Hl);
  destruct i as [|[|[|i]]]; [| | |exfalso; lia];
  (destruct j as [|[|[|j]]]; [| | |exfalso; lia]).

Lemma _multiply_spec a b s A B :
  denotes a (3 :: 3 :: s)%nat (mat_entries A) ->
  denotes b (3 :: 3 :: s)%nat (mat_entries B) ->
  returns (_multiply a b)
    (fun c => denotes c (3 :: 3 :: s)%nat (mat_entries (fun l => mmul (A l) (B l)))).
Proof.
  intros Ha Hb. unfold _multiply.
  step (eapply index_last2_spec; [eassumption|lia|lia]) as a1 Ha1.
  step (eapply index_last2_spec; [eassumption|lia|lia]) as a2 Ha2.
  step (eapply index_last2_spec; [eassumption|lia|lia]) as a3 Ha3.
  step (eapply index_last2_spec; [eassumption|lia|lia]) as a11 Ha11.
  step (eapply index_last2_spec; [eassumption|lia|lia]) as a12 Ha12.
  step (eapply index_last2_spec; [eassumption|lia|lia]) as a13 Ha13.
  step (eapply index_last2_spec; [eassumption|lia|lia]) as a21 Ha21.
  step (eapply index_last2_spec; [eassumption|lia|lia]) as a22 Ha22.
  step (eapply index_last2_spec; [eassumption|lia|lia]) as a23 Ha23.
  step (eapply index_last2_spec; [eassumption|lia|lia]) as b1 Hb1.
  step (eapply index_last2_spec; [eassumption|lia|lia]) as b2 Hb2.
  step (eapply index_last2_spec; [eassumption|lia|lia]) as b3 Hb3.
  step (eapply index_last2_spec; [eassumption|lia|lia]) as b11 Hb11.
  step (eapply index_last2_spec; [eassumption|lia|lia]) as b12 Hb12.
  step (eapply index_last2_spec; [eassumption|lia|lia]) as b13 Hb13.
  step (eapply index_last2_spec; [eassumption|lia|lia]) as b21 Hb21.
  step (eapply index_last2_spec; [eassumption|lia|lia]) as b22 Hb22.
  step (eapply index_last2_spec; [eassumption|lia|lia]) as b23 Hb23.
  step (eapply dot3_same; eassumption) as e00 He00.
  step (eapply dot3_same; eassumption) as e01 He01.
  step (eapply dot3_same; eassumption) as e02 He02.
  step (eapply np_stack_0_3; eassumption) as row0 Hrow0.
  step (eapply dot3_same; eassumption) as e10 He10.
  step (eapply dot3_same; eassumption) as e11 He11.
  step (eapply dot3_same; eassumption) as e12 He12.
  step (eapply np_stack_0_3; eassumption) as row1 Hrow1.
  step (eapply dot3_same; eassumption) as e20 He20.
  step (eapply dot3_same; eassumption) as e21 He21.
  step (eapply dot3_same; eassumption) as e22 He22.
  step (eapply np_stack_0_3; eassumption) as row2 Hrow2.
  finish (eapply np_stack_1_3; eassumption).
  intros c Hc. eapply denotes_ext; [exact Hc|].
  intros idx Hi. mat_cases idx Hi; reflexivity.
Qed.

(** * Broadcasting one operand onto the shape of the other *)

Lemma np_map2_bl op a b sa s f g :
  denotes a sa f -> denotes b s g -> bshape sa s = Some s ->
  returns (np_map2 op a b)
    (fun c => denotes c s (fun idx => op (f (bidx sa idx)) (g idx))).
Proof.
  intros Ha Hb Hs.
  finish (eapply np_map2_spec; eauto).
  intros c Hc. eapply denotes_ext; [exact Hc|].
  intros idx Hi. simpl. now rewrite (bidx_id idx s).
Qed.

Lemma np_map2_br op a b sb s f g :
  denotes a s f -> denotes b sb g -> bshape s sb = Some s ->
  returns (np_map2 op a b)
    (fun c => denotes c s (fun idx => op (f idx) (g (bidx sb idx)))).
Proof.
  intros Ha Hb Hs.
  finish (eapply np_map2_spec; eauto).
  intros c Hc. eapply denotes_ext; [exact Hc|].
  intros idx Hi. simpl. now rewrite (bidx_id idx s).
Qed.

Lemma lin3_bl a0 x a1 y a2 z sa s f0 g0 f1 g1 f2 g2 :
  bshape sa s = Some s ->
  returns a0 (fun r => denotes r sa f0) -> denotes x s g0 ->
  returns a1 (fun r => denotes r sa f1) -> denotes y s g1 ->
  returns a2 (fun r => denotes r sa f2) -> denotes z s g2 ->
  returns (lin3 a0 x a1 y a2 z)
    (fun c => denotes c s
       (fun idx => f0 (bidx sa idx) * g0 idx + f1 (bidx sa idx) * g1 idx
                   + f2 (bidx sa idx) * g2 idx)).
Proof.
  intros Hs H0 Hx H1 Hy H2 Hz. unfold lin3.
  apply (sum3_same _ _ _ s
           (fun idx => f0 (bidx sa idx) * g0 idx)
           (fun idx => f1 (bidx sa idx) * g1 idx)
           (fun idx => f2 (bidx sa idx) * g2 idx)); unfold prod_of.
  - step (exact H0) as r Hr. simpl. now apply np_map2_bl.
  - step (exact H1) as r Hr. simpl. now apply np_map2_bl.
  - step (exact H2) as r Hr. simpl. now apply np_map2_bl.
Qed.

(** * Rotations applied to vectors *)

Lemma apply_rot_to_vec_bl rot x y z sa s fr gx gy gz :
  bshape sa s = Some s ->
  denotes rot (3 :: 3 :: sa)%nat fr ->
  denotes x s gx -> denotes y s gy -> denotes z s gz ->
  returns (apply_rot_to_vec rot (Unstacked x y z) false)
    (fun '(r0, r1, r2) =>
       let row i idx :=
         fr (0 :: i :: bidx sa idx)%nat * gx idx
         + fr (1 :: i :: bidx sa idx)%nat * gy idx
         + fr (2 :: i :: bidx sa idx)%nat * gz idx in
       denotes r0 s (row 0%nat) /\ denotes r1 s (row 1%nat) /\ denotes r2 s (row 2%nat)).
Proof.
  intros Hs Hrot Hx Hy Hz. unfold apply_rot_to_vec. simpl.
  step (eapply lin3_bl;
        [eassumption
        |eapply index_last2_spec; [eassumption|lia|lia] |eassumption
        |eapply index_last2_spec; [eassumption|lia|lia] |eassumption
        |eapply index_last2_spec; [eassumption|lia|lia] |eassumption]) as r0 Hr0.
  step (eapply lin3_bl;
        [eassumption
        |eapply index_last2_spec; [eassumption|lia|lia] |eassumption
        |eapply index_last2_spec; [eassumption|lia|lia] |eassumption
        |eapply index_last2_spec; [eassumption|lia|lia] |eassumption]) as r1 Hr1.
  step (eapply lin3_bl;
        [eassumption
        |eapply index_last2_spec; [eassumption|lia|lia] |eassumption
        |eapply index_last2_spec; [eassumption|lia|lia] |eassumption
        |eapply index_last2_spec; [eassumption|lia|lia] |eassumption]) as r2 Hr2.
  simpl. auto.
Qed.

Lemma apply_inverse_rot_to_vec_bl rot x y z sa s fr gx gy gz :
  bshape sa s = Some s ->
  denotes rot (3 :: 3 :: sa)%nat fr ->
  denotes x s gx -> denotes y s gy -> denotes z s gz ->
  returns (apply_inverse_rot_to_vec rot (Unstacked x y z))
    (fun '(r0, r1, r2) =>
       let col j idx :=
         fr (j :: 0 :: bidx sa idx)%nat * gx idx
         + fr (j :: 1 :: bidx sa idx)%nat * gy idx
         + fr (j :: 2 :: bidx sa idx)%nat * gz idx in
       denotes r0 s (col 0%nat) /\ denotes r1 s (col 1%nat) /\ denotes r2 s (col 2%nat)).
Proof.
  intros Hs Hrot Hx Hy Hz. unfold apply_inverse_rot_to_vec. simpl.
  step (eapply lin3_bl;
        [eassumption
        |eapply index_last2_spec; [eassumption|lia|lia] |eassumption
        |eapply index_last2_spec; [eassumption|lia|lia] |eassumption
        |eapply index_last2_spec; [eassumption|lia|lia] |eassumption]) as r0 Hr0.
  step (eapply lin3_bl;
        [eassumption
        |eapply index_last2_spec; [eassumption|lia|lia] |eassumption
        |eapply index_last2_spec; [eassumption|lia|lia] |eassumption
        |eapply index_last2_spec; [eassumption|lia|lia] |eassumption]) as r1 Hr1.
  step (eapply lin3_bl;
        [eassumption
        |eapply index_last2_spec; [eassumption|lia|lia] |eassumption
        |eapply index_last2_spec; [eassumption|lia|lia] |eassumption
        |eapply index_last2_spec; [eassumption|lia|lia] |eassumption]) as r2 Hr2.
  simpl. auto.
Qed.

Lemma apply_rot_to_vec_stacked rot v s A V :
  denotes rot (3 :: 3 :: s)%nat (mat_entries A) ->
  denotes v (3 :: s)%nat (vec_entries V) ->
  returns (apply_rot_to_vec rot (Stacked v) true)
    (fun '(r0, r1, r2) =>
       denotes r0 s (fun l => vec_get (mvec (A l) (V l)) 0) /\
       denotes r1 s (fun l => vec_get (mvec (A l) (V l)) 1) /\
       denotes r2 s (fun l => vec_get (mvec (A l) (V l)) 2)).
Proof.
  intros Hrot Hv. unfold apply_rot_to_vec, unpack_vec.
  eapply returns_bind with
    (P := fun '(x, y, z) =>
            denotes x s (fun l => vec_get (V l) 0) /\
            denotes y s (fun l => vec_get (V l) 1) /\
            denotes z s (fun l => vec_get (V l) 2)).
  { step (eapply index_last_spec; [eassumption|lia]) as x Hx.
    step (eapply index_last_spec; [eassumption|lia]) as y Hy.
    step (eapply index_last_spec; [eassumption|lia]) as z Hz.
    simpl. auto. }
  intros [[x y] z] (Hx & Hy & Hz).
  step (eapply lin3_same;
        [eapply index_last2_spec; [eassumption|lia|lia] |eassumption
        |eapply index_last2_spec; [eassumption|lia|lia] |eassumption
        |eapply index_last2_spec; [eassumption|lia|lia] |eassumption]) as r0 Hr0.
  step (eapply lin3_same;
        [eapply index_last2_spec; [eassumption|lia|lia] |eassumption
        |eapply index_last2_spec; [eassumption|lia|lia] |eassumption
        |eapply index_last2_spec; [eassumption|lia|lia] |eassumption]) as r1 Hr1.
  step (eapply lin3_same;
        [eapply index_last2_spec; [eassumption|lia|lia] |eassumption
        |eapply index_last2_spec; [eassumption|lia|lia] |eassumption
        |eapply index_last2_spec; [eassumption|lia|lia] |eassumption]) as r2 Hr2.
  simpl. split; [|split];
    (eapply denotes_ext; [eassumption|]);
    intros l Hl; simpl; destruct (V l) as [[vx vy] vz]; reflexivity.
Qed.

(** * Stacking and reshaping *)

Create HintDb np discriminated.
#[export] Hint Resolve np_negative_spec np_sqrt_spec np_square_spec
  np_add_scalar_spec np_scalar_add_spec np_zeros_like_spec np_ones_like_spec : np.

(** The entries of an operand given by ufuncs of known arrays. *)
Ltac den := solve [eauto 8 with np].
Ltac dens := repeat (apply Forall2_cons; [den|]); apply Forall2_nil.

Lemma Forall2_nth {A B : Type} (P : A -> B -> Prop) l1 l2 k d1 d2 :
  Forall2 P l1 l2 -> (k < length l1)%nat -> P (nth k l1 d1) (nth k l2 d2).
Proof.
  intros H. revert k. induction H as [|a b l1 l2 Hab _ IH]; intros k Hk; simpl in *.
  - lia.
  - destruct k; [assumption|]. apply IH. lia.
Qed.

Lemma np_stack_0_spec arrs fs s :
  Forall2 (fun a f => denotes a s f) arrs fs -> arrs <> [] ->
  returns (np_stack 0 arrs)
    (fun r => denotes r (length arrs :: s)
       (fun idx => match idx with
                   | k :: l => nth k (map (fun f => f l) fs) 0
                   | [] => 0
                   end)).
Proof.
  intros H Hne. destruct arrs as [|a rest]; [contradiction|].
  unfold np_stack.
  assert (Hall : forallb (fun b => shape_eqb (rshape b) (rshape a)) rest = true).
  { apply forallb_forall. intros b Hb.
    inversion H as [|? f ? fs' Ha Hrest]; subst.
    destruct Ha as [Ha _]. rewrite Ha.
    apply shape_eqb_eq.
    destruct (In_nth _ _ a Hb) as (k & Hk & <-).
    pose proof (Forall2_nth _ _ _ k a (fun _ => 0) Hrest Hk) as [Hs _]. exact Hs. }
  rewrite Hall. simpl.
  inversion H as [|? f ? fs' Ha Hrest]; subst.
  split; [simpl; now rewrite (denotes_shape _ _ _ Ha)|].
  intros idx Hi. apply in_shape_cons_inv in Hi. destruct Hi as (k & l & -> & Hk & Hl).
  cbn [item nth remove_at].
  change (item (nth k (a :: rest) a) l = nth k (map (fun f0 => f0 l) (f :: fs')) 0).
  pose proof (Forall2_nth _ _ _ k a (fun _ => 0) H Hk) as [_ Hf].
  rewrite Hf by assumption.
  rewrite <- (map_nth (fun f0 => f0 l)). reflexivity.
Qed.

Lemma unflat_flat idx s : in_shape idx s -> unflat_index (flat_index idx s) s = idx.
Proof.
  intros H. induction H as [|i d idx s Hi _ IH]; simpl; [reflexivity|].
  f_equal.
  - symmetry. apply Nat.mod_unique with (q := flat_index idx s); lia.
  - rewrite <- IH at 2. f_equal.
    symmetry. apply Nat.div_unique with (r := i); lia.
Qed.

Lemma np_reshape_9_33 m s f :
  denotes m (9 :: s)%nat f ->
  returns (np_reshape m (3 :: 3 :: s)%nat)
    (fun r => denotes r (3 :: 3 :: s)%nat
       (fun idx => match idx with
                   | j :: i :: l => f ((3 * i + j) :: l)%nat
                   | _ => 0
                   end)).
Proof.
  intros [Hm Hf]. unfold np_reshape. rewrite Hm.
  replace (fold_right Nat.mul 1 (3 :: 3 :: s) =? fold_right Nat.mul 1 (9 :: s))%nat
    with true by (symmetry; apply Nat.eqb_eq; simpl; lia).
  split; [reflexivity|]. intros idx Hi. cbn [item].
  apply in_shape_cons_inv in Hi. destruct Hi as (j & l' & -> & Hj & Hl').
  apply in_shape_cons_inv in Hl'. destruct Hl' as (i & l & -> & Hi & Hl).
  assert (Hin : in_shape ((3 * i + j) :: l)%nat (9 :: s)%nat).
  { apply in_shape_cons. split; [lia|assumption]. }
  rewrite <- (Hf _ Hin). f_equal.
  rewrite <- (unflat_flat _ _ Hin). f_equal.
  cbn [flat_index]. lia.
Qed.

Lemma stack_reshape_33_spec a0 a1 a2 a3 a4 a5 a6 a7 a8 sref s f0 f1 f2 f3 f4 f5 f6 f7 f8 :
  Forall2 (fun a f => denotes a s f) [a0; a1; a2; a3; a4; a5; a6; a7; a8]
    [f0; f1; f2; f3; f4; f5; f6; f7; f8] ->
  rshape sref = s ->
  returns (stack_reshape_33 [a0; a1; a2; a3; a4; a5; a6; a7; a8] sref)
    (fun r => denotes r (3 :: 3 :: s)%nat
       (mat_entries (fun l => rows9 [f0 l; f1 l; f2 l; f3 l; f4 l; f5 l; f6 l; f7 l; f8 l]))).
Proof.
  intros H Hs. unfold stack_reshape_33.
  step (eapply np_stack_0_spec; [exact H|discriminate]) as m Hm.
  rewrite Hs. simpl length in Hm.
  finish (eapply np_reshape_9_33; exact Hm).
  intros r Hr. eapply denotes_ext; [exact Hr|].
  intros idx Hi. mat_cases idx Hi; reflexivity.
Qed.

(** * The batched canonical transform, index by index *)

Lemma assert_true b : b = true -> returns (assert b) (fun _ => True).
Proof. intros ->. exact I. Qed.

Lemma shape_neg_1 a d s : rshape a = d :: s -> returns (shape_neg a 1) (fun x => x = d).
Proof. intros H. unfold shape_neg. rewrite H. reflexivity. Qed.

Lemma shape_neg_2 a d1 d2 s :
  rshape a = d1 :: d2 :: s -> returns (shape_neg a 2) (fun x => x = d2).
Proof. intros H. unfold shape_neg. rewrite H. reflexivity. Qed.

Lemma np_sum_0_spec a d s f :
  denotes a (d :: s) f ->
  returns (np_sum 0 a) (fun r => denotes r s (fun l => Rsum (fun i => f (i :: l)) (seq 0 d))).
Proof.
  intros [Ha Hf]. unfold np_sum. rewrite Ha. simpl.
  split; [reflexivity|]. intros l Hl. cbn [item insert_at].
  assert (Hall : forall k n, (k + n <= d)%nat ->
            Rsum (fun i => item a (i :: l)) (seq k n) = Rsum (fun i => f (i :: l)) (seq k n)).
  { intros k n. revert k. induction n as [|n IH]; intros k Hk; simpl; [reflexivity|].
    rewrite IH by lia. f_equal. apply Hf. apply in_shape_cons. split; [lia|assumption]. }
  apply Hall. lia.
Qed.

Lemma vec_entries_shift n ca l k :
  (k < 3)%nat ->
  vec_entries (vec_at n) (k :: l) + - vec_entries (vec_at ca) (k :: l)
  = vec_get (vadd (vec_at n l) (vneg (vec_at ca l))) k.
Proof. intros Hk. destruct k as [|[|[|k]]]; try reflexivity; lia. Qed.

Lemma make_canonical_transform_spec n_xyz ca_xyz c_xyz s :
  length s = 2%nat ->
  rshape n_xyz = (3 :: s)%nat -> rshape ca_xyz = (3 :: s)%nat -> rshape c_xyz = (3 :: s)%nat ->
  returns (make_canonical_transform n_xyz ca_xyz c_xyz)
    (fun '(translation, rotation) =>
       denotes translation (3 :: s)%nat (vec_entries (fun l => vneg (vec_at ca_xyz l))) /\
       denotes rotation (3 :: 3 :: s)%nat
         (mat_entries (fun l => canonical_rotation (vec_at n_xyz l) (vec_at ca_xyz l)
                                  (vec_at c_xyz l)))).
Proof.
  intros Hlen Hn Hca Hc. unfold make_canonical_transform.
  pose proof (denotes_vec_at _ _ Hn) as Dn.
  pose proof (denotes_vec_at _ _ Hca) as Dca.
  pose proof (denotes_vec_at _ _ Hc) as Dc.
  pose (N := fun l => vadd (vec_at n_xyz l) (vneg (vec_at ca_xyz l))).
  pose (C := fun l => vadd (vec_at c_xyz l) (vneg (vec_at ca_xyz l))).
  step (apply assert_true; unfold np_ndim; rewrite Hn; simpl; rewrite Hlen; reflexivity) as u0 U0.
  step (eapply shape_neg_1; eassumption) as d Hd. subst d.
  step (apply assert_true; reflexivity) as u1 U1.
  step (apply assert_true; rewrite Hn, Hca, Hc, !shape_eqb_refl; reflexivity) as u2 U2.
  cbv zeta.
  step (eapply np_add_same; [exact Dn | den]) as n1 Hn1.
  assert (Dn1 : denotes n1 (3 :: s)%nat (vec_entries N)).
  { eapply denotes_ext; [exact Hn1|]. intros idx Hi.
    apply in_shape_cons_inv in Hi. destruct Hi as (k & l & -> & Hk & Hl).
    now apply vec_entries_shift. }
  clear Hn1.
  step (eapply np_add_same; [exact Dc | den]) as c1 Hc1.
  assert (Dc1 : denotes c1 (3 :: s)%nat (vec_entries C)).
  { eapply denotes_ext; [exact Hc1|]. intros idx Hi.
    apply in_shape_cons_inv in Hi. destruct Hi as (k & l & -> & Hk & Hl).
    now apply vec_entries_shift. }
  clear Hc1.
  step (eapply index_last_spec; [exact Dc1|lia]) as c_x Hcx.
  step (eapply index_last_spec; [exact Dc1|lia]) as c_y Hcy.
  step (eapply index_last_spec; [exact Dc1|lia]) as c_z Hcz.
  cbn [vec_entries] in Hcx, Hcy, Hcz.
  step (eapply np_add_same; den) as s1 Hs1.
  step (eapply np_divide_same; den) as sin_c1 Hsin1.
  step (eapply np_divide_same; den) as cos_c1 Hcos1.
  step (eapply stack_reshape_33_spec; [dens|exact (denotes_shape _ _ _ Hsin1)]) as c1m Hc1m.
  assert (Dc1m : denotes c1m (3 :: 3 :: s)%nat (mat_entries (fun l => c1_rot (C l)))).
  { eapply denotes_ext; [exact Hc1m|]. intros idx Hi.
    mat_cases idx Hi; cbn [mat_entries]; unfold c1_rot;
      destruct (C l) as [[x y] z]; reflexivity. }
  clear Hc1m.
  step (eapply np_sum_0_spec; den) as s2 Hs2.
  assert (Ds2 : denotes s2 s (fun l => sumsq (C l))).
  { eapply denotes_ext; [exact Hs2|]. intros l Hl. cbn [seq Rsum vec_entries].
    unfold sumsq. destruct (C l) as [[x y] z]. cbn [vec_get]. ring. }
  clear Hs2.
  step (eapply np_divide_same; den) as sin_c2 Hsin2.
  step (eapply np_add_same; den) as s3 Hs3.
  step (eapply np_divide_same; den) as cos_c2 Hcos2.
  step (eapply stack_reshape_33_spec; [dens|exact (denotes_shape _ _ _ Hsin2)]) as c2m Hc2m.
  assert (Dc2m : denotes c2m (3 :: 3 :: s)%nat (mat_entries (fun l => c2_rot (C l)))).
  { eapply denotes_ext; [exact Hc2m|]. intros idx Hi.
    mat_cases idx Hi; cbn [mat_entries]; unfold c2_rot;
      destruct (C l) as [[x y] z]; reflexivity. }
  clear Hc2m.
  step (eapply _multiply_spec; eassumption) as crot Hcrot.
  step (eapply apply_rot_to_vec_stacked; eassumption) as nr Hnr.
  destruct nr as [[n0 n1'] n2]. destruct Hnr as (Hn0 & Hn1' & Hn2).
  step (eapply np_stack_0_3; eassumption) as n2v Hn2v.
  pose (N2 := fun l => mvec (mmul (c2_rot (C l)) (c1_rot (C l))) (N l)).
  assert (Dn2 : denotes n2v (3 :: s)%nat (vec_entries N2)).
  { eapply denotes_ext; [exact Hn2v|]. intros idx Hi.
    apply in_shape_cons_inv in Hi. destruct Hi as (k & l & -> & Hk & Hl).
    destruct k as [|[|[|k]]]; try reflexivity; lia. }
  clear Hn2v.
  step (eapply index_last_spec; [exact Dn2|lia]) as n_x Hnx.
  step (eapply index_last_spec; [exact Dn2|lia]) as n_y Hny.
  step (eapply index_last_spec; [exact Dn2|lia]) as n_z Hnz.
  cbn [vec_entries] in Hny, Hnz.
  step (eapply np_add_same; den) as s4 Hs4.
  step (eapply np_divide_same; den) as sin_n Hsinn.
  step (eapply np_divide_same; den) as cos_n Hcosn.
  step (eapply stack_reshape_33_spec; [dens|exact (denotes_shape _ _ _ Hsinn)]) as nm Hnm.
  assert (Dnm : denotes nm (3 :: 3 :: s)%nat (mat_entries (fun l => n_rot (N2 l)))).
  { eapply denotes_ext; [exact Hnm|]. intros idx Hi.
    mat_cases idx Hi; cbn [mat_entries]; unfold n_rot;
      destruct (N2 l) as [[x y] z]; reflexivity. }
  clear Hnm.
  step (eapply _multiply_spec; eassumption) as r Hr.
  simpl. split.
  - eapply denotes_ext; [apply np_negative_spec; exact Dca|].
    intros idx Hi. apply in_shape_cons_inv in Hi. destruct Hi as (k & l & -> & Hk & Hl).
    destruct k as [|[|[|k]]]; try reflexivity; lia.
  - exact Hr.
Qed.

(** * The geometry of one batch element *)

Lemma vec3_eq (x y z x' y' z' : R) :
  x = x' -> y = y' -> z = z' -> (x, y, z) = (x', y', z').
Proof. intros -> -> ->. reflexivity. Qed.

Lemma mvec_mmul A B v : mvec (mmul A B) v = mvec A (mvec B v).
Proof. destruct v as [[x y] z]. unfold mvec, mmul. apply vec3_eq; ring. Qed.

Lemma mvec_zero A v : mvec A (vadd v (vneg v)) = (0, 0, 0).
Proof. destruct v as [[x y] z]. unfold mvec, vadd, vneg. apply vec3_eq; ring. Qed.

Lemma eps20_pos : 0 < eps20.
Proof. unfold eps20. lra. Qed.

Lemma sqrt_eps20 : sqrt eps20 = 1e-10.
Proof.
  unfold eps20. replace 1e-20 with (1e-10 * 1e-10) by lra.
  apply sqrt_square. lra.
Qed.

(** The guarded planar norm [sqrt (a^2 + b^2 + 1e-20)] is positive, bounds
    both coordinates and exceeds the unguarded norm by at most [1e-10]. *)
Lemma guarded_norm a b :
  let r := sqrt (a ^ 2 + b ^ 2) in
  let n := sqrt (a ^ 2 + b ^ 2 + eps20) in
  0 <= r /\ r * r = a ^ 2 + b ^ 2 /\ 0 < n /\ n * n = a ^ 2 + b ^ 2 + eps20 /\
  r <= n /\ n <= r + 1e-10 /\ Rabs a <= n /\ Rabs b <= n.
Proof.
  intros r n.
  assert (Hs : 0 <= a ^ 2 + b ^ 2) by nra.
  pose proof eps20_pos as He.
  assert (Hr : 0 <= r) by apply sqrt_pos.
  assert (Hrr : r * r = a ^ 2 + b ^ 2) by (apply sqrt_sqrt; assumption).
  assert (Hn : 0 < n) by (apply sqrt_lt_R0; lra).
  assert (Hnn : n * n = a ^ 2 + b ^ 2 + eps20) by (apply sqrt_sqrt; lra).
  assert (He2 : eps20 = 1e-10 * 1e-10) by (unfold eps20; lra).
  repeat split; try assumption.
  - nra.
  - nra.
  - apply Rabs_le. split; nra.
  - apply Rabs_le. split; nra.
Qed.

Lemma unit_ratio a n : 0 < n -> Rabs a <= n -> Rabs (a / n) <= 1.
Proof.
  intros Hn Ha. unfold Rdiv. rewrite Rabs_mult, (Rabs_right (/ n)).
  - apply Rmult_le_reg_r with n; [assumption|].
    rewrite Rmult_assoc, Rinv_l by lra. lra.
  - apply Rle_ge. left. now apply Rinv_0_lt_compat.
Qed.

(** [c_rot_matrix] applied to the shifted C it is built from. *)
Lemma c_rot_on (x y z r n1 m n2 : R) :
  r = sqrt (x ^ 2 + y ^ 2) ->
  n1 = sqrt (x ^ 2 + y ^ 2 + eps20) ->
  m = sqrt (sumsq (x, y, z)) ->
  n2 = m + eps20 ->
  mvec (mmul (c2_rot (x, y, z)) (c1_rot (x, y, z))) (x, y, z)
  = ((r * (r * r / n1) + z * z) / n2, 0, z / n2 * (r * (n1 - r) / n1)).
Proof.
  intros Er En1 Em En2.
  destruct (guarded_norm x y) as (Hr & Hrr & Hn & Hnn & _).
  rewrite <- Er in Hr, Hrr. rewrite <- En1 in Hn, Hnn.
  assert (Hm : 0 <= m) by (rewrite Em; apply sqrt_pos).
  assert (Hn2 : 0 < n2) by (pose proof eps20_pos; lra).
  rewrite mvec_mmul. unfold c1_rot, c2_rot, mvec, rows9.
  cbn [nth Nat.mul Nat.add].
  rewrite <- Er, <- En1, <- Em, <- En2. clear Er En1 Em En2.
  apply vec3_eq; field_simplify_eq; try lra.
  - replace (x ^ 2) with (r * r - y ^ 2) by lra. ring.
  - replace (x ^ 2) with (r * r - y ^ 2) by lra. ring.
Qed.

(** The y-coordinate [c_rot_matrix] gives a vector. *)
Lemma c_rot_y (x y z a b c : R) :
  let '(_, Y, _) := mvec (mmul (c2_rot (x, y, z)) (c1_rot (x, y, z))) (a, b, c) in
  Y = (x * b - y * a) / sqrt (x ^ 2 + y ^ 2 + eps20).
Proof.
  destruct (guarded_norm x y) as (_ & _ & Hn & _).
  rewrite mvec_mmul. unfold c1_rot, c2_rot, mvec, rows9.
  cbn [nth Nat.mul Nat.add].
  set (n1 := sqrt (x ^ 2 + y ^ 2 + eps20)) in *.
  field. lra.
Qed.

(** [n_rot_matrix] applied to the N it is built from, and to any vector. *)
Lemma n_rot_on (a b c n3 : R) :
  n3 = sqrt (b ^ 2 + c ^ 2 + eps20) ->
  mvec (n_rot (a, b, c)) (a, b, c) = (a, (b ^ 2 + c ^ 2) / n3, 0).
Proof.
  intros En.
  destruct (guarded_norm b c) as (_ & _ & Hn & _).
  rewrite <- En in Hn.
  unfold n_rot, mvec, rows9. cbn [nth Nat.mul Nat.add].
  rewrite <- En. clear En.
  apply vec3_eq; field; lra.
Qed.

Lemma n_rot_apply (a b c X Y Z n3 : R) :
  n3 = sqrt (b ^ 2 + c ^ 2 + eps20) ->
  mvec (n_rot (a, b, c)) (X, Y, Z)
  = (X, b / n3 * Y + c / n3 * Z, - c / n3 * Y + b / n3 * Z).
Proof.
  intros En.
  destruct (guarded_norm b c) as (_ & _ & Hn & _).
  rewrite <- En in Hn.
  unfold n_rot, mvec, rows9. cbn [nth Nat.mul Nat.add].
  rewrite <- En. clear En.
  apply vec3_eq; field; lra.
Qed.

(** Where the canonical rotation puts the shifted C: on the non-negative
    x-axis up to [1e-10]. *)
Lemma canonical_c_image (m : vec3) (x y z : R) :
  let '(X, Y, Z) :=
    mvec (mmul (n_rot m) (mmul (c2_rot (x, y, z)) (c1_rot (x, y, z)))) (x, y, z) in
  0 <= X /\ Rabs Y <= 1e-10 /\ Rabs Z <= 1e-10 /\
  ((x, y, z) <> (0, 0, 0) -> 0 < X) /\
  (z = 0 \/ (x = 0 /\ y = 0) -> Y = 0 /\ Z = 0).
Proof.
  destruct m as [[a b] c].
  rewrite mvec_mmul.
  rewrite (c_rot_on x y z _ _ _ _ eq_refl eq_refl eq_refl eq_refl).
  rewrite (n_rot_apply a b c _ _ _ _ eq_refl).
  destruct (guarded_norm x y) as (Hr & Hrr & Hn & Hnn & Hrn & Hnr & _).
  destruct (guarded_norm b c) as (_ & _ & Hn3 & _ & _ & _ & Hb & Hc).
  set (r := sqrt (x ^ 2 + y ^ 2)) in *.
  set (n1 := sqrt (x ^ 2 + y ^ 2 + eps20)) in *.
  set (n3 := sqrt (b ^ 2 + c ^ 2 + eps20)) in *.
  assert (Hm : 0 <= sqrt (sumsq (x, y, z))) by apply sqrt_pos.
  assert (Hmm : sqrt (sumsq (x, y, z)) * sqrt (sumsq (x, y, z)) = r * r + z ^ 2).
  { rewrite sqrt_sqrt; unfold sumsq; nra. }
  set (mm := sqrt (sumsq (x, y, z))) in *.
  pose proof eps20_pos as He.
  set (n2 := mm + eps20).
  assert (Hn2 : 0 < n2) by (unfold n2; lra).
  assert (Hz : Rabs z <= n2).
  { apply Rabs_le. unfold n2. split; nra. }
  set (W := r * (n1 - r) / n1).
  assert (HW : 0 <= W <= 1e-10).
  { unfold W. split.
    - apply Rmult_le_pos; [nra|]. left. now apply Rinv_0_lt_compat.
    - apply Rmult_le_reg_r with n1; [assumption|].
      unfold Rdiv. rewrite Rmult_assoc, Rinv_l by lra. nra. }
  set (Z' := z / n2 * W).
  assert (HZ' : Rabs Z' <= 1e-10).
  { unfold Z'. rewrite Rabs_mult.
    pose proof (unit_ratio z n2 Hn2 Hz) as H1.
    rewrite (Rabs_right W) by lra.
    pose proof (Rabs_pos (z / n2)). nra. }
  pose proof (unit_ratio b n3 Hn3 Hb) as Hbn.
  pose proof (unit_ratio c n3 Hn3 Hc) as Hcn.
  assert (HX : 0 <= r * (r * r / n1) + z * z).
  { apply Rplus_le_le_0_compat; [|nra].
    apply Rmult_le_pos; [assumption|].
    apply Rmult_le_pos; [nra|]. left. now apply Rinv_0_lt_compat. }
  split; [|split; [|split; [|split]]].
  - apply Rmult_le_pos; [assumption|]. left. now apply Rinv_0_lt_compat.
  - replace (b / n3 * 0 + c / n3 * Z') with (c / n3 * Z') by ring.
    rewrite Rabs_mult. pose proof (Rabs_pos (c / n3)). pose proof (Rabs_pos Z'). nra.
  - replace (- c / n3 * 0 + b / n3 * Z') with (b / n3 * Z') by ring.
    rewrite Rabs_mult. pose proof (Rabs_pos (b / n3)). pose proof (Rabs_pos Z'). nra.
  - intros Hne.
    apply Rmult_lt_0_compat; [|now apply Rinv_0_lt_compat].
    destruct (Req_dec z 0) as [Hz0|Hz0].
    + assert (Hrpos : 0 < r).
      { destruct (Rle_lt_or_eq_dec _ _ Hr) as [|Hr0]; [assumption|].
        exfalso. apply Hne.
        assert (x = 0) by nra. assert (y = 0) by nra. subst. reflexivity. }
      apply Rplus_lt_le_0_compat; [|nra].
      apply Rmult_lt_0_compat; [assumption|].
      apply Rmult_lt_0_compat; [nra|]. now apply Rinv_0_lt_compat.
    + apply Rplus_le_lt_0_compat; [|nra].
      apply Rmult_le_pos; [assumption|].
      apply Rmult_le_pos; [nra|]. left. now apply Rinv_0_lt_compat.
  - intros H0. assert (HZ0 : Z' = 0).
    { unfold Z', W. destruct H0 as [->|[-> ->]].
      - unfold Rdiv. ring.
      - assert (r = 0) by nra. rewrite H. unfold Rdiv. ring. }
    rewrite HZ0. split; ring.
Qed.

(** Where the canonical rotation puts the shifted N: in the xy-plane, on
    the side of non-negative y. *)
Lemma canonical_n_image (x y z a b c : R) :
  let '(_, Y, Z) :=
    mvec (mmul (n_rot (mvec (mmul (c2_rot (x, y, z)) (c1_rot (x, y, z))) (a, b, c)))
               (mmul (c2_rot (x, y, z)) (c1_rot (x, y, z)))) (a, b, c) in
  Z = 0 /\ 0 <= Y /\ (x * b - y * a <> 0 -> 0 < Y).
Proof.
  rewrite mvec_mmul.
  pose proof (c_rot_y x y z a b c) as Hy.
  destruct (mvec (mmul (c2_rot (x, y, z)) (c1_rot (x, y, z))) (a, b, c)) as [[p q] t].
  rewrite (n_rot_on p q t _ eq_refl).
  destruct (guarded_norm q t) as (_ & _ & Hn & _).
  destruct (guarded_norm x y) as (_ & _ & Hn1 & _).
  set (n3 := sqrt (q ^ 2 + t ^ 2 + eps20)) in *.
  set (n1 := sqrt (x ^ 2 + y ^ 2 + eps20)) in *.
  split; [reflexivity|]. split.
  - apply Rmult_le_pos; [nra|]. left. now apply Rinv_0_lt_compat.
  - intros Hne. apply Rmult_lt_0_compat; [|now apply Rinv_0_lt_compat].
    assert (Hq : q <> 0).
    { rewrite Hy. intros H0. apply Hne.
      apply Rmult_eq_compat_r with (r := n1) in H0.
      unfold Rdiv in H0. rewrite Rmult_assoc, Rinv_l in H0 by lra. lra. }
    nra.
Qed.

(** The guarded norm of three coordinates. *)
Lemma guarded_norm3 x y z :
  let n := sqrt (eps20 + x ^ 2 + y ^ 2 + z ^ 2) in
  0 < n /\ n * n = eps20 + x ^ 2 + y ^ 2 + z ^ 2 /\ Rabs z <= n.
Proof.
  intros n. pose proof eps20_pos as He.
  assert (Hs : 0 < eps20 + x ^ 2 + y ^ 2 + z ^ 2) by nra.
  assert (Hn : 0 < n) by (apply sqrt_lt_R0; exact Hs).
  assert (Hnn : n * n = eps20 + x ^ 2 + y ^ 2 + z ^ 2) by (apply sqrt_sqrt; lra).
  repeat split; try assumption.
  apply Rabs_le. split; nra.
Qed.


(** * The canonical transform *)

Lemma vec_at_denotes a s V l :
  denotes a (3 :: s)%nat (vec_entries V) -> in_shape l s -> vec_at a l = V l.
Proof.
  intros Ha Hl. apply denotes_vec_entries in Ha. destruct Ha as [_ Ha].
  unfold vec_at. rewrite !Ha by (assumption || lia).
  destruct (V l) as [[x y] z]. reflexivity.
Qed.

Lemma mvec_mat_at a s M l v :
  denotes a (3 :: 3 :: s)%nat (mat_entries M) -> in_shape l s ->
  mvec (mat_at a l) v = mvec (M l) v.
Proof.
  intros Ha Hl. apply denotes_mat_entries in Ha. destruct Ha as [_ Ha].
  destruct v as [[x y] z]. unfold mvec, mat_at.
  rewrite !Ha by (assumption || lia). reflexivity.
Qed.

Lemma rshape_array_1_1_3 v : rshape (array_1_1_3 v) = [3; 1; 1]%nat.
Proof. reflexivity. Qed.

Lemma vec_at_array_1_1_3 v l : vec_at (array_1_1_3 v) l = v.
Proof. destruct v as [[x y] z]. reflexivity. Qed.

Lemma in_shape_1_1 : in_shape [0; 0]%nat [1; 1]%nat.
Proof. repeat constructor. Qed.

(** What the returned pair does at every index. *)
Lemma make_canonical_transform_at n_xyz ca_xyz c_xyz s :
  length s = 2%nat ->
  rshape n_xyz = (3 :: s)%nat -> rshape ca_xyz = (3 :: s)%nat -> rshape c_xyz = (3 :: s)%nat ->
  returns (make_canonical_transform n_xyz ca_xyz c_xyz)
    (fun '(translation, rotation) =>
       rshape translation = (3 :: s)%nat /\ rshape rotation = (3 :: 3 :: s)%nat /\
       forall l, in_shape l s ->
         vec_at translation l = vneg (vec_at ca_xyz l) /\
         forall p,
           shift_rotate translation rotation p l
           = mvec (canonical_rotation (vec_at n_xyz l) (vec_at ca_xyz l) (vec_at c_xyz l))
                  (shifted p ca_xyz l)).
Proof.
  intros Hlen Hn Hca Hc.
  eapply returns_mono; [apply (make_canonical_transform_spec _ _ _ s); assumption|].
  intros [t r] [Ht Hr]. split; [exact (denotes_shape _ _ _ Ht)|].
  split; [exact (denotes_shape _ _ _ Hr)|].
  intros l Hl.
  pose proof (vec_at_denotes _ _ _ _ Ht Hl) as Et. cbv beta in Et. split; [exact Et|].
  intros p. unfold shift_rotate, shifted. rewrite Et.
  exact (mvec_mat_at r s _ l _ Hr Hl).
Qed.

(** C1, as it holds: for every batched triplet, shifting by the returned
    translation and then rotating by the returned rotation puts CA at the
    origin; puts N in the xy-plane with a y-coordinate that is never
    negative, and positive when the shifted C and N are not aligned in
    their xy-projections; and puts C at a non-negative x with y and z
    within 1e-10 of zero: at a positive x unless C coincides with CA, and
    exactly on the axis when the shifted C has z = 0 or x = y = 0.  The
    reference triplet N = (-0.527, 1.359, 0), CA = (0, 0, 0),
    C = (1.525, 0, 0) gets the translation (0, 0, 0), C on the positive
    x-axis and N in the xy-plane at a positive y. *)
Theorem make_canonical_transform_places :
  (forall n_xyz ca_xyz c_xyz s,
     length s = 2%nat ->
     rshape n_xyz = (3 :: s)%nat -> rshape ca_xyz = (3 :: s)%nat ->
     rshape c_xyz = (3 :: s)%nat ->
     returns (make_canonical_transform n_xyz ca_xyz c_xyz)
       (fun '(translation, rotation) =>
          forall l, in_shape l s ->
            shift_rotate translation rotation ca_xyz l = (0, 0, 0) /\
            (let '(_, y, z) := shift_rotate translation rotation n_xyz l in
             let '(c_x, c_y, _) := shifted c_xyz ca_xyz l in
             let '(n_x, n_y, _) := shifted n_xyz ca_xyz l in
             z = 0 /\ 0 <= y /\ (c_x * n_y - c_y * n_x <> 0 -> 0 < y)) /\
            (let '(x, y, z) := shift_rotate translation rotation c_xyz l in
             let '(c_x, c_y, c_z) := shifted c_xyz ca_xyz l in
             0 <= x /\ Rabs y <= 1e-10 /\ Rabs z <= 1e-10 /\
             ((c_x, c_y, c_z) <> (0, 0, 0) -> 0 < x) /\
             (c_z = 0 \/ (c_x = 0 /\ c_y = 0) -> y = 0 /\ z = 0)))) /\
  returns (make_canonical_transform (array_1_1_3 N_ref) (array_1_1_3 CA_ref)
             (array_1_1_3 C_ref))
    (fun '(translation, rotation) =>
       vec_at translation [0; 0]%nat = (0, 0, 0) /\
       on_positive_x_axis (shift_rotate translation rotation (array_1_1_3 C_ref) [0; 0]%nat) /\
       (let '(_, y, z) := shift_rotate translation rotation (array_1_1_3 N_ref) [0; 0]%nat in
        z = 0 /\ 0 < y)).
Proof.
  assert (General : forall n_xyz ca_xyz c_xyz s,
     length s = 2%nat ->
     rshape n_xyz = (3 :: s)%nat -> rshape ca_xyz = (3 :: s)%nat ->
     rshape c_xyz = (3 :: s)%nat ->
     returns (make_canonical_transform n_xyz ca_xyz c_xyz)
       (fun '(translation, rotation) =>
          forall l, in_shape l s ->
            shift_rotate translation rotation ca_xyz l = (0, 0, 0) /\
            (let '(_, y, z) := shift_rotate translation rotation n_xyz l in
             let '(c_x, c_y, _) := shifted c_xyz ca_xyz l in
             let '(n_x, n_y, _) := shifted n_xyz ca_xyz l in
             z = 0 /\ 0 <= y /\ (c_x * n_y - c_y * n_x <> 0 -> 0 < y)) /\
            (let '(x, y, z) := shift_rotate translation rotation c_xyz l in
             let '(c_x, c_y, c_z) := shifted c_xyz ca_xyz l in
             0 <= x /\ Rabs y <= 1e-10 /\ Rabs z <= 1e-10 /\
             ((c_x, c_y, c_z) <> (0, 0, 0) -> 0 < x) /\
             (c_z = 0 \/ (c_x = 0 /\ c_y = 0) -> y = 0 /\ z = 0)))).
  { intros n_xyz ca_xyz c_xyz s Hlen Hn Hca Hc.
    eapply returns_mono; [apply (make_canonical_transform_at _ _ _ s); assumption|].
    intros [t r] (_ & _ & H) l Hl. destruct (H l Hl) as [Et Hp]. clear H.
    rewrite !Hp. unfold canonical_rotation. cbv zeta.
    fold (shifted n_xyz ca_xyz l). fold (shifted c_xyz ca_xyz l).
    split; [|split].
    - unfold shifted. apply mvec_zero.
    - destruct (shifted c_xyz ca_xyz l) as [[x y] z].
      destruct (shifted n_xyz ca_xyz l) as [[a b] c].
      apply canonical_n_image.
    - destruct (shifted c_xyz ca_xyz l) as [[x y] z].
      apply canonical_c_image. }
  split; [exact General|].
  eapply returns_mono.
  { apply (make_canonical_transform_at _ _ _ [1; 1]%nat); reflexivity. }
  intros [t r] (_ & _ & H). destruct (H _ in_shape_1_1) as [Et Hp]. clear H.
  rewrite !Hp. rewrite Et. unfold shifted. rewrite !vec_at_array_1_1_3.
  unfold canonical_rotation. cbv zeta.
  unfold N_ref, CA_ref, C_ref. cbn [vadd vneg].
  split; [apply vec3_eq; lra|]. split.
  - pose proof (canonical_c_image
                  (mvec (mmul (c2_rot (1.525 + - 0, 0 + - 0, 0 + - 0))
                              (c1_rot (1.525 + - 0, 0 + - 0, 0 + - 0)))
                        (-0.527 + - 0, 1.359 + - 0, 0 + - 0))
                  (1.525 + - 0) (0 + - 0) (0 + - 0)) as Hc.
    destruct (mvec _ (1.525 + - 0, 0 + - 0, 0 + - 0)) as [[X Y] Z].
    destruct Hc as (_ & _ & _ & Hpos & Hex).
    unfold on_positive_x_axis. split.
    + apply Hpos. intros [= H _ _]. lra.
    + apply Hex. left. lra.
  - pose proof (canonical_n_image (1.525 + - 0) (0 + - 0) (0 + - 0)
                  (-0.527 + - 0) (1.359 + - 0) (0 + - 0)) as Hn.
    destruct (mvec _ (-0.527 + - 0, 1.359 + - 0, 0 + - 0)) as [[X Y] Z].
    destruct Hn as (Hz & _ & Hy). split; [exact Hz|].
    apply Hy. lra.
Qed.

(** The general statement applied to the reference triplet. *)
Lemma make_canonical_transform_places_witness :
  returns (make_canonical_transform (array_1_1_3 N_ref) (array_1_1_3 CA_ref)
             (array_1_1_3 C_ref))
    (fun '(translation, rotation) =>
       shift_rotate translation rotation (array_1_1_3 CA_ref) [0; 0]%nat = (0, 0, 0)).
Proof.
  eapply returns_mono.
  - apply (proj1 make_canonical_transform_places
             (array_1_1_3 N_ref) (array_1_1_3 CA_ref) (array_1_1_3 C_ref) [1; 1]%nat);
      reflexivity.
  - intros [t r] H. exact (proj1 (H _ in_shape_1_1)).
Defined.

(** C1 as stated fails where C coincides with CA: the rotated C is the
    origin, which is not on the positive x-axis. *)
Lemma make_canonical_transform_degenerate :
  ~ places_canonically (array_1_1_3 N_deg) (array_1_1_3 CA_deg) (array_1_1_3 C_deg).
Proof.
  unfold places_canonically. intros H.
  pose proof (make_canonical_transform_at (array_1_1_3 N_deg) (array_1_1_3 CA_deg)
                (array_1_1_3 C_deg) [1; 1]%nat eq_refl eq_refl eq_refl eq_refl) as G.
  destruct (make_canonical_transform _ _ _) as [[t r]|e]; [|exact H].
  unfold returns in H, G. destruct G as (_ & _ & G).
  destruct (H _ in_shape_1_1) as (_ & Hc & _).
  destruct (G _ in_shape_1_1) as [_ Hp].
  rewrite Hp in Hc. unfold shifted in Hc. rewrite !vec_at_array_1_1_3 in Hc.
  unfold C_deg, CA_deg in Hc. rewrite mvec_zero in Hc.
  unfold on_positive_x_axis in Hc. lra.
Qed.

(** * Construction of frames *)

Lemma bind_Ok_inv {A B : Type} (m : result A) (k : A -> result B) (b : B) :
  (x <- m ;; k x) = Ok b -> exists a, m = Ok a /\ k a = Ok b.
Proof. destruct m as [a|e]; simpl; [eauto|discriminate]. Qed.

(** The constructor never returns when it is given no rotation: the
    rotation is then asked of [quat_to_rot], which raises. *)
Lemma quat_to_rot_never_returns normalized_quat : raises (quat_to_rot normalized_quat).
Proof.
  destruct normalized_quat as [q|]; simpl; [|exact I].
  apply raises_bind_r. intros rt. exact I.
Qed.

Lemma QuatAffine_init_without_rotation quaternion translation normalize :
  raises (QuatAffine_init quaternion translation None normalize).
Proof.
  unfold QuatAffine_init.
  apply raises_bind_r; intros ?.
  apply raises_bind_r. intros q.
  apply raises_bind_l. apply quat_to_rot_never_returns.
Qed.

Lemma normalize_returns q s :
  rshape q = (4 :: s)%nat ->
  returns (q_length <- np_linalg_norm_last q ;;
           q' <- np_divide q (newaxis_last q_length) ;;
           Ok (Some q'))
    (fun r => exists q', r = Some q' /\ rshape q' = (4 :: s)%nat /\
       forall l, in_shape l s ->
         quat_at q' l
         = (let '(w, x, y, z) := quat_at q l in
            let n := sqrt (w * w + x * x + y * y + z * z) in
            (w / n, x / n, y / n, z / n))).
Proof.
  intros Hq. unfold np_linalg_norm_last.
  pose proof (denotes_self q) as Dq. rewrite Hq in Dq.
  eapply returns_bind with
    (P := fun ql => denotes ql s
            (fun l => let '(w, x, y, z) := quat_at q l in
                      sqrt (w * w + x * x + y * y + z * z))).
  { step (eapply np_sum_0_spec; apply (np_map1_spec (fun x => x * x)); exact Dq) as sm Hsm.
    simpl. eapply denotes_ext; [apply np_sqrt_spec; exact Hsm|].
    intros l Hl. cbn [seq Rsum quat_at]. f_equal. ring. }
  intros ql Hql.
  assert (Dn : denotes (newaxis_last ql) (1 :: s)%nat (fun idx => item ql (tl idx))).
  { split; [simpl; now rewrite (denotes_shape _ _ _ Hql)|]. reflexivity. }
  step (eapply (np_map2_br Rdiv); [exact Dq|exact Dn|]; simpl;
        rewrite bshape_refl; reflexivity) as q' Hq'.
  simpl. exists q'. split; [reflexivity|]. split; [exact (denotes_shape _ _ _ Hq')|].
  intros l Hl. destruct Hq' as [_ Hi]. destruct Hql as [_ Hn].
  unfold quat_at.
  rewrite !Hi by (apply in_shape_cons; split; [lia|assumption]).
  cbn [bidx tl Nat.eqb]. rewrite (bidx_id l s Hl), (Hn l Hl). reflexivity.
Qed.

Lemma QuatAffine_init_raises quat trans rot normalize :
  trailing_violation quat trans rot ->
  raises (QuatAffine_init quat trans rot normalize).
Proof.
  revert quat trans rot normalize.
  intros q t r nz [(q' & -> & Hq)|[Ht|(r' & -> & Hr)]]; unfold QuatAffine_init.
    + apply raises_bind_l. unfold last_dim in Hq. unfold shape_neg.
      destruct (rshape q') as [|d s]; simpl; [exact I|].
      destruct (Nat.eqb_spec d 4); [subst; now elim Hq|exact I].
    + apply raises_bind_r; intros ?. apply raises_bind_r; intros ?.
      apply raises_bind_r; intros ?. apply raises_bind_r; intros ?.
      apply raises_bind_r; intros ?. apply raises_bind_r; intros ?.
      unfold last_dim in Ht. unfold shape_neg.
      destruct (rshape t) as [|d s]; simpl; [exact I|].
      destruct (Nat.eqb_spec d 3); [subst; now elim Ht|exact I].
    + apply raises_bind_r; intros ?. apply raises_bind_r; intros ?.
      cbn [bind]. unfold last_two_dims in Hr. unfold shape_neg.
      destruct (rshape r') as [|dj [|di s]]; simpl; [exact I| |].
      * destruct (dj =? 3)%nat; exact I.
      * destruct (Nat.eqb_spec dj 3); simpl; [|exact I].
        destruct (Nat.eqb_spec di 3); simpl; [subst; now elim Hr|exact I].
Qed.

Lemma QuatAffine_init_quaternion_assert q trans rot normalize d :
  last_dim q = Some d -> d <> 4%nat ->
  QuatAffine_init (Some q) trans rot normalize = Raise AssertionError.
Proof.
  revert q trans rot normalize d.
  intros q t r nz d Hd Hne. unfold QuatAffine_init, shape_neg.
    unfold last_dim in Hd. destruct (rshape q) as [|d' s]; [discriminate|].
    injection Hd as ->. simpl.
    destruct (Nat.eqb_spec d 4); [contradiction|reflexivity].
Qed.

Lemma QuatAffine_init_returns quat trans rot normalize :
  ~ trailing_violation quat trans (Some rot) ->
  returns (QuatAffine_init quat trans (Some rot) normalize)
    (fun self =>
       rotation self = rot /\
       translation self = trans /\
       (quaternion self = None <-> quat = None) /\
       (normalize = false -> quaternion self = quat)).
Proof.
  revert quat trans rot normalize.
  intros q t r nz Hok. unfold QuatAffine_init.
    assert (Hq : forall q', q = Some q' -> exists s, rshape q' = (4 :: s)%nat).
    { intros q' ->. destruct (rshape q') as [|d s] eqn:E.
      - exfalso. apply Hok. left. exists q'. split; [reflexivity|].
        unfold last_dim. rewrite E. discriminate.
      - destruct (Nat.eq_dec d 4) as [->|Hd]; [eauto|].
        exfalso. apply Hok. left. exists q'. split; [reflexivity|].
        unfold last_dim. rewrite E. simpl. congruence. }
    assert (Ht : exists s, rshape t = (3 :: s)%nat).
    { destruct (rshape t) as [|d s] eqn:E.
      - exfalso. apply Hok. right. left. unfold last_dim. rewrite E. discriminate.
      - destruct (Nat.eq_dec d 3) as [->|Hd]; [eauto|].
        exfalso. apply Hok. right. left. unfold last_dim. rewrite E. simpl. congruence. }
    assert (Hr : exists s, rshape r = (3 :: 3 :: s)%nat).
    { destruct (last_two_dims r) as [[di dj]|] eqn:E.
      - unfold last_two_dims in E. destruct (rshape r) as [|dj' [|di' s]] eqn:E'; try discriminate.
        injection E as -> ->.
        destruct (Nat.eq_dec di 3) as [->|Hd];
          [destruct (Nat.eq_dec dj 3) as [->|Hd]; [eauto|]|];
          exfalso; apply Hok; right; right; exists r; (split; [reflexivity|]);
          unfold last_two_dims; rewrite E'; congruence.
      - exfalso. apply Hok. right. right. exists r. split; [reflexivity|].
        rewrite E. discriminate. }
    destruct Ht as [st Ht]. destruct Hr as [sr Hr].
    eapply returns_bind with (P := fun _ => True).
    { destruct q as [q'|]; [|exact I]. destruct (Hq q' eq_refl) as [s Hs].
      step (eapply shape_neg_1; exact Hs) as d Hd. subst d. exact I. }
    intros _ _.
    eapply returns_bind with
      (P := fun q1 => (q1 = None <-> q = None) /\ (nz = false -> q1 = q)).
    { destruct q as [q'|]; [|simpl; tauto]. destruct (Hq q' eq_refl) as [s Hs].
      destruct nz.
      - eapply returns_mono; [apply (normalize_returns q' s Hs)|].
        intros r1 (q1 & -> & _). split; [split; discriminate|discriminate].
      - simpl. tauto. }
    intros q1 Hq1. cbn [bind].
    step (eapply shape_neg_1; exact Hr) as d1 Hd1. subst d1. cbn [Nat.eqb].
    eapply returns_bind with (P := fun b => b = true).
    { step (eapply shape_neg_2; exact Hr) as d2 Hd2. subst d2. reflexivity. }
    intros b ->.
    step (apply assert_true; reflexivity) as u0 U0.
    step (eapply shape_neg_1; exact Ht) as d Hd. subst d.
    step (apply assert_true; reflexivity) as u1 U1.
    simpl. tauto.
Qed.

Lemma quat_unit_norm q : q <> (0, 0, 0, 0) -> quat_norm (quat_unit q) = 1.
Proof.
  destruct q as [[[w x] y] z]. intros Hne.
  assert (Hpos : 0 < w * w + x * x + y * y + z * z).
  { destruct (Req_dec w 0) as [Hw|Hw]; [|nra].
    destruct (Req_dec x 0) as [Hx|Hx]; [|nra].
    destruct (Req_dec y 0) as [Hy|Hy]; [|nra].
    destruct (Req_dec z 0) as [Hz|Hz]; [|nra].
    exfalso. apply Hne. subst. reflexivity. }
  unfold quat_unit, quat_norm.
  set (n := sqrt (w * w + x * x + y * y + z * z)).
  assert (Hn : 0 < n) by (apply sqrt_lt_R0; exact Hpos).
  assert (Hnn : n * n = w * w + x * x + y * y + z * z) by (apply sqrt_sqrt; lra).
  replace (w / n * (w / n) + x / n * (x / n) + y / n * (y / n) + z / n * (z / n))
    with 1.
  - apply sqrt_1.
  - field_simplify_eq; [|lra]. lra.
Qed.

(** What the constructor stores when asked to normalise. *)
Lemma QuatAffine_init_normalized q trans rot s st sr :
  rshape q = (4 :: s)%nat -> rshape trans = (3 :: st)%nat ->
  rshape rot = (3 :: 3 :: sr)%nat ->
  returns (QuatAffine_init (Some q) trans (Some rot) true)
    (fun self =>
       rotation self = rot /\ translation self = trans /\
       exists q', quaternion self = Some q' /\ rshape q' = (4 :: s)%nat /\
         forall l, in_shape l s -> quat_at q' l = quat_unit (quat_at q l)).
Proof.
  intros Hq Ht Hr. unfold QuatAffine_init.
  step (eapply returns_bind with (P := fun d => d = 4%nat);
        [eapply shape_neg_1; exact Hq
        |intros d ->; apply assert_true; reflexivity]) as u0 U0.
  step (apply (normalize_returns q s Hq)) as q1 Hq1.
  destruct Hq1 as (q' & -> & Hq' & Hn). cbn [bind].
  step (eapply shape_neg_1; exact Hr) as d1 Hd1. subst d1. cbn [Nat.eqb].
  eapply returns_bind with (P := fun b => b = true).
  { step (eapply shape_neg_2; exact Hr) as d2 Hd2. subst d2. reflexivity. }
  intros b ->.
  step (apply assert_true; reflexivity) as u1 U1.
  step (eapply shape_neg_1; exact Ht) as d Hd. subst d.
  step (apply assert_true; reflexivity) as u2 U2.
  simpl. split; [reflexivity|]. split; [reflexivity|].
  exists q'. split; [reflexivity|]. split; [exact Hq'|].
  intros l Hl. rewrite (Hn l Hl). reflexivity.
Qed.

Lemma returns_both {A : Type} (m : result A) (P Q : A -> Prop) :
  returns m P -> returns m Q -> returns m (fun a => P a /\ Q a).
Proof. destruct m as [a|e]; simpl; intros HP HQ; [split; assumption | contradiction]. Qed.

(** The shapes of the arguments that pass the three trailing checks. *)
Lemma accepted_shapes quat trans rot :
  ~ trailing_violation quat trans (Some rot) ->
  (forall q, quat = Some q -> exists s, rshape q = (4 :: s)%nat) /\
  (exists st, rshape trans = (3 :: st)%nat) /\
  (exists sr, rshape rot = (3 :: 3 :: sr)%nat).
Proof.
  intros Hok. split; [|split].
  - intros q ->. destruct (rshape q) as [|d s] eqn:E.
    + exfalso. apply Hok. left. exists q. split; [reflexivity|].
      unfold last_dim. rewrite E. discriminate.
    + destruct (Nat.eq_dec d 4) as [->|Hd]; [eauto|].
      exfalso. apply Hok. left. exists q. split; [reflexivity|].
      unfold last_dim. rewrite E. simpl. congruence.
  - destruct (rshape trans) as [|d s] eqn:E.
    + exfalso. apply Hok. right. left. unfold last_dim. rewrite E. discriminate.
    + destruct (Nat.eq_dec d 3) as [->|Hd]; [eauto|].
      exfalso. apply Hok. right. left. unfold last_dim. rewrite E. simpl. congruence.
  - destruct (rshape rot) as [|dj [|di s]] eqn:E.
    + exfalso. apply Hok. right. right. exists rot. split; [reflexivity|].
      unfold last_two_dims. rewrite E. discriminate.
    + exfalso. apply Hok. right. right. exists rot. split; [reflexivity|].
      unfold last_two_dims. rewrite E. discriminate.
    + destruct (Nat.eq_dec di 3) as [->|Hd];
        [destruct (Nat.eq_dec dj 3) as [->|Hd]; [eauto|]|];
        exfalso; apply Hok; right; right; exists rot; (split; [reflexivity|]);
        unfold last_two_dims; rewrite E; congruence.
Qed.

(** What construction stores: the rotation and the translation as given,
    and the quaternion as given or, when asked to normalise, divided by its
    norm. *)
Lemma QuatAffine_init_stores quat trans rot normalize :
  ~ trailing_violation quat trans (Some rot) ->
  returns (QuatAffine_init quat trans (Some rot) normalize)
    (fun self =>
       rotation self = rot /\
       translation self = trans /\
       (quaternion self = None <-> quat = None) /\
       (normalize = false -> quaternion self = quat) /\
       (normalize = true -> forall q, quat = Some q ->
          exists q', quaternion self = Some q' /\ rshape q' = rshape q /\
            forall l, in_shape l (batch_dims q) -> quat_at q l <> (0, 0, 0, 0) ->
              quat_at q' l = quat_unit (quat_at q l) /\ quat_norm (quat_at q' l) = 1)).
Proof.
  intros Hok.
  eapply returns_mono.
  - apply returns_both with
      (Q := fun self =>
              normalize = true -> forall q, quat = Some q ->
                exists q', quaternion self = Some q' /\ rshape q' = rshape q /\
                  forall l, in_shape l (batch_dims q) -> quat_at q l <> (0, 0, 0, 0) ->
                    quat_at q' l = quat_unit (quat_at q l) /\
                    quat_norm (quat_at q' l) = 1);
      [apply (QuatAffine_init_returns quat trans rot normalize Hok)|].
    destruct normalize.
    + destruct quat as [q|].
      * destruct (accepted_shapes _ _ _ Hok) as (Hq & [st Ht] & [sr Hr]).
        destruct (Hq q eq_refl) as [s Hs].
        eapply returns_mono; [apply (QuatAffine_init_normalized q trans rot s st sr Hs Ht Hr)|].
        intros self (_ & _ & q' & Eq' & Hs' & Hn) _ q0 [= <-].
        exists q'. split; [exact Eq'|]. split; [now rewrite Hs', Hs|].
        unfold batch_dims. rewrite Hs. cbn [tl]. intros l Hl Hne.
        rewrite (Hn l Hl). split; [reflexivity|]. now apply quat_unit_norm.
      * eapply returns_mono;
          [apply (QuatAffine_init_returns None trans rot true Hok)|].
        intros self _ _ q0 [=].
    + eapply returns_mono;
        [apply (QuatAffine_init_returns quat trans rot false Hok)|].
      intros self _ [=].
  - intros self ((Hr & Ht & Hq & Hf) & Hn). repeat split; try assumption; apply Hq.
Qed.

(** C8, as it holds: construction raises whenever a provided quaternion's
    trailing dimension is not 4 (the first statement of the constructor: an
    AssertionError whatever the other arguments are), the translation's
    trailing dimension is not 3, or a provided rotation's trailing two
    dimensions are not 3x3 (the last two are checked at the end, after the
    normalisation); leading dimensions are not compared; and when a
    rotation is supplied and none of the three trailing conditions fails,
    construction returns a frame holding that rotation, that translation and
    the quaternion: none when none is given, the given one when
    [normalize] is false, and when [normalize] is true an array of the same
    shape that holds, at every batch index where the given quaternion is
    not zero, the given quaternion divided by its norm, a quaternion of
    norm 1. *)
Theorem QuatAffine_init_checks :
  (forall quat trans rot normalize,
     trailing_violation quat trans rot ->
     raises (QuatAffine_init quat trans rot normalize)) /\
  (forall q trans rot normalize d,
     last_dim q = Some d -> d <> 4%nat ->
     QuatAffine_init (Some q) trans rot normalize = Raise AssertionError) /\
  (forall quat trans rot normalize,
     ~ trailing_violation quat trans (Some rot) ->
     returns (QuatAffine_init quat trans (Some rot) normalize)
       (fun self =>
          rotation self = rot /\
          translation self = trans /\
          (quaternion self = None <-> quat = None) /\
          (normalize = false -> quaternion self = quat) /\
          (normalize = true -> forall q, quat = Some q ->
             exists q', quaternion self = Some q' /\ rshape q' = rshape q /\
               forall l, in_shape l (batch_dims q) -> quat_at q l <> (0, 0, 0, 0) ->
                 quat_at q' l = quat_unit (quat_at q l) /\
                 quat_norm (quat_at q' l) = 1))).
Proof.
  split; [|split].
  - exact QuatAffine_init_raises.
  - exact QuatAffine_init_quaternion_assert.
  - exact QuatAffine_init_stores.
Qed.

(** A translation of shape (5, 2) is refused; and the quaternion
    (2, 0, 0, 0), given with [normalize] true, is stored as (1, 0, 0, 0). *)
Lemma QuatAffine_init_checks_witness :
  raises (QuatAffine_init None (mkarray [2; 5]%nat (fun _ => 0))
            (Some (full_mat [5]%nat identity_mat)) false) /\
  returns (QuatAffine_init (Some (full_quat [1]%nat (2, 0, 0, 0))) (full_vec [1]%nat (0, 0, 0))
             (Some (full_mat [1]%nat identity_mat)) true)
    (fun self => exists q', quaternion self = Some q' /\
                            quat_at q' [0%nat] = (1, 0, 0, 0)).
Proof.
  split.
  - apply (proj1 QuatAffine_init_checks).
    right. left. unfold last_dim. simpl. discriminate.
  - eapply returns_mono.
    + apply (proj2 (proj2 QuatAffine_init_checks)
               (Some (full_quat [1]%nat (2, 0, 0, 0))) (full_vec [1]%nat (0, 0, 0))
               (full_mat [1]%nat identity_mat) true).
      intros [(q & [= <-] & Hq)|[Ht|(r & [= <-] & Hr)]].
      * apply Hq. reflexivity.
      * apply Ht. reflexivity.
      * apply Hr. reflexivity.
    + intros self (_ & _ & _ & _ & Hn).
      destruct (Hn eq_refl _ eq_refl) as (q' & E & _ & H).
      exists q'. split; [exact E|].
      assert (V : in_shape [0%nat] (batch_dims (full_quat [1]%nat (2, 0, 0, 0)))).
      { unfold batch_dims. cbn. apply in_shape_cons; split; [lia|constructor]. }
      assert (Hne : quat_at (full_quat [1]%nat (2, 0, 0, 0)) [0%nat] <> (0, 0, 0, 0)).
      { cbn. intros [= E0]. lra. }
      destruct (H _ V Hne) as [H1 _]. rewrite H1.
      cbn. replace (2 * 2 + 0 * 0 + 0 * 0 + 0 * 0) with (2 * 2) by ring.
      rewrite sqrt_square by lra. repeat f_equal; field.
Defined.

(** C8 as stated fails: a quaternion of shape (2, 4) and a translation of
    shape (5, 3) differ in their leading dimensions, and construction
    returns. *)
Lemma QuatAffine_init_mismatched_batch :
  ~ construction_checks_preconditions
      (Some (full_quat [2]%nat identity_quat)) (full_vec [5]%nat (0, 0, 0))
      (Some (full_mat [2]%nat identity_mat)) false.
Proof.
  intros [H _].
  assert (V : batch_mismatch (Some (full_quat [2]%nat identity_quat))
                (full_vec [5]%nat (0, 0, 0))).
  { exists (full_quat [2]%nat identity_quat). split; [reflexivity|].
    unfold batch_dims. simpl. discriminate. }
  specialize (H (or_intror V)).
  apply (raises_not_returns _ (fun _ => True) H).
  eapply returns_mono; [apply QuatAffine_init_returns|auto].
  intros [(q & [= <-] & Hq)|[Ht|(r & [= <-] & Hr)]].
  - apply Hq. reflexivity.
  - apply Ht. reflexivity.
  - apply Hr. reflexivity.
Qed.

(** * Detaching the rotation *)

(** C7: on the arrays of this module [stop_rot_gradient] raises for every
    frame.  It calls [detach], which numpy arrays do not have, on the
    quaternion when there is one and on the rotation otherwise. *)
Theorem stop_rot_gradient_raises :
  forall self, stop_rot_gradient self = Raise AttributeError.
Proof.
  intros self. unfold stop_rot_gradient, ndarray_detach.
  destruct (quaternion self); reflexivity.
Qed.

(** * The flat encoding *)

(** C10: a frame constructed without a quaternion holds none, and
    [to_tensor] raises on it; whenever [to_tensor] returns, the frame holds
    a quaternion. *)
Theorem to_tensor_needs_quaternion :
  (forall trans rot normalize self,
     QuatAffine_init None trans rot normalize = Ok self ->
     quaternion self = None /\ to_tensor self = Raise ValueError) /\
  (forall self v, to_tensor self = Ok v -> exists q, quaternion self = Some q).
Proof.
  split.
  - intros t r nz self H. unfold QuatAffine_init in H. cbn [bind] in H.
    assert (Hq : quaternion self = None).
    { destruct r as [r|]; [|discriminate]. cbn [bind] in H.
      repeat match type of H with
             | bind ?m _ = Ok _ => destruct m; cbn [bind] in H; [|discriminate]
             end.
      injection H as <-. reflexivity. }
    split; [exact Hq|]. unfold to_tensor. now rewrite Hq.
  - intros self v H. unfold to_tensor in H.
    destruct (quaternion self) as [q|]; [eauto|discriminate].
Qed.

(** A frame made of a rotation and a translation alone cannot be
    flattened. *)
Lemma to_tensor_needs_quaternion_witness :
  to_tensor (mkQuatAffine None (full_mat [1]%nat identity_mat) (full_vec [1]%nat (0, 0, 0)))
  = Raise ValueError.
Proof.
  apply (proj1 to_tensor_needs_quaternion (full_vec [1]%nat (0, 0, 0))
           (Some (full_mat [1]%nat identity_mat)) false).
  reflexivity.
Defined.

(** * The quaternion kernels *)

Lemma Rsum_ext f g l :
  (forall i, In i l -> f i = g i) -> Rsum f l = Rsum g l.
Proof.
  induction l as [|a l IH]; intros H; simpl; [reflexivity|].
  rewrite H by (left; reflexivity). f_equal. apply IH. intros i Hi. apply H. now right.
Qed.

Lemma np_sum_1_spec a d0 d1 s f :
  denotes a (d0 :: d1 :: s) f ->
  returns (np_sum 1 a)
    (fun r => denotes r (d0 :: s)
       (fun idx => match idx with
                   | k :: l => Rsum (fun j => f (k :: j :: l)) (seq 0 d1)
                   | [] => 0
                   end)).
Proof.
  intros [Ha Hf]. unfold np_sum. rewrite Ha. simpl.
  split; [reflexivity|]. intros idx Hi.
  apply in_shape_cons_inv in Hi. destruct Hi as (k & l & -> & Hk & Hl).
  cbn [item insert_at]. apply Rsum_ext. intros j Hj. apply in_seq in Hj.
  apply Hf. apply in_shape_cons; split; [assumption|].
  apply in_shape_cons; split; [lia|assumption].
Qed.

Lemma np_sum_2_spec a d0 d1 d2 s f :
  denotes a (d0 :: d1 :: d2 :: s) f ->
  returns (np_sum 2 a)
    (fun r => denotes r (d0 :: d1 :: s)
       (fun idx => match idx with
                   | k :: j :: l => Rsum (fun i => f (k :: j :: i :: l)) (seq 0 d2)
                   | _ => 0
                   end)).
Proof.
  intros [Ha Hf]. unfold np_sum. rewrite Ha. simpl.
  split; [reflexivity|]. intros idx Hi.
  apply in_shape_cons_inv in Hi. destruct Hi as (k & l' & -> & Hk & Hl').
  apply in_shape_cons_inv in Hl'. destruct Hl' as (j & l & -> & Hj & Hl).
  cbn [item insert_at]. apply Rsum_ext. intros i Hi. apply in_seq in Hi.
  apply Hf. apply in_shape_cons; split; [assumption|].
  apply in_shape_cons; split; [assumption|].
  apply in_shape_cons; split; [lia|assumption].
Qed.

Lemma np_sum_m3_m2_spec a d0 d1 d2 s f :
  denotes a (d0 :: d1 :: d2 :: s) f ->
  returns (np_sum_m3_m2 a)
    (fun r => denotes r (d0 :: s)
       (fun idx => match idx with
                   | k :: l =>
                       Rsum (fun j => Rsum (fun i => f (k :: j :: i :: l)) (seq 0 d2))
                            (seq 0 d1)
                   | [] => 0
                   end)).
Proof.
  intros Ha. unfold np_sum_m3_m2.
  step (eapply np_sum_2_spec; exact Ha) as r Hr.
  finish (eapply np_sum_1_spec; exact Hr). auto.
Qed.

Lemma np_expand_dims_m1_m3_spec a d s f :
  denotes a (d :: s) f ->
  returns (np_expand_dims_m1_m3 a)
    (fun r => denotes r (1 :: d :: 1 :: s)%nat
       (fun idx => match idx with
                   | _ :: j :: _ :: l => f (j :: l)
                   | _ => 0
                   end)).
Proof.
  intros [Ha Hf]. unfold np_expand_dims_m1_m3, np_expand_dims, np_ndim.
  rewrite Ha. simpl. rewrite ?Ha. simpl.
  split; [reflexivity|]. intros idx Hi.
  apply in_shape_cons_inv in Hi. destruct Hi as (a0 & l1 & -> & _ & Hi).
  apply in_shape_cons_inv in Hi. destruct Hi as (j & l2 & -> & Hj & Hi).
  apply in_shape_cons_inv in Hi. destruct Hi as (b0 & l & -> & _ & Hl).
  cbn [item remove_at]. apply Hf. now apply in_shape_cons.
Qed.

Lemma newaxis_last2_spec a d s f :
  denotes a (d :: s) f ->
  returns (newaxis_last2 a)
    (fun r => denotes r (1 :: 1 :: d :: s)%nat
       (fun idx => match idx with
                   | _ :: _ :: i :: l => f (i :: l)
                   | _ => 0
                   end)).
Proof.
  intros [Ha Hf]. unfold newaxis_last2, newaxis_last. rewrite Ha. simpl.
  split; [simpl; rewrite ?Ha; reflexivity|]. intros idx Hi.
  apply in_shape_cons_inv in Hi. destruct Hi as (a0 & l1 & -> & _ & Hi).
  apply in_shape_cons_inv in Hi. destruct Hi as (b0 & l2 & -> & _ & Hi).
  apply in_shape_cons_inv in Hi. destruct Hi as (i & l & -> & Hi' & Hl).
  cbn [item tl]. apply Hf. now apply in_shape_cons.
Qed.

Lemma bidx_app idx s rest : in_shape idx s -> bidx s (idx ++ rest) = idx.
Proof.
  intros H. induction H as [|i d idx s Hi _ IH]; simpl.
  - destruct rest; reflexivity.
  - rewrite IH. destruct (Nat.eqb_spec d 1); [f_equal; lia | reflexivity].
Qed.

Lemma bsel d j : (j < d)%nat -> (if (d =? 1)%nat then 0%nat else j) = j.
Proof. intros H. destruct (Nat.eqb_spec d 1); lia. Qed.

(** The contraction both kernels compute: a table of shape (d2, d1, d0)
    times [q[..., :, None, None]] times the expanded vector, summed over
    the two table axes. *)
Lemma contraction_spec table qe mat d0 d1 d2 s fT fq fv :
  denotes table [d0; d1; d2] fT ->
  denotes qe (1 :: 1 :: d2 :: s)%nat
    (fun idx => match idx with _ :: _ :: i :: l => fq (i :: l) | _ => 0 end) ->
  denotes mat (1 :: d1 :: 1 :: s)%nat
    (fun idx => match idx with _ :: j :: _ :: l => fv (j :: l) | _ => 0 end) ->
  returns (x <- np_multiply table qe ;; y <- np_multiply x mat ;; np_sum_m3_m2 y)
    (fun r => denotes r (d0 :: s)
       (fun idx => match idx with
                   | k :: l =>
                       Rsum (fun j => Rsum (fun i =>
                         fT [k; j; i] * fq (i :: l) * fv (j :: l)) (seq 0 d2)) (seq 0 d1)
                   | [] => 0
                   end)).
Proof.
  intros HT Hq Hm.
  assert (B1 : bshape [d0; d1; d2] (1 :: 1 :: d2 :: s)%nat = Some (d0 :: d1 :: d2 :: s)).
  { simpl. now rewrite !bdim_1_r, bdim_refl. }
  assert (B2 : bshape (d0 :: d1 :: d2 :: s) (1 :: d1 :: 1 :: s)%nat
               = Some (d0 :: d1 :: d2 :: s)).
  { simpl. now rewrite !bdim_1_r, bdim_refl, bshape_refl. }
  step (eapply (np_map2_spec Rmult); [exact HT|exact Hq|exact B1]) as x Hx.
  step (eapply (np_map2_spec Rmult); [exact Hx|exact Hm|exact B2]) as y Hy.
  finish (eapply np_sum_m3_m2_spec; exact Hy).
  intros r Hr. eapply denotes_ext; [exact Hr|].
  intros idx Hi. apply in_shape_cons_inv in Hi. destruct Hi as (k & l & -> & Hk & Hl).
  apply Rsum_ext. intros j Hj. apply in_seq in Hj.
  apply Rsum_ext. intros i Hi. apply in_seq in Hi.
  assert (V : in_shape [k; j; i] [d0; d1; d2]).
  { repeat (apply in_shape_cons; split; [lia|]). constructor. }
  assert (V' : in_shape (k :: j :: i :: l) (d0 :: d1 :: d2 :: s)).
  { repeat (apply in_shape_cons; split; [lia|]). assumption. }
  rewrite (bidx_id _ _ V').
  change (k :: j :: i :: l) with ([k; j; i] ++ l) at 1. rewrite (bidx_app _ _ l V).
  cbn [bidx Nat.eqb]. rewrite (bidx_id l s Hl).
  rewrite (bsel d1 j), (bsel d2 i) by lia. reflexivity.
Qed.

Lemma QUAT_TO_ROT_reshaped :
  returns (np_reshape QUAT_TO_ROT [9; 4; 4]%nat)
    (fun t => denotes t [9; 4; 4]%nat
       (fun idx => match idx with
                   | [k; j; i] => table2 (QUAT_TO_ROT_block i j) (k / 3) (k mod 3)
                   | _ => 0
                   end)).
Proof.
  unfold np_reshape. cbn [rshape QUAT_TO_ROT].
  replace (fold_right Nat.mul 1 [9; 4; 4] =? fold_right Nat.mul 1 [3; 3; 4; 4])%nat
    with true by reflexivity.
  split; [reflexivity|]. intros idx Hi.
  apply in_shape_cons_inv in Hi. destruct Hi as (k & l1 & -> & Hk & Hi).
  apply in_shape_cons_inv in Hi. destruct Hi as (j & l2 & -> & Hj & Hi).
  apply in_shape_cons_inv in Hi. destruct Hi as (i & l3 & -> & Hi' & Hi).
  inversion Hi; subst.
  do 9 (destruct k as [|k]; [do 4 (destruct j as [|j]; [do 4 (destruct i as [|i]; [reflexivity|]); lia|]); lia|]).
  lia.
Qed.

(** The nine entries of [rot_tensor] are those of the matrix [quat_rot],
    row by row. *)
Lemma rot_tensor_spec q s :
  rshape q = (4 :: s)%nat ->
  returns (rot_tensor q)
    (fun r => denotes r (9 :: s)%nat
       (fun idx => match idx with
                   | k :: l => quat_rot (quat_at q l) (k / 3)%nat (k mod 3)%nat
                   | [] => 0
                   end)).
Proof.
  intros Hq. unfold rot_tensor.
  pose proof (denotes_self q) as Dq. rewrite Hq in Dq.
  step (eapply np_expand_dims_m1_m3_spec; exact Dq) as mat Hmat.
  step (exact QUAT_TO_ROT_reshaped) as table Htable.
  step (eapply newaxis_last2_spec; exact Dq) as qe Hqe.
  finish (eapply contraction_spec; [exact Htable|exact Hqe|exact Hmat]).
  intros r Hr. eapply denotes_ext; [exact Hr|].
  intros idx Hi. apply in_shape_cons_inv in Hi. destruct Hi as (k & l & -> & Hk & Hl).
  unfold quat_rot. apply Rsum_ext. intros j Hj. apply in_seq in Hj.
  apply Rsum_ext. intros i Hi. apply in_seq in Hi.
  unfold quat_at.
  destruct i as [|[|[|[|i]]]]; [| | | |lia];
    (destruct j as [|[|[|[|j]]]]; [| | | |lia]); reflexivity.
Qed.

Lemma quat_norm_unit w x y z :
  quat_norm (w, x, y, z) = 1 -> w * w + x * x + y * y + z * z = 1.
Proof.
  unfold quat_norm. intros H.
  assert (Hs : 0 <= w * w + x * x + y * y + z * z) by nra.
  rewrite <- (sqrt_sqrt _ Hs), H. ring.
Qed.

(** The matrix of a quaternion times its transpose is the fourth power of
    the norm times the identity, and its determinant the sixth power. *)
Lemma quat_rot_gram w x y z i j :
  (i < 3)%nat -> (j < 3)%nat ->
  mmul (quat_rot (w, x, y, z)) (mtranspose (quat_rot (w, x, y, z))) i j
  = (w * w + x * x + y * y + z * z) ^ 2 * identity_mat i j.
Proof.
  intros Hi Hj.
  destruct i as [|[|[|i]]]; [| | |lia];
    (destruct j as [|[|[|j]]]; [| | |lia]);
    cbv [quat_rot Rsum seq table2 QUAT_TO_ROT_block nth quat_get mmul mtranspose
         identity_mat Nat.eqb];
    ring.
Qed.

Lemma quat_rot_det w x y z :
  det3 (quat_rot (w, x, y, z)) = (w * w + x * x + y * y + z * z) ^ 3.
Proof.
  cbv [det3 quat_rot Rsum seq table2 QUAT_TO_ROT_block nth quat_get]. ring.
Qed.

(** The matrix of a unit quaternion is a rotation. *)
Lemma quat_rot_rotation q :
  quat_norm q = 1 -> orthonormal (quat_rot q) /\ det3 (quat_rot q) = 1.
Proof.
  destruct q as [[[w x] y] z]. intros H. apply quat_norm_unit in H. split.
  - intros i j Hi Hj. rewrite quat_rot_gram by assumption. rewrite H. ring.
  - rewrite quat_rot_det, H. ring.
Qed.

(** What [quat_to_rot] computes before it fails: for unit quaternions, the
    nine entries of a rotation matrix. *)
Lemma rot_tensor_rotation q s :
  rshape q = (4 :: s)%nat ->
  returns (rot_tensor q)
    (fun r => rshape r = (9 :: s)%nat /\
       forall l, in_shape l s -> quat_norm (quat_at q l) = 1 ->
         let m : mat3 := fun i j => item r ((3 * i + j)%nat :: l) in
         orthonormal m /\ det3 m = 1).
Proof.
  intros Hq. eapply returns_mono; [apply (rot_tensor_spec q s Hq)|].
  intros r [Hs Hr]. split; [exact Hs|]. intros l Hl Hn m.
  destruct (quat_rot_rotation _ Hn) as [Ho Hd].
  assert (E : forall i j, (i < 3)%nat -> (j < 3)%nat -> m i j = quat_rot (quat_at q l) i j).
  { intros i j Hi Hj. unfold m. rewrite Hr by (apply in_shape_cons; split; [lia|assumption]).
    cbv beta iota. f_equal.
    - symmetry. apply Nat.div_unique with (r := j); lia.
    - symmetry. apply Nat.mod_unique with (q := i); lia. }
  split.
  - intros i j Hi Hj. rewrite <- (Ho i j Hi Hj). unfold mmul, mtranspose.
    rewrite !E by lia. reflexivity.
  - rewrite <- Hd. unfold det3. rewrite !E by lia. reflexivity.
Qed.

Lemma quat_to_rot_AttributeError q s :
  rshape q = (4 :: s)%nat -> quat_to_rot (Some q) = Raise AttributeError.
Proof.
  intros Hq. unfold quat_to_rot.
  destruct (returns_inv _ _ (rot_tensor_spec q s Hq)) as (r & -> & _).
  reflexivity.
Qed.

(** C3: [quat_to_rot] never returns, and on an array of quaternions it
    raises an AttributeError: once the nine entries are computed, it calls
    [extend] on the tuple [rot_tensor.shape[:-1]]. *)
Theorem quat_to_rot_raises :
  (forall normalized_quat, raises (quat_to_rot normalized_quat)) /\
  (forall q s, rshape q = (4 :: s)%nat -> quat_to_rot (Some q) = Raise AttributeError).
Proof.
  split.
  - exact quat_to_rot_never_returns.
  - exact quat_to_rot_AttributeError.
Qed.

(** The identity quaternion, a unit quaternion, as a failing input. *)
Lemma quat_to_rot_raises_witness :
  quat_to_rot (Some (full_quat [] identity_quat)) = Raise AttributeError.
Proof.
  apply (proj2 quat_to_rot_raises (full_quat [] identity_quat) []). reflexivity.
Defined.

Lemma quat_eq (w x y z w' x' y' z' : R) :
  w = w' -> x = x' -> y = y' -> z = z' -> (w, x, y, z) = (w', x', y', z').
Proof. intros -> -> -> ->. reflexivity. Qed.

Lemma quat_multiply_by_vec_spec q v s :
  rshape q = (4 :: s)%nat -> rshape v = (3 :: s)%nat ->
  returns (quat_multiply_by_vec (Some q) v)
    (fun r => rshape r = (4 :: s)%nat /\
       forall l, in_shape l s ->
         quat_at r l = hamilton (quat_at q l) (pure_quat (vec_at v l))).
Proof.
  intros Hq Hv. unfold quat_multiply_by_vec.
  pose proof (denotes_self q) as Dq. rewrite Hq in Dq.
  pose proof (denotes_self v) as Dv. rewrite Hv in Dv.
  pose proof (denotes_self QUAT_MULTIPLY_BY_VEC) as DT.
  change (rshape QUAT_MULTIPLY_BY_VEC) with [4; 3; 4]%nat in DT.
  step (eapply np_expand_dims_m1_m3_spec; exact Dv) as mat Hmat.
  step (eapply newaxis_last2_spec; exact Dq) as qe Hqe.
  finish (eapply contraction_spec; [exact DT|exact Hqe|exact Hmat]).
  intros r [Hs Hr]. split; [exact Hs|]. intros l Hl.
  unfold quat_at at 1.
  rewrite !Hr by (apply in_shape_cons; split; [lia|assumption]).
  unfold quat_at, vec_at, pure_quat, hamilton.
  cbv [Rsum seq item QUAT_MULTIPLY_BY_VEC QUAT_MULTIPLY table2 QUAT_MULTIPLY_plane nth].
  apply quat_eq; ring.
Qed.

(** C4, as it holds: for quaternions q and 3-vectors v of one batch shape,
    [quat_multiply_by_vec(q, v)] is the whole Hamilton product of q with
    the pure-vector quaternion (0, v): four components, the scalar part
    first. *)
Theorem quat_multiply_by_vec_hamilton q v s :
  rshape q = (4 :: s)%nat -> rshape v = (3 :: s)%nat ->
  returns (quat_multiply_by_vec (Some q) v)
    (fun r => rshape r = (4 :: s)%nat /\
       forall l, in_shape l s ->
         quat_at r l = hamilton (quat_at q l) (pure_quat (vec_at v l))).
Proof. apply quat_multiply_by_vec_spec. Qed.

(** The quaternion i times the vector (1, 0, 0): the product is -1. *)
Lemma quat_multiply_by_vec_hamilton_witness :
  returns (quat_multiply_by_vec (Some (full_quat [] (0, 1, 0, 0))) (full_vec [] (1, 0, 0)))
    (fun r => rshape r = [4]%nat /\ quat_at r [] = (-1, 0, 0, 0)).
Proof.
  eapply returns_mono.
  - apply (quat_multiply_by_vec_hamilton (full_quat [] (0, 1, 0, 0))
             (full_vec [] (1, 0, 0)) []); reflexivity.
  - intros r [Hs Hr]. split; [exact Hs|]. rewrite (Hr [] in_shape_nil).
    unfold quat_at, vec_at, pure_quat, hamilton. simpl.
    apply quat_eq; ring.
Defined.

(** C4 as stated fails: the result has four components, not the three of a
    vector part; for q = i and v = (1, 0, 0) it is (-1, 0, 0, 0). *)
Lemma quat_multiply_by_vec_scalar_part :
  ~ returns_vector_part (full_quat [] (0, 1, 0, 0)) (full_vec [] (1, 0, 0)).
Proof.
  unfold returns_vector_part. intros H.
  pose proof (quat_multiply_by_vec_spec (full_quat [] (0, 1, 0, 0))
                (full_vec [] (1, 0, 0)) [] eq_refl eq_refl) as G.
  destruct (quat_multiply_by_vec _ _) as [r|e]; [|exact H].
  unfold returns in H, G. destruct H as [H _]. destruct G as [G _].
  rewrite G in H. discriminate.
Qed.

(** * Composing an update *)

Lemma bind_returns_Raise {A B : Type} (m : result A) (k : A -> result B)
  (P : A -> Prop) (e : exn) :
  returns m P -> (forall a, P a -> k a = Raise e) -> (x <- m ;; k x) = Raise e.
Proof.
  destruct m as [a|e']; simpl; intros Hm Hk; [apply Hk, Hm | contradiction].
Qed.

(** [pass tac as a H]: the first call of a sequence that ends in an
    exception returns, by [tac]. *)
Tactic Notation "pass" tactic3(tac) "as" ident(a) ident(H) :=
  eapply bind_returns_Raise; [ solve [tac] | intros a H; cbv beta in H ].

Lemma slice_last_spec a lo hi d s f :
  denotes a (d :: s) f -> (hi <= d)%nat ->
  returns (slice_last a lo hi)
    (fun r => denotes r ((hi - lo)%nat :: s)
       (fun idx => match idx with
                   | k :: l => f ((lo + k)%nat :: l)
                   | [] => 0
                   end)).
Proof.
  intros [Ha Hf] Hhi. unfold slice_last. rewrite Ha. simpl.
  rewrite Nat.min_l by assumption.
  split; [reflexivity|]. intros idx Hi.
  apply in_shape_cons_inv in Hi. destruct Hi as (k & l & -> & Hk & Hl).
  cbn [item]. apply Hf. apply in_shape_cons. split; [lia|assumption].
Qed.

Lemma QuatAffine_init_AttributeError q trans s normalize :
  rshape q = (4 :: s)%nat ->
  QuatAffine_init (Some q) trans None normalize = Raise AttributeError.
Proof.
  intros Hq. unfold QuatAffine_init.
  pass (eapply returns_bind with (P := fun d => d = 4%nat);
        [eapply shape_neg_1; exact Hq
        |intros d ->; apply assert_true; reflexivity]) as u0 U0.
  destruct normalize.
  - pass (apply (normalize_returns q s Hq)) as q1 Hq1.
    destruct Hq1 as (q' & -> & Hq' & _).
    now rewrite (quat_to_rot_AttributeError q' s Hq').
  - cbn [bind]. now rewrite (quat_to_rot_AttributeError q s Hq).
Qed.

Lemma pre_compose_never_returns self update : raises (pre_compose self update).
Proof.
  unfold pre_compose.
  do 6 (apply raises_bind_r; intros ?).
  apply raises_bind_r. intros [[t0 t1] t2].
  do 2 (apply raises_bind_r; intros ?).
  apply QuatAffine_init_without_rotation.
Qed.

Lemma pre_compose_AttributeError self update q s :
  quaternion self = Some q -> rshape q = (4 :: s)%nat ->
  rshape (rotation self) = (3 :: 3 :: s)%nat ->
  rshape (translation self) = (3 :: s)%nat ->
  rshape update = (6 :: s)%nat ->
  pre_compose self update = Raise AttributeError.
Proof.
  intros Eq Hq Hr Ht Hu. unfold pre_compose. rewrite Eq.
  pose proof (denotes_self update) as Du. rewrite Hu in Du.
  pose proof (denotes_self q) as Dq. rewrite Hq in Dq.
  pose proof (denotes_self (rotation self)) as Dr. rewrite Hr in Dr.
  pose proof (denotes_self (translation self)) as Dt. rewrite Ht in Dt.
  pass (eapply slice_last_spec; [exact Du|lia]) as vqu Hvqu.
  pass (eapply index_last_spec; [exact Du|lia]) as u3 Hu3.
  pass (eapply index_last_spec; [exact Du|lia]) as u4 Hu4.
  pass (eapply index_last_spec; [exact Du|lia]) as u5 Hu5.
  pass (eapply (quat_multiply_by_vec_spec q vqu s);
        [exact Hq|exact (denotes_shape _ _ _ Hvqu)]) as qv Hqv.
  destruct Hqv as [Hqv _].
  pose proof (denotes_self qv) as Dqv. rewrite Hqv in Dqv.
  pass (eapply np_add_same; [exact Dq|exact Dqv]) as nq Hnq.
  pass (eapply (apply_rot_to_vec_bl _ _ _ _ s s);
        [apply bshape_refl|exact Dr|exact Hu3|exact Hu4|exact Hu5]) as tu Htu.
  destruct tu as [[t0 t1] t2]. destruct Htu as (H0 & H1 & H2).
  pass (eapply np_stack_0_3; [exact H0|exact H1|exact H2]) as tus Htus.
  pass (eapply np_add_same; [exact Dt|exact Htus]) as nt Hnt.
  apply (QuatAffine_init_AttributeError nq nt s). exact (denotes_shape _ _ _ Hnq).
Qed.

(** C5: [pre_compose] never returns a frame.  On a frame that holds
    quaternions, with an update of six components for each of them -- the
    zero update among them -- it raises the AttributeError of
    [quat_to_rot], which the constructor calls for the rotation of the new
    quaternion. *)
Theorem pre_compose_raises :
  (forall self update, raises (pre_compose self update)) /\
  (forall self update q s,
     quaternion self = Some q -> rshape q = (4 :: s)%nat ->
     rshape (rotation self) = (3 :: 3 :: s)%nat ->
     rshape (translation self) = (3 :: s)%nat ->
     rshape update = (6 :: s)%nat ->
     pre_compose self update = Raise AttributeError).
Proof.
  split.
  - exact pre_compose_never_returns.
  - exact pre_compose_AttributeError.
Qed.

(** The identity frame and the zero update. *)
Lemma pre_compose_raises_witness :
  pre_compose
    (mkQuatAffine (Some (full_quat [1]%nat identity_quat))
       (full_mat [1]%nat identity_mat) (full_vec [1]%nat (0, 0, 0)))
    (mkarray [6; 1]%nat (fun _ => 0))
  = Raise AttributeError.
Proof.
  apply (proj2 pre_compose_raises _ _ (full_quat [1]%nat identity_quat) [1]%nat);
    reflexivity.
Defined.

(** * Rescaling the translation *)

Lemma bdim_comm a b : bdim a b = bdim b a.
Proof.
  unfold bdim. rewrite (Nat.eqb_sym b a).
  destruct (Nat.eqb_spec a b); [now subst|].
  destruct (Nat.eqb_spec a 1), (Nat.eqb_spec b 1); subst; reflexivity.
Qed.

Lemma bshape_comm s : forall t, bshape s t = bshape t s.
Proof.
  induction s as [|a s IH]; intros [|b t]; simpl; try reflexivity.
  now rewrite bdim_comm, IH.
Qed.

Lemma bdim_assoc a t b d1 d2 :
  bdim a t = Some d1 -> bdim b d1 = Some d2 ->
  exists d12, bdim a b = Some d12 /\ bdim d12 t = Some d2.
Proof.
  intros H1 H2. destruct (Nat.eq_dec a 1) as [->|Ha].
  - rewrite bdim_1_l in H1. injection H1 as <-.
    exists b. split; [apply bdim_1_l|exact H2].
  - pose proof (bdim_inv _ _ _ H1) as [[E1|E1] _]; [|contradiction]. subst d1.
    pose proof (bdim_inv _ _ _ H2) as [Hb [E2|E2]]; [|contradiction]. subst d2.
    exists a. split; [|exact H1].
    destruct Hb as [->| ->]; [apply bdim_refl|apply bdim_1_r].
Qed.

Lemma bshape_assoc a : forall t b s1 s2,
  bshape a t = Some s1 -> bshape b s1 = Some s2 ->
  exists s12, bshape a b = Some s12 /\ bshape s12 t = Some s2.
Proof.
  induction a as [|x a IH]; intros t b s1 s2 H1 H2.
  - simpl in H1. injection H1 as <-. exists b. split; [reflexivity|exact H2].
  - destruct t as [|y t].
    + simpl in H1. injection H1 as <-. exists s2.
      split; [now rewrite bshape_comm|apply bshape_nil_r].
    + simpl in H1. destruct (bdim x y) as [d1|] eqn:D1; [|discriminate].
      destruct (bshape a t) as [r1|] eqn:R1; [|discriminate]. injection H1 as <-.
      destruct b as [|z b].
      * simpl in H2. injection H2 as <-. exists (x :: a). split; [reflexivity|].
        simpl. now rewrite D1, R1.
      * simpl in H2. destruct (bdim z d1) as [d2|] eqn:D2; [|discriminate].
        destruct (bshape b r1) as [r2|] eqn:R2; [|discriminate]. injection H2 as <-.
        destruct (bdim_assoc _ _ _ _ _ D1 D2) as (d12 & E1 & E2).
        destruct (IH _ _ _ _ R1 R2) as (r12 & F1 & F2).
        exists (d12 :: r12). simpl. now rewrite E1, F1, E2, F2.
Qed.

Lemma bidx_idem s : forall idx, bidx s (bidx s idx) = bidx s idx.
Proof.
  induction s as [|d s IH]; intros [|i idx]; simpl; try reflexivity.
  rewrite IH. destruct (d =? 1)%nat; reflexivity.
Qed.

Lemma bidx_bidx_l a : forall b s idx,
  bshape a b = Some s -> bidx a (bidx s idx) = bidx a idx.
Proof.
  induction a as [|x a IH]; intros b s idx H; [reflexivity|].
  destruct b as [|y b].
  - simpl in H. injection H as <-. apply bidx_idem.
  - simpl in H. destruct (bdim x y) as [d|] eqn:D; [|discriminate].
    destruct (bshape a b) as [r|] eqn:R; [|discriminate]. injection H as <-.
    destruct idx as [|i idx]; [reflexivity|]. simpl.
    rewrite (IH _ _ _ R). f_equal.
    destruct (Nat.eqb_spec x 1); [reflexivity|].
    destruct (Nat.eqb_spec d 1); [|reflexivity].
    apply bdim_inv in D. lia.
Qed.

Lemma bidx_bidx_r a b s idx :
  bshape a b = Some s -> bidx b (bidx s idx) = bidx b idx.
Proof. rewrite bshape_comm. apply bidx_bidx_l. Qed.

Lemma bshape_last_3 sk st s :
  bshape sk (3 :: st)%nat = Some s -> exists s', s = (3 :: s')%nat.
Proof.
  destruct sk as [|a sk]; simpl.
  - intros [= <-]. eauto.
  - destruct (bdim a 3) as [d|] eqn:D; [|discriminate].
    destruct (bshape sk st) as [r|]; [|discriminate]. intros [= <-].
    apply bdim_inv in D. destruct D as [_ [<-|D]]; [eauto|discriminate].
Qed.

Lemma np_map2_Ok op a b s :
  bshape (rshape a) (rshape b) = Some s ->
  np_map2 op a b
  = Ok (mkarray s (fun idx => op (item a (bidx (rshape a) idx)) (item b (bidx (rshape b) idx)))).
Proof. intros H. unfold np_map2. now rewrite H. Qed.

(** A frame that the constructor accepts. *)
Lemma scale_translation_returns self k st s1 :
  ~ trailing_violation (quaternion self) (translation self) (Some (rotation self)) ->
  rshape (translation self) = (3 :: st)%nat ->
  bshape (rshape k) (3 :: st)%nat = Some s1 ->
  returns (scale_translation self k)
    (fun f =>
       quaternion f = quaternion self /\ rotation f = rotation self /\
       np_multiply k (translation self) = Ok (translation f) /\
       rshape (translation f) = s1).
Proof.
  intros Hok Ht Hb. unfold scale_translation.
  unfold np_multiply at 1. rewrite <- Ht in Hb. rewrite (np_map2_Ok _ _ _ _ Hb). cbn [bind].
  set (t1 := mkarray s1 _).
  eapply returns_mono.
  - apply QuatAffine_init_returns.
    intros [V|[V|V]].
    + apply Hok. left. exact V.
    + apply V. unfold last_dim, t1. cbn [rshape].
      rewrite Ht in Hb. destruct (bshape_last_3 _ _ _ Hb) as [s' ->]. reflexivity.
    + apply Hok. right. right. exact V.
  - intros f (Hr & Htr & _ & Hq). rewrite Htr.
    split; [now apply Hq|]. split; [exact Hr|].
    split; [|reflexivity]. unfold np_multiply. now rewrite (np_map2_Ok _ _ _ _ Hb).
Qed.

(** C9: on a frame that the constructor accepts, rescaling by [k1] and then
    by [k2] -- Python floats or arrays that broadcast against the
    translation -- returns a frame with the same quaternion, the same
    rotation, and the translation multiplied by [k1 * k2]: it has the
    broadcast shape, each of its entries is the product of the entry of
    [k1], the entry of [k2] and the entry of the translation that
    broadcasting puts there, and it is the array that one rescaling by the
    array [k1 * k2] computes. *)
Theorem scale_translation_twice self k1 k2 st s1 s2 :
  ~ trailing_violation (quaternion self) (translation self) (Some (rotation self)) ->
  rshape (translation self) = (3 :: st)%nat ->
  bshape (rshape k1) (3 :: st)%nat = Some s1 ->
  bshape (rshape k2) s1 = Some s2 ->
  returns (f1 <- scale_translation self k1 ;; scale_translation f1 k2)
    (fun f2 =>
       quaternion f2 = quaternion self /\ rotation f2 = rotation self /\
       rshape (translation f2) = s2 /\
       (forall idx, in_shape idx s2 ->
          item (translation f2) idx
          = item k1 (bidx (rshape k1) idx) * item k2 (bidx (rshape k2) idx)
            * item (translation self) (bidx (rshape (translation self)) idx)) /\
       returns (k12 <- np_multiply k1 k2 ;; np_multiply k12 (translation self))
         (fun t12 => same_array (translation f2) t12)).
Proof.
  intros Hok Ht Hb1 Hb2.
  eapply returns_bind; [apply (scale_translation_returns self k1 st s1 Hok Ht Hb1)|].
  intros f1 (Hq1 & Hr1 & Ht1 & Hs1). cbv beta.
  destruct (bshape_last_3 _ _ _ Hb1) as [s1' E1].
  eapply returns_mono.
  - apply (scale_translation_returns f1 k2 s1' s2).
    + rewrite Hq1, Hr1. intros [V|[V|V]].
      * apply Hok. left. exact V.
      * apply V. unfold last_dim. rewrite Hs1, E1. reflexivity.
      * apply Hok. right. right. exact V.
    + now rewrite Hs1.
    + now rewrite <- E1.
  - intros f2 (Hq2 & Hr2 & Ht2 & Hs2). cbv beta.
    split; [congruence|]. split; [congruence|]. split; [exact Hs2|].
    destruct (bshape_assoc _ _ _ _ _ Hb1 Hb2) as (s12 & B12 & B12t).
    unfold np_multiply in *.
    rewrite (np_map2_Ok _ _ _ _ B12). cbn [bind].
    rewrite np_map2_Ok with (s := s2) by (cbn [rshape]; now rewrite Ht).
    rewrite np_map2_Ok with (s := s1) in Ht1 by now rewrite Ht.
    injection Ht1 as Ht1.
    rewrite np_map2_Ok with (s := s2) in Ht2 by now rewrite Hs1.
    injection Ht2 as Ht2.
    unfold returns, same_array. rewrite <- Ht2, <- Ht1. cbn [rshape item].
    split; [|split; [reflexivity|]]; intros idx _.
    + rewrite (bidx_bidx_l _ _ _ idx Hb1).
      rewrite Ht. rewrite (bidx_bidx_r _ _ _ idx Hb1). ring.
    + rewrite (bidx_bidx_l _ _ _ idx Hb1), (bidx_bidx_l _ _ _ idx B12).
      rewrite (bidx_bidx_r _ _ _ idx B12).
      rewrite Ht. rewrite (bidx_bidx_r _ _ _ idx Hb1). ring.
Qed.

Lemma identity_frame_accepted s t :
  ~ trailing_violation (quaternion (identity_frame s t)) (translation (identity_frame s t))
      (Some (rotation (identity_frame s t))).
Proof.
  intros [(q & [= <-] & H)|[H|(r & [= <-] & H)]]; apply H; reflexivity.
Qed.

(** The factors 2 and 3, Python floats, on one identity frame with
    translation (1, 2, 3): the translation becomes (6, 12, 18). *)
Lemma scale_translation_twice_witness :
  returns (f1 <- scale_translation (identity_frame [1]%nat (1, 2, 3)) (np_scalar 2) ;;
           scale_translation f1 (np_scalar 3))
    (fun f2 =>
       quaternion f2 = quaternion (identity_frame [1]%nat (1, 2, 3)) /\
       rotation f2 = rotation (identity_frame [1]%nat (1, 2, 3)) /\
       rshape (translation f2) = [3; 1]%nat /\
       vec_at (translation f2) [0%nat] = (6, 12, 18)).
Proof.
  eapply returns_mono.
  - apply (scale_translation_twice (identity_frame [1]%nat (1, 2, 3)) (np_scalar 2)
             (np_scalar 3) [1]%nat [3; 1]%nat [3; 1]%nat).
    + apply identity_frame_accepted.
    + reflexivity.
    + reflexivity.
    + reflexivity.
  - intros f2 (Hq & Hr & Hs & Hi & _).
    split; [exact Hq|]. split; [exact Hr|]. split; [exact Hs|].
    assert (V : forall k, (k < 3)%nat -> in_shape [k; 0]%nat [3; 1]%nat).
    { intros k Hk. apply in_shape_cons; split; [exact Hk|].
      apply in_shape_cons; split; [lia|constructor]. }
    unfold vec_at.
    rewrite (Hi _ (V 0%nat ltac:(lia))), (Hi _ (V 1%nat ltac:(lia))),
      (Hi _ (V 2%nat ltac:(lia))).
    cbn. repeat f_equal; lra.
Defined.

(** * Points through a frame and back *)

(** Rows orthonormal implies columns orthonormal, for nine reals. *)
Lemma rows_columns (a b c d e f g h k : R) :
  a * a + b * b + c * c = 1 -> a * d + b * e + c * f = 0 -> a * g + b * h + c * k = 0 ->
  d * d + e * e + f * f = 1 -> d * g + e * h + f * k = 0 -> g * g + h * h + k * k = 1 ->
  (a * a + d * d + g * g = 1 /\ a * b + d * e + g * h = 0 /\ a * c + d * f + g * k = 0) /\
  (b * b + e * e + h * h = 1 /\ b * c + e * f + h * k = 0) /\
  c * c + f * f + k * k = 1.
Proof.
  intros H00 H01 H02 H11 H12 H22.
  set (D := a * (e * k - f * h) - b * (d * k - f * g) + c * (d * h - e * g)).
  assert (HD : D * D = 1).
  { replace (D * D) with
      ((a * a + b * b + c * c)
         * ((d * d + e * e + f * f) * (g * g + h * h + k * k)
            - (d * g + e * h + f * k) * (d * g + e * h + f * k))
       - (a * d + b * e + c * f)
         * ((a * d + b * e + c * f) * (g * g + h * h + k * k)
            - (d * g + e * h + f * k) * (a * g + b * h + c * k))
       + (a * g + b * h + c * k)
         * ((a * d + b * e + c * f) * (d * g + e * h + f * k)
            - (d * d + e * e + f * f) * (a * g + b * h + c * k)))
      by (unfold D; ring).
    rewrite H00, H01, H02, H11, H12, H22. ring. }
  assert (HD0 : D <> 0) by (intros E; rewrite E in HD; lra).
  (* the cofactors are D times the entries *)
  assert (Ca : D * a = e * k - f * h).
  { replace (D * a) with
      ((e * k - f * h) * (a * a + b * b + c * c)
       + (c * h - b * k) * (a * d + b * e + c * f)
       + (b * f - c * e) * (a * g + b * h + c * k)) by (unfold D; ring).
    rewrite H00, H01, H02. ring. }
  assert (Cb : D * b = f * g - d * k).
  { replace (D * b) with
      ((f * g - d * k) * (a * a + b * b + c * c)
       + (a * k - c * g) * (a * d + b * e + c * f)
       + (c * d - a * f) * (a * g + b * h + c * k)) by (unfold D; ring).
    rewrite H00, H01, H02. ring. }
  assert (Cc : D * c = d * h - e * g).
  { replace (D * c) with
      ((d * h - e * g) * (a * a + b * b + c * c)
       + (b * g - a * h) * (a * d + b * e + c * f)
       + (a * e - b * d) * (a * g + b * h + c * k)) by (unfold D; ring).
    rewrite H00, H01, H02. ring. }
  assert (Cd : D * d = c * h - b * k).
  { replace (D * d) with
      ((e * k - f * h) * (a * d + b * e + c * f)
       + (c * h - b * k) * (d * d + e * e + f * f)
       + (b * f - c * e) * (d * g + e * h + f * k)) by (unfold D; ring).
    rewrite H01, H11, H12. ring. }
  assert (Ce : D * e = a * k - c * g).
  { replace (D * e) with
      ((f * g - d * k) * (a * d + b * e + c * f)
       + (a * k - c * g) * (d * d + e * e + f * f)
       + (c * d - a * f) * (d * g + e * h + f * k)) by (unfold D; ring).
    rewrite H01, H11, H12. ring. }
  assert (Cf : D * f = b * g - a * h).
  { replace (D * f) with
      ((d * h - e * g) * (a * d + b * e + c * f)
       + (b * g - a * h) * (d * d + e * e + f * f)
       + (a * e - b * d) * (d * g + e * h + f * k)) by (unfold D; ring).
    rewrite H01, H11, H12. ring. }
  assert (Cg : D * g = b * f - c * e).
  { replace (D * g) with
      ((e * k - f * h) * (a * g + b * h + c * k)
       + (c * h - b * k) * (d * g + e * h + f * k)
       + (b * f - c * e) * (g * g + h * h + k * k)) by (unfold D; ring).
    rewrite H02, H12, H22. ring. }
  assert (Ch : D * h = c * d - a * f).
  { replace (D * h) with
      ((f * g - d * k) * (a * g + b * h + c * k)
       + (a * k - c * g) * (d * g + e * h + f * k)
       + (c * d - a * f) * (g * g + h * h + k * k)) by (unfold D; ring).
    rewrite H02, H12, H22. ring. }
  assert (Ck : D * k = a * e - b * d).
  { replace (D * k) with
      ((d * h - e * g) * (a * g + b * h + c * k)
       + (b * g - a * h) * (d * g + e * h + f * k)
       + (a * e - b * d) * (g * g + h * h + k * k)) by (unfold D; ring).
    rewrite H02, H12, H22. ring. }
  repeat split; apply Rmult_eq_reg_l with D; try assumption.
  - replace (D * (a * a + d * d + g * g)) with (D * a * a + D * d * d + D * g * g) by ring.
    rewrite Ca, Cd, Cg. unfold D. ring.
  - replace (D * (a * b + d * e + g * h)) with (D * a * b + D * d * e + D * g * h) by ring.
    rewrite Ca, Cd, Cg. ring.
  - replace (D * (a * c + d * f + g * k)) with (D * a * c + D * d * f + D * g * k) by ring.
    rewrite Ca, Cd, Cg. ring.
  - replace (D * (b * b + e * e + h * h)) with (D * b * b + D * e * e + D * h * h) by ring.
    rewrite Cb, Ce, Ch. unfold D. ring.
  - replace (D * (b * c + e * f + h * k)) with (D * b * c + D * e * f + D * h * k) by ring.
    rewrite Cb, Ce, Ch. ring.
  - replace (D * (c * c + f * f + k * k)) with (D * c * c + D * f * f + D * k * k) by ring.
    rewrite Cc, Cf, Ck. unfold D. ring.
Qed.

(** [R R^T = I] gives [R^T R = I]. *)
Lemma orthonormal_columns (m : mat3) :
  orthonormal m ->
  forall i j, (i < 3)%nat -> (j < 3)%nat ->
    m 0%nat i * m 0%nat j + m 1%nat i * m 1%nat j + m 2%nat i * m 2%nat j
    = identity_mat i j.
Proof.
  intros H.
  pose proof (H 0%nat 0%nat) as H00. pose proof (H 0%nat 1%nat) as H01.
  pose proof (H 0%nat 2%nat) as H02. pose proof (H 1%nat 1%nat) as H11.
  pose proof (H 1%nat 2%nat) as H12. pose proof (H 2%nat 2%nat) as H22.
  unfold mmul, mtranspose, identity_mat in *. cbn [Nat.eqb] in *.
  destruct (rows_columns _ _ _ _ _ _ _ _ _
              (H00 ltac:(lia) ltac:(lia)) (H01 ltac:(lia) ltac:(lia))
              (H02 ltac:(lia) ltac:(lia)) (H11 ltac:(lia) ltac:(lia))
              (H12 ltac:(lia) ltac:(lia)) (H22 ltac:(lia) ltac:(lia)))
    as ((C00 & C01 & C02) & (C11 & C12) & C22).
  intros i j Hi Hj.
  destruct i as [|[|[|i]]]; [| | |lia];
    (destruct j as [|[|[|j]]]; [| | |lia]); cbn [Nat.eqb]; lra.
Qed.

Lemma np_expand_dims_1_spec a d s f :
  denotes a (d :: s) f ->
  returns (np_expand_dims 1 a)
    (fun r => denotes r (d :: 1 :: s)%nat
       (fun idx => match idx with
                   | c :: _ :: l => f (c :: l)
                   | _ => 0
                   end)).
Proof.
  intros [Ha Hf]. unfold np_expand_dims, np_ndim. rewrite Ha. simpl.
  split; [reflexivity|]. intros idx Hi.
  apply in_shape_cons_inv in Hi. destruct Hi as (c & l1 & -> & Hc & Hi).
  apply in_shape_cons_inv in Hi. destruct Hi as (o & l & -> & _ & Hl).
  cbn [item remove_at]. apply Hf. now apply in_shape_cons.
Qed.

Lemma np_expand_dims_2_spec a d0 d1 s f :
  denotes a (d0 :: d1 :: s) f ->
  returns (np_expand_dims 2 a)
    (fun r => denotes r (d0 :: d1 :: 1 :: s)%nat
       (fun idx => match idx with
                   | j :: i :: _ :: l => f (j :: i :: l)
                   | _ => 0
                   end)).
Proof.
  intros [Ha Hf]. unfold np_expand_dims, np_ndim. rewrite Ha. simpl.
  split; [reflexivity|]. intros idx Hi.
  apply in_shape_cons_inv in Hi. destruct Hi as (j & l1 & -> & Hj & Hi).
  apply in_shape_cons_inv in Hi. destruct Hi as (i & l2 & -> & Hi' & Hi).
  apply in_shape_cons_inv in Hi. destruct Hi as (o & l & -> & _ & Hl).
  cbn [item remove_at]. apply Hf.
  apply in_shape_cons; split; [assumption|]. now apply in_shape_cons.
Qed.

Lemma repeat_app_cons {A : Type} (x : A) k s : repeat x k ++ x :: s = x :: repeat x k ++ s.
Proof. induction k as [|k IH]; simpl; [reflexivity|]. now rewrite IH. Qed.

Lemma skipn_in_ones k : forall l s,
  in_shape l (1%nat :: repeat 1%nat k ++ s) ->
  exists o, skipn k l = o :: skipn (S k) l.
Proof.
  induction k as [|k IH]; intros l s H.
  - apply in_shape_cons_inv in H. destruct H as (o & l' & -> & _ & _).
    exists o. reflexivity.
  - apply in_shape_cons_inv in H. destruct H as (o & l' & -> & _ & H).
    simpl in H. destruct (IH _ _ H) as [o' Ho']. exists o'. exact Ho'.
Qed.

(** The frame after the loop over [extra_dims]: [k] axes of size 1 stand
    before the trailing axes, and the entries are those of the frame. *)
Lemma expand_extra_dims_spec k : forall t r s ft fr,
  denotes t (3 :: s)%nat ft -> denotes r (3 :: 3 :: s)%nat fr ->
  returns (expand_extra_dims k t r)
    (fun '(t', r') =>
       denotes t' (3%nat :: repeat 1%nat k ++ s)
         (fun idx => match idx with
                     | c :: l => ft (c :: skipn k l)
                     | [] => 0
                     end) /\
       denotes r' (3%nat :: 3%nat :: repeat 1%nat k ++ s)
         (fun idx => match idx with
                     | j :: i :: l => fr (j :: i :: skipn k l)
                     | _ => 0
                     end)).
Proof.
  induction k as [|k IH]; intros t r s ft fr Ht Hr.
  - simpl. split.
    + eapply denotes_ext; [exact Ht|]. intros idx Hi.
      apply in_shape_cons_inv in Hi. destruct Hi as (c & l & -> & _ & _). reflexivity.
    + eapply denotes_ext; [exact Hr|]. intros idx Hi.
      apply in_shape_cons_inv in Hi. destruct Hi as (j & l1 & -> & _ & Hi).
      apply in_shape_cons_inv in Hi. destruct Hi as (i & l & -> & _ & _). reflexivity.
  - cbn [expand_extra_dims].
    step (eapply np_expand_dims_1_spec; exact Ht) as t1 Ht1.
    step (eapply np_expand_dims_2_spec; exact Hr) as r1 Hr1.
    eapply returns_mono; [apply (IH _ _ _ _ _ Ht1 Hr1)|].
    intros [t' r'] [Ht' Hr']. rewrite repeat_app_cons in Ht', Hr'. split.
    + eapply denotes_ext; [exact Ht'|]. intros idx Hi.
      apply in_shape_cons_inv in Hi. destruct Hi as (c & l & -> & _ & Hl).
      destruct (skipn_in_ones _ _ _ Hl) as [o Ho]. now rewrite Ho.
    + eapply denotes_ext; [exact Hr'|]. intros idx Hi.
      apply in_shape_cons_inv in Hi. destruct Hi as (j & l1 & -> & _ & Hi).
      apply in_shape_cons_inv in Hi. destruct Hi as (i & l & -> & _ & Hl).
      destruct (skipn_in_ones _ _ _ Hl) as [o Ho]. now rewrite Ho.
Qed.

Lemma bshape_ones k : forall E s,
  length E = k -> bshape (repeat 1%nat k ++ s) (E ++ s) = Some (E ++ s).
Proof.
  induction k as [|k IH]; intros [|e E] s H; try discriminate.
  - apply bshape_refl.
  - simpl. rewrite bdim_1_l, IH by (simpl in H; lia). reflexivity.
Qed.

Lemma skipn_bidx_ones k : forall E s idx,
  length E = k -> in_shape idx (E ++ s) ->
  skipn k (bidx (repeat 1%nat k ++ s) idx) = skipn k idx.
Proof.
  induction k as [|k IH]; intros [|e E] s idx H Hi; try discriminate.
  - simpl. now rewrite bidx_id.
  - simpl in Hi. apply in_shape_cons_inv in Hi. destruct Hi as (i & l & -> & _ & Hl).
    simpl. apply (IH E); [simpl in H; lia|assumption].
Qed.

Lemma in_shape_skipn k : forall E s idx,
  length E = k -> in_shape idx (E ++ s) -> in_shape (skipn k idx) s.
Proof.
  induction k as [|k IH]; intros [|e E] s idx H Hi; try discriminate.
  - exact Hi.
  - simpl in Hi. apply in_shape_cons_inv in Hi. destruct Hi as (i & l & -> & _ & Hl).
    simpl. apply (IH E); [simpl in H; lia|assumption].
Qed.

(** [R^T ((R p + t) - t) = p] for an orthonormal [R]. *)
Lemma mtvec_mvec (m : mat3) (p t : vec3) :
  orthonormal m -> mtvec m (vsub (vadd (mvec m p) t) t) = p.
Proof.
  intros H. pose proof (orthonormal_columns m H) as C.
  pose proof (C 0%nat 0%nat) as C00. pose proof (C 0%nat 1%nat) as C01.
  pose proof (C 0%nat 2%nat) as C02. pose proof (C 1%nat 1%nat) as C11.
  pose proof (C 1%nat 2%nat) as C12. pose proof (C 2%nat 2%nat) as C22.
  unfold identity_mat in *. cbn [Nat.eqb] in *.
  specialize (C00 ltac:(lia) ltac:(lia)). specialize (C01 ltac:(lia) ltac:(lia)).
  specialize (C02 ltac:(lia) ltac:(lia)). specialize (C11 ltac:(lia) ltac:(lia)).
  specialize (C12 ltac:(lia) ltac:(lia)). specialize (C22 ltac:(lia) ltac:(lia)).
  destruct p as [[x y] z]. destruct t as [[tx ty] tz].
  unfold mtvec, vsub, vadd, mvec.
  set (a := m 0%nat 0%nat) in *. set (b := m 0%nat 1%nat) in *.
  set (c := m 0%nat 2%nat) in *. set (d := m 1%nat 0%nat) in *.
  set (e := m 1%nat 1%nat) in *. set (f := m 1%nat 2%nat) in *.
  set (g := m 2%nat 0%nat) in *. set (h := m 2%nat 1%nat) in *.
  set (k := m 2%nat 2%nat) in *.
  apply vec3_eq.
  - transitivity ((a * a + d * d + g * g) * x + (a * b + d * e + g * h) * y
                  + (a * c + d * f + g * k) * z); [ring|].
    rewrite C00, C01, C02. ring.
  - transitivity ((a * b + d * e + g * h) * x + (b * b + e * e + h * h) * y
                  + (b * c + e * f + h * k) * z); [ring|].
    rewrite C01, C11, C12. ring.
  - transitivity ((a * c + d * f + g * k) * x + (b * c + e * f + h * k) * y
                  + (c * c + f * f + k * k) * z); [ring|].
    rewrite C02, C12, C22. ring.
Qed.

Section Points.

Variable self : QuatAffine.
Variables s E : list nat.
Variable extra_dims : nat.
Hypothesis Hrot : rshape (rotation self) = (3 :: 3 :: s)%nat.
Hypothesis Htrans : rshape (translation self) = (3 :: s)%nat.
Hypothesis Hextra : length E = extra_dims.

Lemma expanded_frame :
  returns (expand_extra_dims extra_dims (translation self) (rotation self))
    (fun '(t', r') =>
       denotes t' (3%nat :: repeat 1%nat extra_dims ++ s)
         (fun idx => match idx with
                     | c :: l => item (translation self) (c :: skipn extra_dims l)
                     | [] => 0
                     end) /\
       denotes r' (3%nat :: 3%nat :: repeat 1%nat extra_dims ++ s)
         (fun idx => match idx with
                     | j :: i :: l => item (rotation self) (j :: i :: skipn extra_dims l)
                     | _ => 0
                     end)).
Proof.
  apply expand_extra_dims_spec.
  - rewrite <- Htrans. apply denotes_self.
  - rewrite <- Hrot. apply denotes_self.
Qed.

(** [apply_to_point] computes [rotation . point + translation]. *)
Lemma apply_to_point_spec x y z g :
  denotes x (E ++ s) (fun idx => vec_get (g idx) 0) ->
  denotes y (E ++ s) (fun idx => vec_get (g idx) 1) ->
  denotes z (E ++ s) (fun idx => vec_get (g idx) 2) ->
  returns (apply_to_point self (Unstacked x y z) extra_dims)
    (fun '(p0, p1, p2) =>
       let image idx :=
         vadd (mvec (frame_rot self extra_dims idx) (g idx))
              (frame_trans self extra_dims idx) in
       denotes p0 (E ++ s) (fun idx => vec_get (image idx) 0) /\
       denotes p1 (E ++ s) (fun idx => vec_get (image idx) 1) /\
       denotes p2 (E ++ s) (fun idx => vec_get (image idx) 2)).
Proof.
  intros Hx Hy Hz. unfold apply_to_point.
  eapply returns_bind; [exact expanded_frame|].
  intros [t' r'] [Ht' Hr'].
  pose proof (bshape_ones extra_dims E s Hextra) as B.
  assert (B' : bshape (E ++ s) (repeat 1%nat extra_dims ++ s) = Some (E ++ s))
    by now rewrite bshape_comm.
  step (eapply apply_rot_to_vec_bl; [exact B|exact Hr'|exact Hx|exact Hy|exact Hz])
    as rp Hrp.
  destruct rp as [[r0 r1] r2]. destruct Hrp as (H0 & H1 & H2).
  step (eapply index_last_spec; [exact Ht'|lia]) as t0 Ht0.
  step (eapply (np_map2_br Rplus); [exact H0|exact Ht0|exact B']) as p0 Hp0.
  step (eapply index_last_spec; [exact Ht'|lia]) as t1 Ht1.
  step (eapply (np_map2_br Rplus); [exact H1|exact Ht1|exact B']) as p1 Hp1.
  step (eapply index_last_spec; [exact Ht'|lia]) as t2 Ht2.
  step (eapply (np_map2_br Rplus); [exact H2|exact Ht2|exact B']) as p2 Hp2.
  simpl. split; [|split];
    (eapply denotes_ext; [eassumption|]); intros idx Hi; cbv beta iota;
    rewrite (skipn_bidx_ones _ E s idx Hextra Hi);
    unfold frame_rot, frame_trans, mat_at, vec_at;
    destruct (g idx) as [[gx gy] gz]; reflexivity.
Qed.

(** [invert_point] computes [rotation^T . (point - translation)]. *)
Lemma invert_point_spec x y z g :
  denotes x (E ++ s) (fun idx => vec_get (g idx) 0) ->
  denotes y (E ++ s) (fun idx => vec_get (g idx) 1) ->
  denotes z (E ++ s) (fun idx => vec_get (g idx) 2) ->
  returns (invert_point self (Unstacked x y z) extra_dims)
    (fun '(p0, p1, p2) =>
       let preimage idx :=
         mtvec (frame_rot self extra_dims idx)
               (vsub (g idx) (frame_trans self extra_dims idx)) in
       denotes p0 (E ++ s) (fun idx => vec_get (preimage idx) 0) /\
       denotes p1 (E ++ s) (fun idx => vec_get (preimage idx) 1) /\
       denotes p2 (E ++ s) (fun idx => vec_get (preimage idx) 2)).
Proof.
  intros Hx Hy Hz. unfold invert_point.
  eapply returns_bind; [exact expanded_frame|].
  intros [t' r'] [Ht' Hr'].
  pose proof (bshape_ones extra_dims E s Hextra) as B.
  assert (B' : bshape (E ++ s) (repeat 1%nat extra_dims ++ s) = Some (E ++ s))
    by now rewrite bshape_comm.
  cbn [point_get bind].
  step (eapply index_last_spec; [exact Ht'|lia]) as t0 Ht0.
  step (eapply (np_map2_br Rminus); [exact Hx|exact Ht0|exact B']) as r0 Hr0.
  step (eapply index_last_spec; [exact Ht'|lia]) as t1 Ht1.
  step (eapply (np_map2_br Rminus); [exact Hy|exact Ht1|exact B']) as r1 Hr1.
  step (eapply index_last_spec; [exact Ht'|lia]) as t2 Ht2.
  step (eapply (np_map2_br Rminus); [exact Hz|exact Ht2|exact B']) as r2 Hr2.
  eapply returns_mono;
    [eapply apply_inverse_rot_to_vec_bl; [exact B|exact Hr'|exact Hr0|exact Hr1|exact Hr2]|].
  intros [[p0 p1] p2] (H0 & H1 & H2).
  simpl. split; [|split];
    (eapply denotes_ext; [eassumption|]); intros idx Hi; cbv beta iota;
    rewrite (skipn_bidx_ones _ E s idx Hextra Hi);
    unfold frame_rot, frame_trans, mat_at, vec_at;
    destruct (g idx) as [[gx gy] gz]; reflexivity.
Qed.

Lemma denotes_point_at x y z k :
  rshape (match k with 0%nat => x | 1%nat => y | _ => z end) = E ++ s ->
  (k < 3)%nat ->
  denotes (match k with 0%nat => x | 1%nat => y | _ => z end) (E ++ s)
    (fun idx => vec_get (point_at x y z idx) k).
Proof.
  intros H Hk. split; [exact H|]. intros idx _.
  destruct k as [|[|[|k]]]; try reflexivity; lia.
Qed.

(** C2: for a frame whose rotation matrices are orthonormal, a point given
    as three arrays whose shape is the frame's batch shape followed by
    [extra_dims] further axes, and the same [extra_dims] in both calls:
    [apply_to_point] returns rotation . point + translation, and
    [invert_point], which computes rotation^T . (point - translation),
    returns the point from it. *)
Theorem invert_point_apply_to_point px py pz :
  rshape px = E ++ s -> rshape py = E ++ s -> rshape pz = E ++ s ->
  (forall l, in_shape l s -> orthonormal (mat_at (rotation self) l)) ->
  returns (apply_to_point self (Unstacked px py pz) extra_dims)
    (fun '(q0, q1, q2) =>
       (forall idx, in_shape idx (E ++ s) ->
          point_at q0 q1 q2 idx
          = vadd (mvec (frame_rot self extra_dims idx) (point_at px py pz idx))
                 (frame_trans self extra_dims idx)) /\
       returns (invert_point self (Unstacked q0 q1 q2) extra_dims)
         (fun '(r0, r1, r2) =>
            same_array r0 px /\ same_array r1 py /\ same_array r2 pz)).
Proof.
  intros Hx Hy Hz Hortho.
  pose proof (denotes_point_at px py pz 0%nat Hx ltac:(lia)) as Dx.
  pose proof (denotes_point_at px py pz 1%nat Hy ltac:(lia)) as Dy.
  pose proof (denotes_point_at px py pz 2%nat Hz ltac:(lia)) as Dz.
  eapply returns_mono; [apply (apply_to_point_spec _ _ _ _ Dx Dy Dz)|].
  intros [[q0 q1] q2] (H0 & H1 & H2). cbv zeta in H0, H1, H2. split.
  - intros idx Hi. unfold point_at at 1.
    rewrite (denotes_item _ _ _ _ H0 Hi), (denotes_item _ _ _ _ H1 Hi),
      (denotes_item _ _ _ _ H2 Hi).
    destruct (vadd _ _) as [[a b] c]. reflexivity.
  - eapply returns_mono; [apply (invert_point_spec _ _ _ _ H0 H1 H2)|].
    intros [[r0 r1] r2] (G0 & G1 & G2). cbv zeta in G0, G1, G2.
    assert (Back : forall idx, in_shape idx (E ++ s) ->
              mtvec (frame_rot self extra_dims idx)
                (vsub (vadd (mvec (frame_rot self extra_dims idx) (point_at px py pz idx))
                            (frame_trans self extra_dims idx))
                      (frame_trans self extra_dims idx))
              = point_at px py pz idx).
    { intros idx Hi. apply mtvec_mvec. apply Hortho.
      apply (in_shape_skipn _ E s idx Hextra Hi). }
    unfold same_array.
    rewrite (denotes_shape _ _ _ G0), (denotes_shape _ _ _ G1), (denotes_shape _ _ _ G2).
    rewrite Hx, Hy, Hz.
    split; [|split]; (split; [reflexivity|]); intros idx Hi.
    + rewrite (denotes_item _ _ _ _ G0 Hi), (Back idx Hi). reflexivity.
    + rewrite (denotes_item _ _ _ _ G1 Hi), (Back idx Hi). reflexivity.
    + rewrite (denotes_item _ _ _ _ G2 Hi), (Back idx Hi). reflexivity.
Qed.

End Points.

Lemma orthonormal_identity s l : orthonormal (mat_at (full_mat s identity_mat) l).
Proof.
  intros i j Hi Hj. unfold mmul, mtranspose, mat_at, full_mat, identity_mat. cbn [item].
  destruct i as [|[|[|i]]]; [| | |lia];
    (destruct j as [|[|[|j]]]; [| | |lia]); cbn [Nat.eqb]; ring.
Qed.

(** Four points for each of two identity frames, [extra_dims] being 1. *)
Lemma invert_point_apply_to_point_witness :
  returns (apply_to_point (identity_frame [2]%nat (1, 2, 3))
             (Unstacked points_2_4 points_2_4 points_2_4) 1)
    (fun '(q0, q1, q2) =>
       returns (invert_point (identity_frame [2]%nat (1, 2, 3)) (Unstacked q0 q1 q2) 1)
         (fun '(r0, r1, r2) =>
            same_array r0 points_2_4 /\ same_array r1 points_2_4 /\
            same_array r2 points_2_4)).
Proof.
  eapply returns_mono.
  - apply (invert_point_apply_to_point (identity_frame [2]%nat (1, 2, 3)) [2]%nat
             [4]%nat 1 eq_refl eq_refl eq_refl points_2_4 points_2_4 points_2_4
             eq_refl eq_refl eq_refl).
    intros l _. apply orthonormal_identity.
  - intros [[q0 q1] q2] [_ H]. exact H.
Defined.

(** * The unbatched canonical transform *)

Lemma index_col_spec a i d b f :
  denotes a [d; b] f -> (i < d)%nat ->
  returns (index_col a i) (fun r => denotes r [b] (fun idx => f (i :: idx))).
Proof.
  intros [Ha Hf] Hi. unfold index_col, np_ndim, np_take. rewrite Ha. simpl.
  destruct (Nat.ltb_spec i d); [|lia]. simpl. split; [reflexivity|].
  simpl. intros idx Hidx. apply Hf. now apply in_shape_cons.
Qed.

Lemma np_stack_first_1 a0 a1 a2 b f0 f1 f2 :
  denotes a0 [b] f0 -> denotes a1 [b] f1 -> denotes a2 [b] f2 ->
  returns (np_stack_first [a0; a1; a2])
    (fun r => denotes r [b; 3%nat]
       (fun idx => match idx with
                   | [ib; k] => nth k [f0 [ib]; f1 [ib]; f2 [ib]] 0
                   | _ => 0
                   end)).
Proof.
  intros [H0 F0] [H1 F1] [H2 F2]. unfold np_stack_first, np_stack, np_ndim. simpl.
  rewrite H0, H1, H2, shape_eqb_refl. simpl.
  split; [reflexivity|]. simpl. intros idx Hi.
  apply in_shape_cons_inv in Hi. destruct Hi as (ib & l1 & -> & Hib & Hi).
  apply in_shape_cons_inv in Hi. destruct Hi as (k & l2 & -> & Hk & Hi).
  inversion Hi; subst.
  assert (V : in_shape [ib] [b]) by (apply in_shape_cons; split; [assumption|constructor]).
  simpl. destruct k as [|[|[|k]]]; simpl; auto; lia.
Qed.

Lemma np_stack_first_2 a0 a1 a2 b d f0 f1 f2 :
  denotes a0 [b; d] f0 -> denotes a1 [b; d] f1 -> denotes a2 [b; d] f2 ->
  returns (np_stack_first [a0; a1; a2])
    (fun r => denotes r [b; d; 3%nat]
       (fun idx => match idx with
                   | [ib; j; k] => nth k [f0 [ib; j]; f1 [ib; j]; f2 [ib; j]] 0
                   | _ => 0
                   end)).
Proof.
  intros [H0 F0] [H1 F1] [H2 F2]. unfold np_stack_first, np_stack, np_ndim. simpl.
  rewrite H0, H1, H2, shape_eqb_refl. simpl.
  split; [reflexivity|]. simpl. intros idx Hi.
  apply in_shape_cons_inv in Hi. destruct Hi as (ib & l1 & -> & Hib & Hi).
  apply in_shape_cons_inv in Hi. destruct Hi as (j & l2 & -> & Hj & Hi).
  apply in_shape_cons_inv in Hi. destruct Hi as (k & l3 & -> & Hk & Hi).
  inversion Hi; subst.
  assert (V : in_shape [ib; j] [b; d]).
  { apply in_shape_cons; split; [assumption|].
    apply in_shape_cons; split; [assumption|constructor]. }
  simpl. destruct k as [|[|[|k]]]; simpl; auto; lia.
Qed.

(** Every index of a matrix array in the layout (3, 3, b). *)
Ltac mat_first_cases idx Hi :=
  let ib := fresh "ib" in let j := fresh "j" in let i := fresh "i" in
  let l1 := fresh "l" in let l2 := fresh "l" in let l3 := fresh "l" in
  let Hib := fresh "Hib" in let Hj := fresh "Hj" in let Hii := fresh "Hi" in
  apply in_shape_cons_inv in Hi; destruct Hi as (ib & l1 & -> & Hib & Hi);
  apply in_shape_cons_inv in Hi; destruct Hi as (j & l2 & -> & Hj & Hi);
  apply in_shape_cons_inv in Hi; destruct Hi as (i & l3 & -> & Hii & Hi);
  inversion Hi; subst;
  destruct i as [|[|[|i]]]; [| | |exfalso; lia];
  (destruct j as [|[|[|j]]]; [| | |exfalso; lia]).

Lemma stack_rows_spec a0 a1 a2 a3 a4 a5 a6 a7 a8 b f0 f1 f2 f3 f4 f5 f6 f7 f8 :
  Forall2 (fun a f => denotes a [b] f) [a0; a1; a2; a3; a4; a5; a6; a7; a8]
    [f0; f1; f2; f3; f4; f5; f6; f7; f8] ->
  returns (stack_rows [a0; a1; a2] [a3; a4; a5] [a6; a7; a8])
    (fun r => denotes r [b; 3; 3]%nat
       (mat_entries_first
          (fun l => rows9 [f0 l; f1 l; f2 l; f3 l; f4 l; f5 l; f6 l; f7 l; f8 l]))).
Proof.
  intros H. unfold stack_rows.
  repeat match type of H with
         | Forall2 _ (_ :: _) _ =>
             let Ha := fresh "Ha" in
             inversion H as [|? ? ? ? Ha H']; subst; clear H; rename H' into H
         end.
  step (eapply np_stack_first_1; eassumption) as row0 Hrow0.
  step (eapply np_stack_first_1; eassumption) as row1 Hrow1.
  step (eapply np_stack_first_1; eassumption) as row2 Hrow2.
  finish (eapply np_stack_first_2; eassumption).
  intros r Hr. eapply denotes_ext; [exact Hr|].
  intros idx Hi. mat_first_cases idx Hi; reflexivity.
Qed.

Lemma index_first2_spec a i j b M :
  denotes a [b; 3; 3]%nat (mat_entries_first M) -> (i < 3)%nat -> (j < 3)%nat ->
  returns (index_first2 a i j) (fun r => denotes r [b] (fun l => M l i j)).
Proof.
  intros [Ha Hf] Hi Hj. unfold index_first2, index_first, np_ndim, np_take.
  rewrite Ha. simpl.
  destruct (Nat.ltb_spec i 3); [|lia]. simpl.
  destruct (Nat.ltb_spec j 3); [|lia]. simpl.
  split; [reflexivity|]. simpl. intros idx Hidx.
  apply in_shape_cons_inv in Hidx. destruct Hidx as (ib & l & -> & Hib & Hl).
  inversion Hl; subst. simpl.
  rewrite Hf; [reflexivity|].
  repeat (apply in_shape_cons; split; [assumption|]). constructor.
Qed.

Lemma _multiply_np_spec a b d A B :
  denotes a [d; 3; 3]%nat (mat_entries_first A) ->
  denotes b [d; 3; 3]%nat (mat_entries_first B) ->
  returns (_multiply_np a b)
    (fun c => denotes c [d; 3; 3]%nat (mat_entries_first (fun l => mmul (A l) (B l)))).
Proof.
  intros Ha Hb. unfold _multiply_np. cbv zeta.
  assert (E : forall i j, (i < 3)%nat -> (j < 3)%nat ->
            returns
              (sum3 (prod_of (index_first2 a i 0) (index_first2 b 0 j))
                    (prod_of (index_first2 a i 1) (index_first2 b 1 j))
                    (prod_of (index_first2 a i 2) (index_first2 b 2 j)))
              (fun c => denotes c [d] (fun l => mmul (A l) (B l) i j))).
  { intros i j Hi Hj. unfold mmul.
    apply (sum3_same _ _ _ [d]
             (fun l => A l i 0%nat * B l 0%nat j)
             (fun l => A l i 1%nat * B l 1%nat j)
             (fun l => A l i 2%nat * B l 2%nat j));
      apply (prod_of_same _ _ [d] (fun l => A l i _) (fun l => B l _ j));
      eapply index_first2_spec; eassumption || lia. }
  step (apply E; lia) as e00 He00.
  step (apply E; lia) as e01 He01.
  step (apply E; lia) as e02 He02.
  step (eapply np_stack_first_1; eassumption) as row0 Hrow0.
  step (apply E; lia) as e10 He10.
  step (apply E; lia) as e11 He11.
  step (apply E; lia) as e12 He12.
  step (eapply np_stack_first_1; eassumption) as row1 Hrow1.
  step (apply E; lia) as e20 He20.
  step (apply E; lia) as e21 He21.
  step (apply E; lia) as e22 He22.
  step (eapply np_stack_first_1; eassumption) as row2 Hrow2.
  finish (eapply np_stack_first_2; eassumption).
  intros c Hc. eapply denotes_ext; [exact Hc|].
  intros idx Hi. mat_first_cases idx Hi; reflexivity.
Qed.

Lemma apply_rot_to_vec_np_stacked rot v b A V :
  denotes rot [b; 3; 3]%nat (mat_entries_first A) ->
  denotes v [3; b]%nat (vec_entries V) ->
  returns (apply_rot_to_vec_np rot (Stacked v) true)
    (fun '(r0, r1, r2) =>
       denotes r0 [b] (fun l => vec_get (mvec (A l) (V l)) 0) /\
       denotes r1 [b] (fun l => vec_get (mvec (A l) (V l)) 1) /\
       denotes r2 [b] (fun l => vec_get (mvec (A l) (V l)) 2)).
Proof.
  intros Hrot Hv. unfold apply_rot_to_vec_np, unpack_vec.
  eapply returns_bind with
    (P := fun '(x, y, z) =>
            denotes x [b] (fun l => vec_get (V l) 0) /\
            denotes y [b] (fun l => vec_get (V l) 1) /\
            denotes z [b] (fun l => vec_get (V l) 2)).
  { step (eapply index_last_spec; [eassumption|lia]) as x Hx.
    step (eapply index_last_spec; [eassumption|lia]) as y Hy.
    step (eapply index_last_spec; [eassumption|lia]) as z Hz.
    simpl. auto. }
  intros [[x y] z] (Hx & Hy & Hz).
  step (eapply lin3_same;
        [eapply index_first2_spec; [eassumption|lia|lia] |eassumption
        |eapply index_first2_spec; [eassumption|lia|lia] |eassumption
        |eapply index_first2_spec; [eassumption|lia|lia] |eassumption]) as r0 Hr0.
  step (eapply lin3_same;
        [eapply index_first2_spec; [eassumption|lia|lia] |eassumption
        |eapply index_first2_spec; [eassumption|lia|lia] |eassumption
        |eapply index_first2_spec; [eassumption|lia|lia] |eassumption]) as r1 Hr1.
  step (eapply lin3_same;
        [eapply index_first2_spec; [eassumption|lia|lia] |eassumption
        |eapply index_first2_spec; [eassumption|lia|lia] |eassumption
        |eapply index_first2_spec; [eassumption|lia|lia] |eassumption]) as r2 Hr2.
  simpl. split; [|split];
    (eapply denotes_ext; [eassumption|]);
    intros l Hl; simpl; destruct (V l) as [[vx vy] vz]; reflexivity.
Qed.

Lemma np_T_2 a d0 d1 f :
  denotes a [d0; d1] f ->
  denotes (np_T a) [d1; d0]
    (fun idx => match idx with
                | [i; j] => f [j; i]
                | _ => 0
                end).
Proof.
  intros [Ha Hf]. split; [simpl; now rewrite Ha|]. intros idx Hi.
  apply in_shape_cons_inv in Hi. destruct Hi as (i & l1 & -> & Hi' & Hi).
  apply in_shape_cons_inv in Hi. destruct Hi as (j & l2 & -> & Hj & Hi).
  inversion Hi; subst. simpl. apply Hf.
  repeat (apply in_shape_cons; split; [assumption|]). constructor.
Qed.

Lemma np_transpose_201_spec a b M :
  denotes a [b; 3; 3]%nat (mat_entries_first M) ->
  returns (np_transpose_201 a) (fun r => denotes r [3; 3; b]%nat (mat_entries M)).
Proof.
  intros [Ha Hf]. unfold np_transpose_201. rewrite Ha.
  split; [reflexivity|]. intros idx Hi.
  apply in_shape_cons_inv in Hi. destruct Hi as (j & l1 & -> & Hj & Hi).
  apply in_shape_cons_inv in Hi. destruct Hi as (i & l2 & -> & Hi' & Hi).
  apply in_shape_cons_inv in Hi. destruct Hi as (ib & l3 & -> & Hib & Hi).
  inversion Hi; subst. cbn [item mat_entries].
  rewrite Hf; [reflexivity|].
  repeat (apply in_shape_cons; split; [assumption|]). constructor.
Qed.

Lemma make_canonical_transform_np_spec n_xyz ca_xyz c_xyz b :
  rshape n_xyz = [3; b]%nat -> rshape ca_xyz = [3; b]%nat -> rshape c_xyz = [3; b]%nat ->
  returns (make_canonical_transform_np n_xyz ca_xyz c_xyz)
    (fun '(translation, rotation) =>
       denotes translation [3; b]%nat (vec_entries (fun l => vneg (vec_at ca_xyz l))) /\
       denotes rotation [3; 3; b]%nat
         (mat_entries (fun l => canonical_rotation_np (vec_at n_xyz l) (vec_at ca_xyz l)
                                  (vec_at c_xyz l)))).
Proof.
  intros Hn Hca Hc. unfold make_canonical_transform_np.
  pose proof (denotes_vec_at _ _ Hn) as Dn.
  pose proof (denotes_vec_at _ _ Hca) as Dca.
  pose proof (denotes_vec_at _ _ Hc) as Dc.
  pose (N := fun l => vadd (vec_at n_xyz l) (vneg (vec_at ca_xyz l))).
  pose (C := fun l => vadd (vec_at c_xyz l) (vneg (vec_at ca_xyz l))).
  step (apply assert_true; unfold np_ndim; rewrite Hn; reflexivity) as u0 U0.
  step (eapply shape_neg_1; eassumption) as d Hd. subst d.
  step (apply assert_true; reflexivity) as u1 U1.
  step (apply assert_true; rewrite Hn, Hca, Hc, !shape_eqb_refl; reflexivity) as u2 U2.
  cbv zeta.
  step (eapply np_add_same; [exact Dn | den]) as n1 Hn1.
  assert (Dn1 : denotes n1 [3; b]%nat (vec_entries N)).
  { eapply denotes_ext; [exact Hn1|]. intros idx Hi.
    apply in_shape_cons_inv in Hi. destruct Hi as (k & l & -> & Hk & Hl).
    now apply vec_entries_shift. }
  clear Hn1.
  step (eapply np_add_same; [exact Dc | den]) as c1 Hc1.
  assert (Dc1 : denotes c1 [3; b]%nat (vec_entries C)).
  { eapply denotes_ext; [exact Hc1|]. intros idx Hi.
    apply in_shape_cons_inv in Hi. destruct Hi as (k & l & -> & Hk & Hl).
    now apply vec_entries_shift. }
  clear Hc1.
  step (eapply index_col_spec; [exact Dc1|lia]) as c_x Hcx.
  step (eapply index_col_spec; [exact Dc1|lia]) as c_y Hcy.
  step (eapply index_col_spec; [exact Dc1|lia]) as c_z Hcz.
  cbn [vec_entries] in Hcx, Hcy, Hcz.
  step (eapply np_add_same; den) as s1 Hs1.
  step (eapply np_divide_same; den) as sin_c1 Hsin1.
  step (eapply np_add_same; den) as s2 Hs2.
  step (eapply np_divide_same; den) as cos_c1 Hcos1.
  step (eapply stack_rows_spec; dens) as c1m Hc1m.
  assert (Dc1m : denotes c1m [b; 3; 3]%nat (mat_entries_first (fun l => c1_rot_np (C l)))).
  { eapply denotes_ext; [exact Hc1m|]. intros idx Hi.
    mat_first_cases idx Hi; cbn [mat_entries_first]; unfold c1_rot_np;
      destruct (C [ib]) as [[x y] z]; reflexivity. }
  clear Hc1m.
  step (eapply np_add_same; den) as s3 Hs3.
  step (eapply np_add_same; den) as s4 Hs4.
  step (eapply np_divide_same; den) as sin_c2 Hsin2.
  step (eapply np_add_same; den) as s5 Hs5.
  step (eapply np_add_same; den) as s6 Hs6.
  step (eapply np_add_same; den) as s7 Hs7.
  step (eapply np_divide_same; den) as cos_c2 Hcos2.
  step (eapply stack_rows_spec; dens) as c2m Hc2m.
  assert (Dc2m : denotes c2m [b; 3; 3]%nat (mat_entries_first (fun l => c2_rot_np (C l)))).
  { eapply denotes_ext; [exact Hc2m|]. intros idx Hi.
    mat_first_cases idx Hi; cbn [mat_entries_first]; unfold c2_rot_np;
      destruct (C [ib]) as [[x y] z]; reflexivity. }
  clear Hc2m.
  step (eapply _multiply_np_spec; eassumption) as crot Hcrot.
  step (eapply apply_rot_to_vec_np_stacked; eassumption) as nr Hnr.
  destruct nr as [[n0 n1'] n2]. destruct Hnr as (Hn0 & Hn1' & Hn2).
  step (eapply np_stack_first_1; eassumption) as nst Hnst.
  pose (N2 := fun l => mvec (mmul (c2_rot_np (C l)) (c1_rot_np (C l))) (N l)).
  assert (Dn2 : denotes (np_T nst) [3; b]%nat (vec_entries N2)).
  { eapply denotes_ext; [apply np_T_2; exact Hnst|]. intros idx Hi.
    apply in_shape_cons_inv in Hi. destruct Hi as (k & l & -> & Hk & Hl).
    apply in_shape_cons_inv in Hl. destruct Hl as (ib & l' & -> & Hib & Hl').
    inversion Hl'; subst.
    destruct k as [|[|[|k]]]; try reflexivity; lia. }
  clear Hnst.
  step (eapply index_col_spec; [exact Dn2|lia]) as n_x Hnx.
  step (eapply index_col_spec; [exact Dn2|lia]) as n_y Hny.
  step (eapply index_col_spec; [exact Dn2|lia]) as n_z Hnz.
  cbn [vec_entries] in Hny, Hnz.
  step (eapply np_add_same; den) as s8 Hs8.
  step (eapply np_divide_same; den) as sin_n Hsinn.
  step (eapply np_add_same; den) as s9 Hs9.
  step (eapply np_divide_same; den) as cos_n Hcosn.
  step (eapply stack_rows_spec; dens) as nm Hnm.
  assert (Dnm : denotes nm [b; 3; 3]%nat (mat_entries_first (fun l => n_rot_np (N2 l)))).
  { eapply denotes_ext; [exact Hnm|]. intros idx Hi.
    mat_first_cases idx Hi; cbn [mat_entries_first]; unfold n_rot_np;
      destruct (N2 [ib]) as [[x y] z]; reflexivity. }
  clear Hnm.
  step (eapply _multiply_np_spec; eassumption) as m Hm.
  step (eapply np_transpose_201_spec; exact Hm) as r Hr.
  simpl. split.
  - eapply denotes_ext; [apply np_negative_spec; exact Dca|].
    intros idx Hi. apply in_shape_cons_inv in Hi. destruct Hi as (k & l & -> & Hk & Hl).
    destruct k as [|[|[|k]]]; try reflexivity; lia.
  - exact Hr.
Qed.

(** ** The two variants, entry by entry *)

Lemma c1_rot_np_eq c : c1_rot_np c = c1_rot c.
Proof.
  destruct c as [[x y] z]. unfold c1_rot_np, c1_rot.
  replace (eps20 + x ^ 2 + y ^ 2) with (x ^ 2 + y ^ 2 + eps20) by ring. reflexivity.
Qed.

Lemma n_rot_np_eq n : n_rot_np n = n_rot n.
Proof.
  destruct n as [[x y] z]. unfold n_rot_np, n_rot.
  replace (eps20 + y ^ 2 + z ^ 2) with (y ^ 2 + z ^ 2 + eps20) by ring. reflexivity.
Qed.

(** Where the two normalisations of step 3 give the same matrix. *)
Lemma c2_rot_np_eq x y z :
  sqrt (x ^ 2 + y ^ 2 + z ^ 2) + eps20 = sqrt (eps20 + x ^ 2 + y ^ 2 + z ^ 2)
  \/ (x, y, z) = (0, 0, 0) ->
  c2_rot_np (x, y, z) = c2_rot (x, y, z).
Proof.
  intros [H|H]; unfold c2_rot_np, c2_rot, sumsq.
  - rewrite <- H. reflexivity.
  - injection H as -> -> ->.
    replace (0 ^ 2 + 0 ^ 2) with 0 by ring. rewrite sqrt_0.
    unfold Rdiv. rewrite !Rmult_0_l. reflexivity.
Qed.

Lemma canonical_rotation_np_eq n ca c :
  (let '(x, y, z) := vadd c (vneg ca) in
   sqrt (x ^ 2 + y ^ 2 + z ^ 2) + eps20 = sqrt (eps20 + x ^ 2 + y ^ 2 + z ^ 2)
   \/ (x, y, z) = (0, 0, 0)) ->
  canonical_rotation_np n ca c = canonical_rotation n ca c.
Proof.
  unfold canonical_rotation_np, canonical_rotation. cbv zeta.
  destruct (vadd c (vneg ca)) as [[x y] z]. intros H.
  now rewrite c1_rot_np_eq, n_rot_np_eq, (c2_rot_np_eq _ _ _ H).
Qed.

(** The entry (0, 2) of either rotation is [sin_c2]. *)
Lemma canonical_rotation_0_2 n ca c :
  canonical_rotation n ca c 0%nat 2%nat
  = (let '(_, _, z) := vadd c (vneg ca) in z / (sqrt (sumsq (vadd c (vneg ca))) + eps20)).
Proof.
  unfold canonical_rotation. cbv zeta.
  destruct (vadd c (vneg ca)) as [[x y] z].
  destruct (mvec _ (vadd n (vneg ca))) as [[p q] t].
  unfold mmul, n_rot, c2_rot, c1_rot, rows9. cbn [nth Nat.mul Nat.add]. ring.
Qed.

Lemma canonical_rotation_np_0_2 n ca c :
  canonical_rotation_np n ca c 0%nat 2%nat
  = (let '(x, y, z) := vadd c (vneg ca) in z / sqrt (eps20 + x ^ 2 + y ^ 2 + z ^ 2)).
Proof.
  unfold canonical_rotation_np. cbv zeta.
  destruct (vadd c (vneg ca)) as [[x y] z].
  destruct (mvec _ (vadd n (vneg ca))) as [[p q] t].
  unfold mmul, n_rot_np, c2_rot_np, c1_rot_np, rows9. cbn [nth Nat.mul Nat.add]. ring.
Qed.

Lemma vec_at_newaxis_first a l : vec_at (newaxis_first a) (l ++ [0%nat]) = vec_at a l.
Proof.
  unfold vec_at, newaxis_first. cbn [item].
  rewrite !app_comm_cons, !removelast_last. reflexivity.
Qed.

Lemma vec_at_array_1_3 v l : vec_at (array_1_3 v) l = v.
Proof. destruct v as [[x y] z]. reflexivity. Qed.

(** * How close the rotations of the two variants are *)

Lemma Rabs_div_bound a b t : 0 < b -> Rabs a <= t * b -> Rabs (a / b) <= t.
Proof.
  intros Hb Ha. unfold Rdiv. rewrite Rabs_mult, (Rabs_right (/ b)).
  - apply Rmult_le_reg_r with b; [assumption|].
    rewrite Rmult_assoc, Rinv_l by lra. lra.
  - apply Rle_ge. left. now apply Rinv_0_lt_compat.
Qed.

Lemma Rabs_scaled a u t : Rabs a <= t -> Rabs u <= 1 -> Rabs (a * u) <= t.
Proof.
  intros Ha Hu. rewrite Rabs_mult.
  pose proof (Rabs_pos a). pose proof (Rabs_pos u). nra.
Qed.

Lemma prod_close a a' b b' da db :
  Rabs (a - a') <= da -> Rabs (b - b') <= db -> Rabs b <= 1 -> Rabs a' <= 1 ->
  Rabs (a * b - a' * b') <= da + db.
Proof.
  intros Ha Hb B A'.
  replace (a * b - a' * b') with ((a - a') * b + (b - b') * a') by ring.
  eapply Rle_trans; [apply Rabs_triang|].
  apply Rplus_le_compat; now apply Rabs_scaled.
Qed.

Lemma lin2_close A u B v ta tb :
  Rabs A <= ta -> Rabs u <= 1 -> Rabs B <= tb -> Rabs v <= 1 ->
  Rabs (A * u + B * v) <= ta + tb.
Proof.
  intros HA Hu HB Hv. eapply Rle_trans; [apply Rabs_triang|].
  apply Rplus_le_compat; now apply Rabs_scaled.
Qed.

(** The guarded normalisation of [(q, w)] moves by at most a relative
    change of [w]. *)
Lemma guarded_unit_close q w w' rho :
  0 <= rho ->
  Rabs (w - w') <= rho * Rabs w -> Rabs (w - w') <= rho * Rabs w' ->
  Rabs (q / sqrt (q ^ 2 + w ^ 2 + eps20) - q / sqrt (q ^ 2 + w' ^ 2 + eps20)) <= rho /\
  Rabs (- w / sqrt (q ^ 2 + w ^ 2 + eps20) - - w' / sqrt (q ^ 2 + w' ^ 2 + eps20))
  <= 2 * rho.
Proof.
  intros Hrho H1 H2.
  destruct (guarded_norm q w) as (_ & _ & Hn & Hnn & _ & _ & Hq & Hw).
  destruct (guarded_norm q w') as (_ & _ & Hn' & Hnn' & _ & _ & Hq' & Hw').
  set (n := sqrt (q ^ 2 + w ^ 2 + eps20)) in *.
  set (n' := sqrt (q ^ 2 + w' ^ 2 + eps20)) in *.
  pose proof (Rabs_pos (w - w')) as P0. pose proof (Rabs_pos w) as Pw.
  pose proof (Rabs_pos w') as Pw'. pose proof (Rabs_pos q) as Pq.
  (* the norms differ by no more than the coordinates *)
  assert (D : Rabs (n - n') <= Rabs (w - w')).
  { replace (n - n') with ((w - w') * (w + w') / (n + n')) by (field_simplify_eq; nra).
    apply Rabs_div_bound; [lra|].
    rewrite Rabs_mult. apply Rmult_le_compat_l; [assumption|].
    eapply Rle_trans; [apply Rabs_triang|]. lra. }
  assert (Hnn0 : 0 < n * n') by now apply Rmult_lt_0_compat.
  split.
  - replace (q / n - q / n') with (q * (n' - n) / (n * n')) by (field; lra).
    apply Rabs_div_bound; [assumption|].
    rewrite Rabs_mult, (Rabs_minus_sym n' n).
    pose proof (Rabs_pos (n - n')) as Pn.
    assert (B : Rabs (n - n') <= rho * n') by nra.
    replace (rho * (n * n')) with (n * (rho * n')) by ring.
    apply Rmult_le_compat; lra.
  - replace (- w / n - - w' / n') with ((w' * (n - n') + (w' - w) * n') / (n * n'))
      by (field; lra).
    apply Rabs_div_bound; [assumption|].
    eapply Rle_trans; [apply Rabs_triang|].
    rewrite !Rabs_mult, (Rabs_minus_sym w' w), (Rabs_right n') by lra.
    pose proof (Rabs_pos (n - n')) as Pn.
    assert (B : Rabs (w - w') <= rho * n) by nra.
    assert (T1 : Rabs w' * Rabs (n - n') <= n' * (rho * n)).
    { apply Rmult_le_compat; lra. }
    assert (T2 : Rabs (w - w') * n' <= rho * n * n').
    { apply Rmult_le_compat_r; lra. }
    lra.
Qed.

(** The rotation both variants build, written on the cosine and sine of
    the three elementary rotations. *)
Lemma pipeline_entries (co si C2 S2 a b c0 q w n3 : R) i j :
  q = si * a + co * b ->
  w = - S2 * (co * a - si * b) + C2 * c0 ->
  n3 = sqrt (q ^ 2 + w ^ 2 + eps20) ->
  (i < 3)%nat -> (j < 3)%nat ->
  mmul (n_rot (mvec (mmul (y_rot C2 S2) (rows9 [co; - si; 0; si; co; 0; 0; 0; 1]))
                 (a, b, c0)))
       (mmul (y_rot C2 S2) (rows9 [co; - si; 0; si; co; 0; 0; 0; 1])) i j
  = rows9 [C2 * co; - (C2 * si); S2;
           q / n3 * si + - w / n3 * S2 * co; q / n3 * co - - w / n3 * S2 * si;
           - (- w / n3 * C2);
           - w / n3 * si - q / n3 * S2 * co; - w / n3 * co + q / n3 * S2 * si;
           q / n3 * C2] i j.
Proof.
  intros Eq Ew En Hi Hj.
  assert (E : mvec (mmul (y_rot C2 S2) (rows9 [co; - si; 0; si; co; 0; 0; 0; 1])) (a, b, c0)
              = (C2 * (co * a - si * b) + S2 * c0, q, w)).
  { rewrite Eq, Ew. unfold mvec, mmul, y_rot, rows9. cbn [nth Nat.mul Nat.add].
    apply vec3_eq; ring. }
  rewrite E. unfold n_rot. cbv zeta. rewrite <- En.
  destruct i as [|[|[|i]]]; try lia; (destruct j as [|[|[|j]]]; try lia);
    unfold mmul, y_rot, rows9; cbn [nth Nat.mul Nat.add]; ring.
Qed.

Lemma ratio_close u n n' rho :
  0 < n -> 0 < n' -> Rabs u <= n' ->
  Rabs (n - n') <= rho * n ->
  Rabs (u / n - u / n') <= rho.
Proof.
  intros Hn Hn' Hu H.
  replace (u / n - u / n') with (u * (n' - n) / (n * n')) by (field; lra).
  apply Rabs_div_bound; [now apply Rmult_lt_0_compat|].
  rewrite Rabs_mult, (Rabs_minus_sym n' n).
  replace (rho * (n * n')) with (n' * (rho * n)) by ring.
  pose proof (Rabs_pos u). pose proof (Rabs_pos (n - n')).
  apply Rmult_le_compat; lra.
Qed.

(** Two denominators that differ by a fraction [rho] of either give
    rotations within [4 rho] of each other. *)
Lemma pipeline_close (co si r z n2 n2' rho a b c0 : R) i j :
  Rabs co <= 1 -> Rabs si <= 1 ->
  0 <= r -> 0 < n2 -> 0 < n2' -> r <= n2 -> Rabs z <= n2 -> r <= n2' -> Rabs z <= n2' ->
  0 <= rho -> Rabs (n2 - n2') <= rho * n2 -> Rabs (n2 - n2') <= rho * n2' ->
  (i < 3)%nat -> (j < 3)%nat ->
  Rabs (mmul (n_rot (mvec (mmul (y_rot (r / n2) (z / n2))
                                (rows9 [co; - si; 0; si; co; 0; 0; 0; 1])) (a, b, c0)))
             (mmul (y_rot (r / n2) (z / n2)) (rows9 [co; - si; 0; si; co; 0; 0; 0; 1])) i j
        - mmul (n_rot (mvec (mmul (y_rot (r / n2') (z / n2'))
                                  (rows9 [co; - si; 0; si; co; 0; 0; 0; 1])) (a, b, c0)))
               (mmul (y_rot (r / n2') (z / n2')) (rows9 [co; - si; 0; si; co; 0; 0; 0; 1]))
               i j)
  <= 4 * rho.
Proof.
  intros Hco Hsi Hr Hn Hn' Hrn Hzn Hrn' Hzn' Hrho H1 H2 Hi Hj.
  assert (Hrabs : Rabs r = r) by (apply Rabs_right; lra).
  set (q := si * a + co * b).
  set (U := - z * (co * a - si * b) + r * c0).
  set (w := - (z / n2) * (co * a - si * b) + r / n2 * c0).
  set (w' := - (z / n2') * (co * a - si * b) + r / n2' * c0).
  rewrite (pipeline_entries co si (r / n2) (z / n2) a b c0 q w _ i j
             eq_refl eq_refl eq_refl Hi Hj).
  rewrite (pipeline_entries co si (r / n2') (z / n2') a b c0 q w' _ i j
             eq_refl eq_refl eq_refl Hi Hj).
  (* the six quantities and how far they move *)
  assert (BC : Rabs (r / n2) <= 1) by (apply unit_ratio; lra).
  assert (BS : Rabs (z / n2) <= 1) by (apply unit_ratio; lra).
  assert (BC' : Rabs (r / n2') <= 1) by (apply unit_ratio; lra).
  assert (BS' : Rabs (z / n2') <= 1) by (apply unit_ratio; lra).
  assert (DC : Rabs (r / n2 - r / n2') <= rho) by (apply ratio_close; lra).
  assert (DS : Rabs (z / n2 - z / n2') <= rho) by (apply ratio_close; lra).
  assert (W1 : Rabs (w - w') <= rho * Rabs w).
  { replace (w - w') with (w * ((n2' - n2) / n2')) by (unfold w, w'; field; lra).
    rewrite Rabs_mult, Rmult_comm. apply Rmult_le_compat_r; [apply Rabs_pos|].
    apply Rabs_div_bound; [assumption|]. now rewrite Rabs_minus_sym. }
  assert (W2 : Rabs (w - w') <= rho * Rabs w').
  { replace (w - w') with (w' * ((n2' - n2) / n2)) by (unfold w, w'; field; lra).
    rewrite Rabs_mult, Rmult_comm. apply Rmult_le_compat_r; [apply Rabs_pos|].
    apply Rabs_div_bound; [assumption|]. now rewrite Rabs_minus_sym. }
  destruct (guarded_unit_close q w w' rho Hrho W1 W2) as [Dcn Dsn].
  destruct (guarded_norm q w) as (_ & _ & Hn3 & _ & _ & _ & Hq3 & Hw3).
  destruct (guarded_norm q w') as (_ & _ & Hn3' & _ & _ & _ & Hq3' & Hw3').
  set (n3 := sqrt (q ^ 2 + w ^ 2 + eps20)) in *.
  set (n3' := sqrt (q ^ 2 + w' ^ 2 + eps20)) in *.
  assert (Bcn : Rabs (q / n3) <= 1) by now apply unit_ratio.
  assert (Bcn' : Rabs (q / n3') <= 1) by now apply unit_ratio.
  assert (Bsn' : Rabs (- w' / n3') <= 1) by (apply unit_ratio; [|rewrite Rabs_Ropp]; assumption).
  set (C2 := r / n2) in *. set (S2 := z / n2) in *.
  set (C2' := r / n2') in *. set (S2' := z / n2') in *.
  set (cn := q / n3) in *. set (cn' := q / n3') in *.
  set (sn := - w / n3) in *. set (sn' := - w' / n3') in *.
  pose proof (prod_close sn sn' S2 S2' _ _ Dsn DS BS Bsn') as PsS.
  pose proof (prod_close sn sn' C2 C2' _ _ Dsn DC BC Bsn') as PsC.
  pose proof (prod_close cn cn' S2 S2' _ _ Dcn DS BS Bcn') as PcS.
  pose proof (prod_close cn cn' C2 C2' _ _ Dcn DC BC Bcn') as PcC.
  pose proof (Rabs_pos (C2 - C2')) as P1.
  destruct i as [|[|[|i]]]; try lia; (destruct j as [|[|[|j]]]; try lia);
    unfold rows9; cbn [nth Nat.mul Nat.add].
  - replace (C2 * co - C2' * co) with ((C2 - C2') * co) by ring.
    pose proof (Rabs_scaled _ _ _ DC Hco). lra.
  - replace (- (C2 * si) - - (C2' * si)) with ((C2 - C2') * - si) by ring.
    assert (Rabs (- si) <= 1) by now rewrite Rabs_Ropp.
    pose proof (Rabs_scaled _ (- si) _ DC H). lra.
  - lra.
  - replace (cn * si + sn * S2 * co - (cn' * si + sn' * S2' * co))
      with ((cn - cn') * si + (sn * S2 - sn' * S2') * co) by ring.
    pose proof (lin2_close _ _ _ _ _ _ Dcn Hsi PsS Hco). lra.
  - replace (cn * co - sn * S2 * si - (cn' * co - sn' * S2' * si))
      with ((cn - cn') * co + (sn * S2 - sn' * S2') * - si) by ring.
    assert (Rabs (- si) <= 1) by now rewrite Rabs_Ropp.
    pose proof (lin2_close _ _ _ (- si) _ _ Dcn Hco PsS H). lra.
  - replace (- (sn * C2) - - (sn' * C2')) with (- (sn * C2 - sn' * C2')) by ring.
    rewrite Rabs_Ropp. lra.
  - replace (sn * si - cn * S2 * co - (sn' * si - cn' * S2' * co))
      with ((sn - sn') * si + (cn * S2 - cn' * S2') * - co) by ring.
    assert (Rabs (- co) <= 1) by now rewrite Rabs_Ropp.
    pose proof (lin2_close _ _ _ (- co) _ _ Dsn Hsi PcS H). lra.
  - replace (sn * co + cn * S2 * si - (sn' * co + cn' * S2' * si))
      with ((sn - sn') * co + (cn * S2 - cn' * S2') * si) by ring.
    pose proof (lin2_close _ _ _ _ _ _ Dsn Hco PcS Hsi). lra.
  - lra.
Qed.

(** The two normalisations of step 3 differ by at most
    [1e-20 (1 + 1 / (2 d))] for a C at distance at least [d] from CA. *)
Lemma norms_close x y z d :
  0 < d -> d * d <= sumsq (x, y, z) ->
  let r := sqrt (x ^ 2 + y ^ 2) in
  let n2 := sqrt (sumsq (x, y, z)) + eps20 in
  let n2' := sqrt (eps20 + x ^ 2 + y ^ 2 + z ^ 2) in
  let rho := eps20 * (1 + 1 / (2 * d)) / d in
  0 <= r /\ 0 < n2 /\ 0 < n2' /\ r <= n2 /\ Rabs z <= n2 /\ r <= n2' /\ Rabs z <= n2' /\
  0 <= rho /\ Rabs (n2 - n2') <= rho * n2 /\ Rabs (n2 - n2') <= rho * n2'.
Proof.
  intros Hd Hs r n2 n2' rho. pose proof eps20_pos as He.
  destruct (guarded_norm x y) as (Hr & Hrr & _). fold r in Hr, Hrr.
  destruct (guarded_norm3 x y z) as (Hn' & Hnn' & Hz'). fold n2' in Hn', Hnn', Hz'.
  assert (Hs0 : 0 <= sumsq (x, y, z)) by (unfold sumsq; nra).
  assert (Hm : 0 <= sqrt (sumsq (x, y, z))) by apply sqrt_pos.
  assert (Hmm : sqrt (sumsq (x, y, z)) * sqrt (sumsq (x, y, z)) = x ^ 2 + y ^ 2 + z ^ 2).
  { rewrite sqrt_sqrt by assumption. reflexivity. }
  assert (Hdm : d <= sqrt (sumsq (x, y, z))).
  { rewrite <- (sqrt_square d) by lra. now apply sqrt_le_1_alt. }
  unfold n2. set (m := sqrt (sumsq (x, y, z))) in *.
  assert (Hrm : r <= m) by nra.
  assert (Hzm : Rabs z <= m) by (apply Rabs_le; split; nra).
  assert (Hmn' : m <= n2') by nra.
  assert (Hrn' : r <= n2') by lra.
  (* n2' is at most m + eps / (2 m) *)
  set (h := eps20 / (2 * d)).
  assert (Hh : h * (2 * d) = eps20) by (unfold h; field; lra).
  assert (Hh0 : 0 < h) by (unfold h; apply Rdiv_lt_0_compat; lra).
  assert (Hup : n2' <= m + h).
  { assert ((m + h) * (m + h) >= n2' * n2') by nra. nra. }
  assert (Erho : rho * d = eps20 + h).
  { unfold rho, h. field. lra. }
  assert (Hrho : 0 <= rho).
  { unfold rho. apply Rmult_le_pos; [|left; now apply Rinv_0_lt_compat].
    apply Rmult_le_pos; [lra|].
    assert (0 < 1 / (2 * d)) by (apply Rdiv_lt_0_compat; lra). lra. }
  assert (Habs : Rabs (m + eps20 - n2') <= eps20 + h) by (apply Rabs_le; split; lra).
  repeat split; try lra.
  - assert (rho * d <= rho * (m + eps20)) by (apply Rmult_le_compat_l; lra). lra.
  - assert (rho * d <= rho * n2') by (apply Rmult_le_compat_l; lra). lra.
Qed.

Lemma canonical_rotation_close n ca c d i j :
  0 < d -> d * d <= sumsq (vadd c (vneg ca)) ->
  (i < 3)%nat -> (j < 3)%nat ->
  Rabs (canonical_rotation n ca c i j - canonical_rotation_np n ca c i j)
  <= variants_tolerance d.
Proof.
  intros Hd Hs Hi Hj.
  unfold canonical_rotation, canonical_rotation_np. cbv zeta.
  rewrite n_rot_np_eq, c1_rot_np_eq.
  destruct (vadd c (vneg ca)) as [[x y] z].
  destruct (vadd n (vneg ca)) as [[a b] c0].
  destruct (norms_close x y z d Hd Hs)
    as (H1 & H2 & H3 & H4 & H5 & H6 & H7 & H8 & H9 & H10).
  destruct (guarded_norm x y) as (_ & _ & Hn1 & _ & _ & _ & Hx & Hy).
  replace (variants_tolerance d) with (4 * (eps20 * (1 + 1 / (2 * d)) / d))
    by (unfold variants_tolerance; field; lra).
  refine (pipeline_close (x / sqrt (x ^ 2 + y ^ 2 + eps20))
            (- y / sqrt (x ^ 2 + y ^ 2 + eps20))
            (sqrt (x ^ 2 + y ^ 2)) z _ _ _ a b c0 i j _ _ H1 H2 H3 H4 H5 H6 H7 H8 H9 H10 Hi Hj).
  - now apply unit_ratio.
  - apply unit_ratio; [assumption|]. now rewrite Rabs_Ropp.
Qed.

(** C6, as it holds: on every triplet -- given to the unbatched variant as
    arrays of shape (b, 3) and to the batched one as the same arrays under
    a leading axis of size 1 -- both variants return and their
    translations are identical.  Their rotations follow the same formulas
    but for the normalisation of step 3, [sqrt (sum) + 1e-20] against
    [sqrt (1e-20 + sum)]: for a C at distance at least [d > 0] from CA
    every entry of the two rotations agrees within
    [4e-20 (1 + 1 / (2 d)) / d], and the rotations are identical where the
    two normalisations coincide or C coincides with CA. *)
Theorem canonical_transform_variants n_xyz ca_xyz c_xyz b :
  rshape n_xyz = [3; b]%nat -> rshape ca_xyz = [3; b]%nat -> rshape c_xyz = [3; b]%nat ->
  returns (make_canonical_transform_np n_xyz ca_xyz c_xyz)
    (fun '(translation', rotation') =>
       returns (make_canonical_transform (newaxis_first n_xyz) (newaxis_first ca_xyz)
                  (newaxis_first c_xyz))
         (fun '(translation, rotation) =>
            forall ib, (ib < b)%nat ->
              (forall k, (k < 3)%nat ->
                 item translation [k; ib; 0]%nat = item translation' [k; ib]) /\
              ((let '(x, y, z) := shifted c_xyz ca_xyz [ib] in
                sqrt (x ^ 2 + y ^ 2 + z ^ 2) + eps20 = sqrt (eps20 + x ^ 2 + y ^ 2 + z ^ 2)
                \/ (x, y, z) = (0, 0, 0)) ->
               forall i j, (i < 3)%nat -> (j < 3)%nat ->
                 item rotation [j; i; ib; 0]%nat = item rotation' [j; i; ib]) /\
              (forall d, 0 < d -> d * d <= sumsq (shifted c_xyz ca_xyz [ib]) ->
               forall i j, (i < 3)%nat -> (j < 3)%nat ->
                 Rabs (item rotation [j; i; ib; 0]%nat - item rotation' [j; i; ib])
                 <= variants_tolerance d))).
Proof.
  intros Hn Hca Hc.
  eapply returns_mono; [apply (make_canonical_transform_np_spec _ _ _ b Hn Hca Hc)|].
  intros [t' r'] [Ht' Hr'].
  eapply returns_mono.
  { apply (make_canonical_transform_spec (newaxis_first n_xyz) (newaxis_first ca_xyz)
             (newaxis_first c_xyz) [b; 1]%nat eq_refl);
      unfold newaxis_first; cbn [rshape]; [rewrite Hn|rewrite Hca|rewrite Hc]; reflexivity. }
  intros [t r] [Ht Hr] ib Hib.
  assert (V : in_shape [ib] [b]) by (apply in_shape_cons; split; [assumption|constructor]).
  assert (V1 : in_shape [ib; 0]%nat [b; 1]%nat).
  { apply in_shape_cons; split; [assumption|]. apply in_shape_cons; split; [lia|constructor]. }
  apply denotes_vec_entries in Ht, Ht'. apply denotes_mat_entries in Hr, Hr'.
  destruct Ht as [_ Ht]. destruct Ht' as [_ Ht']. destruct Hr as [_ Hr]. destruct Hr' as [_ Hr'].
  pose proof (vec_at_newaxis_first n_xyz [ib]) as En.
  pose proof (vec_at_newaxis_first ca_xyz [ib]) as Eca.
  pose proof (vec_at_newaxis_first c_xyz [ib]) as Ec.
  cbn [app] in En, Eca, Ec.
  split; [|split].
  - intros k Hk. rewrite (Ht _ _ V1 Hk), (Ht' _ _ V Hk), Eca. reflexivity.
  - intros Hnorm i j Hi Hj.
    rewrite (Hr _ _ _ V1 Hi Hj), (Hr' _ _ _ V Hi Hj), En, Eca, Ec.
    unfold shifted in Hnorm. now rewrite canonical_rotation_np_eq.
  - intros d Hd Hfar i j Hi Hj.
    rewrite (Hr _ _ _ V1 Hi Hj), (Hr' _ _ _ V Hi Hj), En, Eca, Ec.
    now apply canonical_rotation_close.
Qed.

(** The reference triplet, whose C is 1.525 from CA: the rotations of the
    two variants agree within 1e-19. *)
Lemma canonical_transform_variants_witness :
  returns (make_canonical_transform_np (array_1_3 N_ref) (array_1_3 CA_ref)
             (array_1_3 C_ref))
    (fun '(translation', rotation') =>
       returns (make_canonical_transform (newaxis_first (array_1_3 N_ref))
                  (newaxis_first (array_1_3 CA_ref)) (newaxis_first (array_1_3 C_ref)))
         (fun '(translation, rotation) =>
            forall i j, (i < 3)%nat -> (j < 3)%nat ->
              Rabs (item rotation [j; i; 0; 0]%nat - item rotation' [j; i; 0]%nat)
              <= 1e-19)).
Proof.
  eapply returns_mono.
  - apply (canonical_transform_variants (array_1_3 N_ref) (array_1_3 CA_ref)
             (array_1_3 C_ref) 1%nat); reflexivity.
  - intros [t' r'] H. eapply returns_mono; [exact H|].
    intros [t r] G i j Hi Hj.
    destruct (G 0%nat ltac:(lia)) as (_ & _ & G3).
    eapply Rle_trans; [apply (G3 1); [lra| |exact Hi|exact Hj]|].
    + unfold shifted. rewrite !vec_at_array_1_3.
      unfold C_ref, CA_ref, sumsq, vadd, vneg. lra.
    + unfold variants_tolerance, eps20. lra.
Defined.

(** C6 as stated fails: with C 1e-10 above CA, the entry (0, 2) of the
    rotation is above 0.99 in the batched variant and below 0.72 in the
    unbatched one. *)
Lemma variants_differ_near_origin :
  ~ variants_agree (1 / 10) N_near CA_near C_near.
Proof.
  unfold variants_agree. intros H.
  pose proof (make_canonical_transform_spec (array_1_1_3 N_near) (array_1_1_3 CA_near)
                (array_1_1_3 C_near) [1; 1]%nat eq_refl eq_refl eq_refl eq_refl) as G.
  pose proof (make_canonical_transform_np_spec (array_1_3 N_near) (array_1_3 CA_near)
                (array_1_3 C_near) 1%nat eq_refl eq_refl eq_refl) as G'.
  destruct (make_canonical_transform _ _ _) as [[t r]|e]; [|exact H].
  destruct (make_canonical_transform_np _ _ _) as [[t' r']|e']; [|exact H].
  unfold returns in H, G, G'. destruct H as [_ H].
  destruct G as [_ G]. destruct G' as [_ G'].
  apply denotes_mat_entries in G, G'. destruct G as [_ G]. destruct G' as [_ G'].
  specialize (H 0%nat 2%nat ltac:(lia) ltac:(lia)).
  rewrite (G [0; 0]%nat 0%nat 2%nat in_shape_1_1) in H by lia.
  rewrite (G' [0]%nat 0%nat 2%nat) in H
    by (lia || (apply in_shape_cons; split; [lia|constructor])).
  rewrite !vec_at_array_1_1_3, !vec_at_array_1_3 in H.
  rewrite canonical_rotation_0_2, canonical_rotation_np_0_2 in H.
  unfold C_near, CA_near, sumsq, eps20 in H. cbn [vadd vneg] in H.
  replace ((0 + - 0) ^ 2 + (0 + - 0) ^ 2 + (1e-10 + - 0) ^ 2)
    with (1e-10 * 1e-10) in H by lra.
  rewrite sqrt_square in H by lra.
  set (S := sqrt (1e-20 + (0 + - 0) ^ 2 + (0 + - 0) ^ 2 + (1e-10 + - 0) ^ 2)) in H.
  assert (HS : 1.4e-10 <= S).
  { rewrite <- (sqrt_square 1.4e-10) by lra. apply sqrt_le_1_alt. lra. }
  assert (HA : 0.99 < (1e-10 + - 0) / (1e-10 + 1e-20)).
  { apply Rmult_lt_reg_r with (1e-10 + 1e-20); [lra|].
    unfold Rdiv. rewrite Rmult_assoc, Rinv_l by lra. lra. }
  assert (HB : (1e-10 + - 0) / S <= 0.72).
  { apply Rmult_le_reg_r with S; [lra|].
    unfold Rdiv. rewrite Rmult_assoc, Rinv_l by lra. lra. }
  pose proof (Rle_abs ((1e-10 + - 0) / (1e-10 + 1e-20) - (1e-10 + - 0) / S)). lra.
Qed.

(** * Matrix kernels: [_multiply], [apply_rot_to_vec], [apply_inverse_rot_to_vec] *)

Lemma denotes_coord x y z s k :
  rshape (match k with 0%nat => x | 1%nat => y | _ => z end) = s ->
  (k < 3)%nat ->
  denotes (match k with 0%nat => x | 1%nat => y | _ => z end) s
    (fun l => vec_get (point_at x y z l) k).
Proof.
  intros Hs Hk. destruct k as [|[|[|k]]]; try lia;
    (split; [exact Hs|reflexivity]).
Qed.

(** [apply_rot_to_vec] and [apply_inverse_rot_to_vec] on a list of three
    coordinate arrays of the batch shape of the matrices. *)
Lemma apply_rot_to_vec_unstacked rot x y z s A g :
  denotes rot (3 :: 3 :: s)%nat (mat_entries A) ->
  denotes x s (fun l => vec_get (g l) 0) ->
  denotes y s (fun l => vec_get (g l) 1) ->
  denotes z s (fun l => vec_get (g l) 2) ->
  returns (apply_rot_to_vec rot (Unstacked x y z) false)
    (fun '(r0, r1, r2) =>
       denotes r0 s (fun l => vec_get (mvec (A l) (g l)) 0) /\
       denotes r1 s (fun l => vec_get (mvec (A l) (g l)) 1) /\
       denotes r2 s (fun l => vec_get (mvec (A l) (g l)) 2)).
Proof.
  intros Hrot Hx Hy Hz.
  eapply returns_mono.
  - eapply apply_rot_to_vec_bl; [apply bshape_refl|eassumption..].
  - intros [[r0 r1] r2] (H0 & H1 & H2). cbv beta zeta in H0, H1, H2.
    repeat split; try (apply H0 || apply H1 || apply H2);
      intros l Hl;
      [rewrite (proj2 H0 l Hl)|rewrite (proj2 H1 l Hl)|rewrite (proj2 H2 l Hl)];
      rewrite bidx_id by assumption;
      destruct (g l) as [[gx gy] gz]; reflexivity.
Qed.

Lemma apply_inverse_rot_to_vec_unstacked rot x y z s A g :
  denotes rot (3 :: 3 :: s)%nat (mat_entries A) ->
  denotes x s (fun l => vec_get (g l) 0) ->
  denotes y s (fun l => vec_get (g l) 1) ->
  denotes z s (fun l => vec_get (g l) 2) ->
  returns (apply_inverse_rot_to_vec rot (Unstacked x y z))
    (fun '(r0, r1, r2) =>
       denotes r0 s (fun l => vec_get (mtvec (A l) (g l)) 0) /\
       denotes r1 s (fun l => vec_get (mtvec (A l) (g l)) 1) /\
       denotes r2 s (fun l => vec_get (mtvec (A l) (g l)) 2)).
Proof.
  intros Hrot Hx Hy Hz.
  eapply returns_mono.
  - eapply apply_inverse_rot_to_vec_bl; [apply bshape_refl|eassumption..].
  - intros [[r0 r1] r2] (H0 & H1 & H2). cbv beta zeta in H0, H1, H2.
    repeat split; try (apply H0 || apply H1 || apply H2);
      intros l Hl;
      [rewrite (proj2 H0 l Hl)|rewrite (proj2 H1 l Hl)|rewrite (proj2 H2 l Hl)];
      rewrite bidx_id by assumption;
      destruct (g l) as [[gx gy] gz]; reflexivity.
Qed.

Lemma same_array_denotes a b s f :
  denotes a s f -> denotes b s f -> same_array a b.
Proof.
  intros [Ha Hfa] [Hb Hfb]. split; [congruence|].
  intros idx Hi. rewrite Ha in Hi. rewrite Hfa, Hfb by assumption. reflexivity.
Qed.

Lemma mat_at_denotes a s M l i j :
  denotes a (3 :: 3 :: s)%nat (mat_entries M) -> in_shape l s ->
  (i < 3)%nat -> (j < 3)%nat -> mat_at a l i j = M l i j.
Proof.
  intros Ha Hl Hi Hj. apply denotes_mat_entries in Ha. destruct Ha as [_ Ha].
  unfold mat_at. now apply Ha.
Qed.

Lemma det3_mmul A B : det3 (mmul A B) = det3 A * det3 B.
Proof. unfold det3, mmul. ring. Qed.

Lemma det3_ext A B :
  (forall i j, (i < 3)%nat -> (j < 3)%nat -> A i j = B i j) -> det3 A = det3 B.
Proof. intros H. unfold det3. rewrite !H by lia. reflexivity. Qed.

Lemma orthonormal_ext A B :
  (forall i j, (i < 3)%nat -> (j < 3)%nat -> A i j = B i j) ->
  orthonormal B -> orthonormal A.
Proof.
  intros H HB i j Hi Hj. rewrite <- (HB i j Hi Hj).
  unfold mmul, mtranspose. rewrite !H by lia. reflexivity.
Qed.

Lemma orthonormal_mmul A B : orthonormal A -> orthonormal B -> orthonormal (mmul A B).
Proof.
  intros HA HB i j Hi Hj.
  assert (HB' : forall p q, (p < 3)%nat -> (q < 3)%nat ->
            B p 0%nat * B q 0%nat + B p 1%nat * B q 1%nat + B p 2%nat * B q 2%nat
            = identity_mat p q).
  { intros p q Hp Hq. rewrite <- (HB p q Hp Hq). reflexivity. }
  rewrite <- (HA i j Hi Hj). unfold mmul, mtranspose.
  transitivity
    (A i 0%nat * A j 0%nat * (B 0%nat 0%nat * B 0%nat 0%nat + B 0%nat 1%nat * B 0%nat 1%nat + B 0%nat 2%nat * B 0%nat 2%nat)
     + A i 0%nat * A j 1%nat * (B 0%nat 0%nat * B 1%nat 0%nat + B 0%nat 1%nat * B 1%nat 1%nat + B 0%nat 2%nat * B 1%nat 2%nat)
     + A i 0%nat * A j 2%nat * (B 0%nat 0%nat * B 2%nat 0%nat + B 0%nat 1%nat * B 2%nat 1%nat + B 0%nat 2%nat * B 2%nat 2%nat)
     + A i 1%nat * A j 0%nat * (B 1%nat 0%nat * B 0%nat 0%nat + B 1%nat 1%nat * B 0%nat 1%nat + B 1%nat 2%nat * B 0%nat 2%nat)
     + A i 1%nat * A j 1%nat * (B 1%nat 0%nat * B 1%nat 0%nat + B 1%nat 1%nat * B 1%nat 1%nat + B 1%nat 2%nat * B 1%nat 2%nat)
     + A i 1%nat * A j 2%nat * (B 1%nat 0%nat * B 2%nat 0%nat + B 1%nat 1%nat * B 2%nat 1%nat + B 1%nat 2%nat * B 2%nat 2%nat)
     + A i 2%nat * A j 0%nat * (B 2%nat 0%nat * B 0%nat 0%nat + B 2%nat 1%nat * B 0%nat 1%nat + B 2%nat 2%nat * B 0%nat 2%nat)
     + A i 2%nat * A j 1%nat * (B 2%nat 0%nat * B 1%nat 0%nat + B 2%nat 1%nat * B 1%nat 1%nat + B 2%nat 2%nat * B 1%nat 2%nat)
     + A i 2%nat * A j 2%nat * (B 2%nat 0%nat * B 2%nat 0%nat + B 2%nat 1%nat * B 2%nat 1%nat + B 2%nat 2%nat * B 2%nat 2%nat)).
  { ring. }
  rewrite !HB' by lia. unfold identity_mat. simpl. ring.
Qed.

Lemma orthonormal_quarter_turn : orthonormal quarter_turn.
Proof.
  intros i j Hi Hj.
  destruct i as [|[|[|i]]]; try lia; destruct j as [|[|[|j]]]; try lia;
    unfold mmul, mtranspose, quarter_turn, rows9, identity_mat; simpl; ring.
Qed.

Lemma mtvec_of_mvec (m : mat3) (p : vec3) : orthonormal m -> mtvec m (mvec m p) = p.
Proof.
  intros Hm.
  transitivity (mtvec m (vsub (vadd (mvec m p) (0, 0, 0)) (0, 0, 0))).
  - f_equal. destruct (mvec m p) as [[a b] c]. unfold vsub, vadd. apply vec3_eq; ring.
  - now apply mtvec_mvec.
Qed.

Lemma mvec_of_mtvec (m : mat3) (p : vec3) : orthonormal m -> mvec m (mtvec m p) = p.
Proof.
  intros Hm.
  assert (G : forall i j, (i < 3)%nat -> (j < 3)%nat ->
            m i 0%nat * m j 0%nat + m i 1%nat * m j 1%nat + m i 2%nat * m j 2%nat
            = identity_mat i j).
  { intros i j Hi Hj. rewrite <- (Hm i j Hi Hj). reflexivity. }
  destruct p as [[x y] z]. unfold mtvec, mvec.
  apply vec3_eq.
  - transitivity
      ((m 0%nat 0%nat * m 0%nat 0%nat + m 0%nat 1%nat * m 0%nat 1%nat + m 0%nat 2%nat * m 0%nat 2%nat) * x
       + (m 0%nat 0%nat * m 1%nat 0%nat + m 0%nat 1%nat * m 1%nat 1%nat + m 0%nat 2%nat * m 1%nat 2%nat) * y
       + (m 0%nat 0%nat * m 2%nat 0%nat + m 0%nat 1%nat * m 2%nat 1%nat + m 0%nat 2%nat * m 2%nat 2%nat) * z);
      [ring|].
    rewrite !G by lia. unfold identity_mat. simpl. ring.
  - transitivity
      ((m 1%nat 0%nat * m 0%nat 0%nat + m 1%nat 1%nat * m 0%nat 1%nat + m 1%nat 2%nat * m 0%nat 2%nat) * x
       + (m 1%nat 0%nat * m 1%nat 0%nat + m 1%nat 1%nat * m 1%nat 1%nat + m 1%nat 2%nat * m 1%nat 2%nat) * y
       + (m 1%nat 0%nat * m 2%nat 0%nat + m 1%nat 1%nat * m 2%nat 1%nat + m 1%nat 2%nat * m 2%nat 2%nat) * z);
      [ring|].
    rewrite !G by lia. unfold identity_mat. simpl. ring.
  - transitivity
      ((m 2%nat 0%nat * m 0%nat 0%nat + m 2%nat 1%nat * m 0%nat 1%nat + m 2%nat 2%nat * m 0%nat 2%nat) * x
       + (m 2%nat 0%nat * m 1%nat 0%nat + m 2%nat 1%nat * m 1%nat 1%nat + m 2%nat 2%nat * m 1%nat 2%nat) * y
       + (m 2%nat 0%nat * m 2%nat 0%nat + m 2%nat 1%nat * m 2%nat 1%nat + m 2%nat 2%nat * m 2%nat 2%nat) * z);
      [ring|].
    rewrite !G by lia. unfold identity_mat. simpl. ring.
Qed.

Lemma mat_at_full_mat s m l : mat_at (full_mat s m) l = m.
Proof. reflexivity. Qed.

(** X1.  [_multiply(a, b)] is the matrix product: on two arrays of 3x3
    matrices of one batch shape it returns the array of that shape whose
    matrix at each batch index is the product of the matrix of [a] and the
    matrix of [b] there, rows of [a] against columns of [b]. *)
Theorem multiply_is_matrix_product a b s :
  rshape a = (3 :: 3 :: s)%nat -> rshape b = (3 :: 3 :: s)%nat ->
  returns (_multiply a b)
    (fun c => rshape c = (3 :: 3 :: s)%nat /\
       forall l i j, in_shape l s -> (i < 3)%nat -> (j < 3)%nat ->
         item c (j :: i :: l)
         = item a (0 :: i :: l)%nat * item b (j :: 0 :: l)%nat
           + item a (1 :: i :: l)%nat * item b (j :: 1 :: l)%nat
           + item a (2 :: i :: l)%nat * item b (j :: 2 :: l)%nat).
Proof.
  intros Ha Hb.
  eapply returns_mono.
  - apply (_multiply_spec a b s _ _ (denotes_mat_at a s Ha) (denotes_mat_at b s Hb)).
  - intros c Hc. apply denotes_mat_entries in Hc. destruct Hc as [Hs Hc].
    split; [exact Hs|]. intros l i j Hl Hi Hj. rewrite (Hc l i j Hl Hi Hj).
    reflexivity.
Qed.

Lemma multiply_is_matrix_product_witness :
  returns (_multiply (full_mat [2]%nat quarter_turn) (full_mat [2]%nat quarter_turn))
    (fun c => rshape c = [3; 3; 2]%nat /\ item c [0; 0; 1]%nat = -1).
Proof.
  eapply returns_mono.
  - apply (multiply_is_matrix_product _ _ [2]%nat); reflexivity.
  - intros c [Hs Hc]. split; [exact Hs|].
    rewrite (Hc [1]%nat 0%nat 0%nat); [| |lia|lia].
    + unfold full_mat, quarter_turn, rows9. simpl. ring.
    + apply in_shape_cons. split; [lia|apply in_shape_nil].
Defined.

Lemma index_last2_error a i j (e : exn) :
  index_last2 a i j = Raise e -> e = IndexError.
Proof.
  unfold index_last2. destruct (rshape a) as [|dj [|di s]]; try congruence.
  destruct ((i <? di)%nat && (j <? dj)%nat); congruence.
Qed.

Lemma index_last2_corner a r : index_last2 a 2 2 = Ok r -> has_3x3 a = true.
Proof.
  unfold index_last2, has_3x3. destruct (rshape a) as [|dj [|di s]]; try discriminate.
  destruct ((2 <? di)%nat && (2 <? dj)%nat) eqn:E; [|discriminate].
  intros _. apply andb_prop in E. destruct E as [E1 E2].
  apply Nat.ltb_lt in E1, E2. apply andb_true_intro.
  split; apply Nat.leb_le; lia.
Qed.

Lemma bind_raises_only {A B : Type} (m : result A) (k : A -> result B) (e : exn) :
  (forall e', m = Raise e' -> e' = e) ->
  (forall a, m = Ok a -> k a = Raise e) ->
  (x <- m ;; k x) = Raise e.
Proof.
  intros He Hk. destruct m as [a|e']; simpl.
  - now apply Hk.
  - now rewrite (He e' eq_refl).
Qed.

(** X2.  [_multiply] reads the entries [0..2, 0..2] of the trailing two
    axes of both operands before any arithmetic: when either operand has
    fewer than two axes, or a trailing axis shorter than 3, the call raises
    [IndexError]. *)
Theorem multiply_needs_3x3 a b :
  has_3x3 a = false \/ has_3x3 b = false -> _multiply a b = Raise IndexError.
Proof.
  intros H. unfold _multiply.
  do 18 (apply bind_raises_only;
         [intros e'; apply index_last2_error|intros ? ?]).
  exfalso.
  match goal with
  | Ea : index_last2 a 2 2 = Ok _, Eb : index_last2 b 2 2 = Ok _ |- _ =>
      apply index_last2_corner in Ea, Eb; destruct H as [H|H]; congruence
  end.
Qed.

Lemma multiply_needs_3x3_witness :
  _multiply (full_mat [] identity_mat) (mkarray [3; 2]%nat (fun _ => 0)) = Raise IndexError.
Proof.
  apply multiply_needs_3x3. right. reflexivity.
Defined.

(** X3.  The product [_multiply] returns has, at each batch index, the
    product of the determinants of its operands; when both operands hold
    orthonormal matrices, so does the product. *)
Theorem multiply_keeps_rotations a b s :
  rshape a = (3 :: 3 :: s)%nat -> rshape b = (3 :: 3 :: s)%nat ->
  returns (_multiply a b)
    (fun c =>
       forall l, in_shape l s ->
         det3 (mat_at c l) = det3 (mat_at a l) * det3 (mat_at b l) /\
         (orthonormal (mat_at a l) -> orthonormal (mat_at b l) ->
          orthonormal (mat_at c l))).
Proof.
  intros Ha Hb.
  eapply returns_mono.
  - apply (_multiply_spec a b s _ _ (denotes_mat_at a s Ha) (denotes_mat_at b s Hb)).
  - intros c Hc l Hl.
    assert (E : forall i j, (i < 3)%nat -> (j < 3)%nat ->
              mat_at c l i j = mmul (mat_at a l) (mat_at b l) i j).
    { intros i j Hi Hj. exact (mat_at_denotes c s _ l i j Hc Hl Hi Hj). }
    split.
    + rewrite (det3_ext _ _ E). apply det3_mmul.
    + intros Oa Ob. apply (orthonormal_ext _ _ E). now apply orthonormal_mmul.
Qed.

Lemma multiply_keeps_rotations_witness :
  returns (_multiply (full_mat [2]%nat quarter_turn) (full_mat [2]%nat quarter_turn))
    (fun c => orthonormal (mat_at c [0]%nat)).
Proof.
  eapply returns_mono.
  - apply (multiply_keeps_rotations _ _ [2]%nat); reflexivity.
  - intros c Hc.
    assert (Hl : in_shape [0]%nat [2]%nat).
    { apply in_shape_cons. split; [lia|apply in_shape_nil]. }
    apply (proj2 (Hc [0]%nat Hl)); rewrite mat_at_full_mat; apply orthonormal_quarter_turn.
Defined.

(** X4.  Applying a product is applying its factors in turn:
    [apply_rot_to_vec(_multiply(a, b), v)] returns the same three
    coordinate arrays as [apply_rot_to_vec(a, apply_rot_to_vec(b, v))]. *)
Theorem apply_rot_to_vec_of_product a b x y z s :
  rshape a = (3 :: 3 :: s)%nat -> rshape b = (3 :: 3 :: s)%nat ->
  rshape x = s -> rshape y = s -> rshape z = s ->
  returns (_multiply a b)
    (fun c =>
       returns (apply_rot_to_vec c (Unstacked x y z) false)
         (fun '(p0, p1, p2) =>
            returns (apply_rot_to_vec b (Unstacked x y z) false)
              (fun '(q0, q1, q2) =>
                 returns (apply_rot_to_vec a (Unstacked q0 q1 q2) false)
                   (fun '(r0, r1, r2) =>
                      same_array p0 r0 /\ same_array p1 r1 /\ same_array p2 r2)))).
Proof.
  intros Ha Hb Hx Hy Hz.
  pose proof (denotes_mat_at a s Ha) as Da.
  pose proof (denotes_mat_at b s Hb) as Db.
  pose proof (denotes_coord x y z s 0 Hx ltac:(lia)) as Dx.
  pose proof (denotes_coord x y z s 1 Hy ltac:(lia)) as Dy.
  pose proof (denotes_coord x y z s 2 Hz ltac:(lia)) as Dz.
  eapply returns_mono; [apply (_multiply_spec a b s _ _ Da Db)|].
  intros c Dc.
  eapply returns_mono; [apply (apply_rot_to_vec_unstacked c x y z s _ _ Dc Dx Dy Dz)|].
  intros [[p0 p1] p2] (P0 & P1 & P2).
  eapply returns_mono; [apply (apply_rot_to_vec_unstacked b x y z s _ _ Db Dx Dy Dz)|].
  intros [[q0 q1] q2] (Q0 & Q1 & Q2).
  eapply returns_mono; [apply (apply_rot_to_vec_unstacked a q0 q1 q2 s _ _ Da Q0 Q1 Q2)|].
  intros [[r0 r1] r2] (R0 & R1 & R2).
  split; [|split].
  - apply (same_array_denotes _ _ _ _ P0). eapply denotes_ext; [exact R0|].
    intros l Hl. cbv beta. now rewrite mvec_mmul.
  - apply (same_array_denotes _ _ _ _ P1). eapply denotes_ext; [exact R1|].
    intros l Hl. cbv beta. now rewrite mvec_mmul.
  - apply (same_array_denotes _ _ _ _ P2). eapply denotes_ext; [exact R2|].
    intros l Hl. cbv beta. now rewrite mvec_mmul.
Qed.

Lemma apply_rot_to_vec_of_product_witness :
  returns (_multiply (full_mat [2]%nat quarter_turn) (full_mat [2]%nat quarter_turn))
    (fun c =>
       returns (apply_rot_to_vec c (Unstacked points_2 points_2 points_2) false)
         (fun '(p0, p1, p2) =>
            returns (apply_rot_to_vec (full_mat [2]%nat quarter_turn)
                       (Unstacked points_2 points_2 points_2) false)
              (fun '(q0, q1, q2) =>
                 returns (apply_rot_to_vec (full_mat [2]%nat quarter_turn)
                            (Unstacked q0 q1 q2) false)
                   (fun '(r0, r1, r2) =>
                      same_array p0 r0 /\ same_array p1 r1 /\ same_array p2 r2)))).
Proof.
  apply (apply_rot_to_vec_of_product _ _ _ _ _ [2]%nat); reflexivity.
Defined.

(** X5.  For orthonormal matrices [apply_inverse_rot_to_vec] undoes
    [apply_rot_to_vec], and [apply_rot_to_vec] undoes
    [apply_inverse_rot_to_vec]: either way round the three coordinate
    arrays come back. *)
Theorem apply_inverse_rot_to_vec_undoes rot x y z s :
  rshape rot = (3 :: 3 :: s)%nat ->
  rshape x = s -> rshape y = s -> rshape z = s ->
  (forall l, in_shape l s -> orthonormal (mat_at rot l)) ->
  returns (apply_rot_to_vec rot (Unstacked x y z) false)
    (fun '(p0, p1, p2) =>
       returns (apply_inverse_rot_to_vec rot (Unstacked p0 p1 p2))
         (fun '(r0, r1, r2) => same_array r0 x /\ same_array r1 y /\ same_array r2 z)) /\
  returns (apply_inverse_rot_to_vec rot (Unstacked x y z))
    (fun '(p0, p1, p2) =>
       returns (apply_rot_to_vec rot (Unstacked p0 p1 p2) false)
         (fun '(r0, r1, r2) => same_array r0 x /\ same_array r1 y /\ same_array r2 z)).
Proof.
  intros Hrot Hx Hy Hz Hortho.
  pose proof (denotes_mat_at rot s Hrot) as Dr.
  pose proof (denotes_coord x y z s 0 Hx ltac:(lia)) as Dx.
  pose proof (denotes_coord x y z s 1 Hy ltac:(lia)) as Dy.
  pose proof (denotes_coord x y z s 2 Hz ltac:(lia)) as Dz.
  split.
  - eapply returns_mono; [apply (apply_rot_to_vec_unstacked rot x y z s _ _ Dr Dx Dy Dz)|].
    intros [[p0 p1] p2] (P0 & P1 & P2).
    eapply returns_mono;
      [apply (apply_inverse_rot_to_vec_unstacked rot p0 p1 p2 s _ _ Dr P0 P1 P2)|].
    intros [[r0 r1] r2] (R0 & R1 & R2).
    split; [|split].
    + apply (same_array_denotes _ _ _ _ R0). eapply denotes_ext; [exact Dx|].
      intros l Hl. cbv beta. now rewrite mtvec_of_mvec by auto.
    + apply (same_array_denotes _ _ _ _ R1). eapply denotes_ext; [exact Dy|].
      intros l Hl. cbv beta. now rewrite mtvec_of_mvec by auto.
    + apply (same_array_denotes _ _ _ _ R2). eapply denotes_ext; [exact Dz|].
      intros l Hl. cbv beta. now rewrite mtvec_of_mvec by auto.
  - eapply returns_mono;
      [apply (apply_inverse_rot_to_vec_unstacked rot x y z s _ _ Dr Dx Dy Dz)|].
    intros [[p0 p1] p2] (P0 & P1 & P2).
    eapply returns_mono; [apply (apply_rot_to_vec_unstacked rot p0 p1 p2 s _ _ Dr P0 P1 P2)|].
    intros [[r0 r1] r2] (R0 & R1 & R2).
    split; [|split].
    + apply (same_array_denotes _ _ _ _ R0). eapply denotes_ext; [exact Dx|].
      intros l Hl. cbv beta. now rewrite mvec_of_mtvec by auto.
    + apply (same_array_denotes _ _ _ _ R1). eapply denotes_ext; [exact Dy|].
      intros l Hl. cbv beta. now rewrite mvec_of_mtvec by auto.
    + apply (same_array_denotes _ _ _ _ R2). eapply denotes_ext; [exact Dz|].
      intros l Hl. cbv beta. now rewrite mvec_of_mtvec by auto.
Qed.

Lemma apply_inverse_rot_to_vec_undoes_witness :
  returns (apply_rot_to_vec (full_mat [2]%nat quarter_turn)
             (Unstacked points_2 points_2 points_2) false)
    (fun '(p0, p1, p2) =>
       returns (apply_inverse_rot_to_vec (full_mat [2]%nat quarter_turn)
                  (Unstacked p0 p1 p2))
         (fun '(r0, r1, r2) =>
            same_array r0 points_2 /\ same_array r1 points_2 /\ same_array r2 points_2)).
Proof.
  refine (proj1 (apply_inverse_rot_to_vec_undoes _ _ _ _ [2]%nat _ _ _ _ _));
    try reflexivity.
  intros l _. rewrite mat_at_full_mat. apply orthonormal_quarter_turn.
Defined.

(** * The [_np] kernels: [_multiply_np], [apply_rot_to_vec_np] *)

Lemma denotes_mat_first a d :
  rshape a = [d; 3; 3]%nat ->
  denotes a [d; 3; 3]%nat
    (mat_entries_first (fun l i j => item a [hd 0%nat l; j; i])).
Proof.
  intros Ha. split; [exact Ha|].
  intros idx Hi. mat_first_cases idx Hi; reflexivity.
Qed.

Lemma in_shape_1 i d : (i < d)%nat -> in_shape [i] [d].
Proof. intros H. apply in_shape_cons. split; [exact H|apply in_shape_nil]. Qed.

Lemma in_shape_3 i j k d e f :
  (i < d)%nat -> (j < e)%nat -> (k < f)%nat -> in_shape [i; j; k] [d; e; f].
Proof.
  intros Hi Hj Hk. apply in_shape_cons. split; [exact Hi|].
  apply in_shape_cons. split; [exact Hj|]. now apply in_shape_1.
Qed.

(** X6.  On a single 3x3 matrix the two families coincide: [rot[i][j]] and
    [rot[..., i, j]] read the same entry, so [_multiply_np] is [_multiply]
    and [apply_rot_to_vec_np] is [apply_rot_to_vec], whatever the vector
    argument. *)
Theorem np_kernels_on_single_matrix a b :
  rshape a = [3; 3]%nat -> rshape b = [3; 3]%nat ->
  _multiply_np a b = _multiply a b /\
  forall vec unstack, apply_rot_to_vec_np a vec unstack = apply_rot_to_vec a vec unstack.
Proof.
  destruct a as [sa fa], b as [sb fb]. simpl. intros -> ->. split.
  - reflexivity.
  - intros vec unstack. reflexivity.
Qed.

Lemma np_kernels_on_single_matrix_witness :
  _multiply_np (full_mat [] quarter_turn) (full_mat [] quarter_turn)
  = _multiply (full_mat [] quarter_turn) (full_mat [] quarter_turn).
Proof.
  exact (proj1 (np_kernels_on_single_matrix (full_mat [] quarter_turn)
                  (full_mat [] quarter_turn) eq_refl eq_refl)).
Defined.

(** X7.  [_multiply_np] multiplies matrices laid out on the two LEADING
    axes: for arrays of shape (3, 3, d) it returns the array of that shape
    holding the matrix product for each of the [d] trailing indices, and
    moving the leading axes last with [np.transpose(., [2, 0, 1])] turns
    it into what [_multiply] returns on the transposed operands. *)
Theorem multiply_np_leading_axes a b d :
  rshape a = [d; 3; 3]%nat -> rshape b = [d; 3; 3]%nat ->
  returns (_multiply_np a b)
    (fun c => rshape c = [d; 3; 3]%nat /\
       (forall ib i j, (ib < d)%nat -> (i < 3)%nat -> (j < 3)%nat ->
          item c [ib; j; i]
          = item a [ib; 0; i]%nat * item b [ib; j; 0]%nat
            + item a [ib; 1; i]%nat * item b [ib; j; 1]%nat
            + item a [ib; 2; i]%nat * item b [ib; j; 2]%nat) /\
       returns (np_transpose_201 c)
         (fun ct =>
            returns (a' <- np_transpose_201 a ;;
                     b' <- np_transpose_201 b ;;
                     _multiply a' b')
              (fun c' => same_array ct c'))).
Proof.
  intros Ha Hb.
  pose proof (denotes_mat_first a d Ha) as Da.
  pose proof (denotes_mat_first b d Hb) as Db.
  eapply returns_mono; [apply (_multiply_np_spec a b d _ _ Da Db)|].
  intros c Dc. split; [apply Dc|]. split.
  - intros ib i j Hib Hi Hj.
    rewrite (proj2 Dc [ib; j; i]) by now apply in_shape_3.
    reflexivity.
  - eapply returns_mono; [apply (np_transpose_201_spec c d _ Dc)|].
    intros ct Dct.
    step (apply (np_transpose_201_spec a d _ Da)) as a' Da'.
    step (apply (np_transpose_201_spec b d _ Db)) as b' Db'.
    eapply returns_mono; [apply (_multiply_spec a' b' [d] _ _ Da' Db')|].
    intros c' Dc'. exact (same_array_denotes _ _ _ _ Dct Dc').
Qed.

Lemma multiply_np_leading_axes_witness :
  returns (_multiply_np (mkarray [2; 3; 3]%nat (fun _ => 1)) (mkarray [2; 3; 3]%nat (fun _ => 1)))
    (fun c => rshape c = [2; 3; 3]%nat /\ item c [1; 0; 2]%nat = 3).
Proof.
  eapply returns_mono.
  - apply (multiply_np_leading_axes _ _ 2%nat); reflexivity.
  - intros c (Hs & Hc & _). split; [exact Hs|].
    rewrite (Hc 1%nat 2%nat 0%nat) by lia. simpl. ring.
Defined.

(** X8.  [apply_rot_to_vec_np] likewise reads its matrices on the two
    leading axes: on matrices of shape (3, 3, d) and vectors of shape
    (d, 3) it returns the coordinates that [apply_rot_to_vec] returns once
    the matrices are transposed to shape (d, 3, 3). *)
Theorem apply_rot_to_vec_np_leading_axes rot v d :
  rshape rot = [d; 3; 3]%nat -> rshape v = [3; d]%nat ->
  returns (apply_rot_to_vec_np rot (Stacked v) true)
    (fun '(p0, p1, p2) =>
       returns (rot' <- np_transpose_201 rot ;; apply_rot_to_vec rot' (Stacked v) true)
         (fun '(q0, q1, q2) =>
            same_array p0 q0 /\ same_array p1 q1 /\ same_array p2 q2)).
Proof.
  intros Hrot Hv.
  pose proof (denotes_mat_first rot d Hrot) as Dr.
  pose proof (denotes_vec_at v [d] Hv) as Dv.
  eapply returns_mono; [apply (apply_rot_to_vec_np_stacked rot v d _ _ Dr Dv)|].
  intros [[p0 p1] p2] (P0 & P1 & P2).
  step (apply (np_transpose_201_spec rot d _ Dr)) as rot' Dr'.
  eapply returns_mono; [apply (apply_rot_to_vec_stacked rot' v [d] _ _ Dr' Dv)|].
  intros [[q0 q1] q2] (Q0 & Q1 & Q2).
  split; [|split]; eapply same_array_denotes; eassumption.
Qed.

Lemma apply_rot_to_vec_np_leading_axes_witness :
  returns (apply_rot_to_vec_np (mkarray [2; 3; 3]%nat (fun _ => 1))
             (Stacked (full_vec [2]%nat (1, 2, 3))) true)
    (fun '(p0, p1, p2) =>
       returns (rot' <- np_transpose_201 (mkarray [2; 3; 3]%nat (fun _ => 1)) ;;
                apply_rot_to_vec rot' (Stacked (full_vec [2]%nat (1, 2, 3))) true)
         (fun '(q0, q1, q2) =>
            same_array p0 q0 /\ same_array p1 q1 /\ same_array p2 q2)).
Proof.
  apply (apply_rot_to_vec_np_leading_axes _ _ 2%nat); reflexivity.
Defined.

(** * Frames: encoding, normalisation, points *)

(** X9.  [QuatAffine.from_tensor] never returns a frame.  A tensor whose
    last axis is not 7 long fails the assertion; one whose last axis is 7
    long is sliced and handed to the constructor without a rotation, and
    the constructor raises [AttributeError] in [quat_to_rot]. *)
Theorem from_tensor_never_returns :
  (forall tensor normalize, raises (from_tensor tensor normalize)) /\
  (forall tensor normalize d s,
     rshape tensor = (d :: s)%nat -> d <> 7%nat ->
     from_tensor tensor normalize = Raise AssertionError) /\
  (forall tensor normalize s,
     rshape tensor = (7 :: s)%nat ->
     from_tensor tensor normalize = Raise AttributeError).
Proof.
  split; [|split].
  - intros tensor normalize. unfold from_tensor.
    apply raises_bind_r. intros d. apply raises_bind_r. intros _.
    apply raises_bind_r. intros q. apply raises_bind_r. intros t.
    apply QuatAffine_init_without_rotation.
  - intros tensor normalize d s Hs Hd. unfold from_tensor, shape_neg.
    rewrite Hs. cbn [Nat.sub nth_error bind].
    apply Nat.eqb_neq in Hd. rewrite Hd. reflexivity.
  - intros tensor normalize s Hs. unfold from_tensor, shape_neg, slice_last.
    rewrite Hs. cbn [Nat.sub nth_error bind Nat.eqb assert].
    apply QuatAffine_init_AttributeError with (s := s). reflexivity.
Qed.

Lemma from_tensor_never_returns_witness :
  from_tensor tensor_1_7 true = Raise AttributeError.
Proof.
  apply (proj2 (proj2 from_tensor_never_returns) tensor_1_7 true [1]%nat).
  reflexivity.
Defined.

(** X10.  [to_tensor] lays the quaternion out before the translation: on
    a frame whose quaternion and translation share their leading
    dimensions it returns an array 7 wide whose slices [[..., 0:4]] and
    [[..., 4:7]], the two [from_tensor] takes, are the quaternion and the
    translation.  When the leading dimensions differ it raises
    [ValueError]. *)
Theorem to_tensor_layout :
  (forall self q s,
     quaternion self = Some q ->
     rshape q = (4 :: s)%nat -> rshape (translation self) = (3 :: s)%nat ->
     returns (to_tensor self)
       (fun t =>
          rshape t = (7 :: s)%nat /\
          returns (slice_last t 0 4) (fun q' => same_array q' q) /\
          returns (slice_last t 4 7) (fun t' => same_array t' (translation self)))) /\
  (forall self q,
     quaternion self = Some q ->
     batch_dims q <> batch_dims (translation self) ->
     to_tensor self = Raise ValueError).
Proof.
  split.
  - intros [q0 r t] q s Hq Hsq Hst. simpl in Hq, Hst. subst q0.
    unfold to_tensor, np_concatenate_last. cbn [quaternion translation].
    rewrite Hsq, Hst, shape_eqb_refl. change (4 + 3)%nat with 7%nat.
    cbn [returns rshape].
    split; [reflexivity|]. unfold slice_last. cbn [rshape returns].
    change (Nat.min 4 7 - 0)%nat with 4%nat. change (Nat.min 7 7 - 4)%nat with 3%nat.
    split.
    + split; [now rewrite Hsq|]. cbn [rshape item].
      intros idx Hi. apply in_shape_cons_inv in Hi.
      destruct Hi as (k & l & -> & Hk & Hl). cbn [Nat.add].
      apply Nat.ltb_lt in Hk. now rewrite Hk.
    + split; [now rewrite Hst|]. cbn [rshape item].
      intros idx Hi. apply in_shape_cons_inv in Hi.
      destruct Hi as (k & l & -> & Hk & Hl).
      replace (4 + k <? 4)%nat with false by (symmetry; apply Nat.ltb_ge; lia).
      now replace (4 + k - 4)%nat with k by lia.
  - intros [q0 r t] q Hq Hne. simpl in Hq, Hne. subst q0.
    unfold to_tensor, np_concatenate_last. cbn [quaternion translation].
    unfold batch_dims in Hne.
    destruct (rshape q) as [|dq sq]; [reflexivity|].
    destruct (rshape t) as [|dt st]; [reflexivity|].
    simpl in Hne. destruct (shape_eqb sq st) eqn:E; [|reflexivity].
    apply shape_eqb_eq in E. contradiction.
Qed.

Lemma to_tensor_layout_witness :
  returns (to_tensor (identity_frame [2]%nat (1, 2, 3)))
    (fun t => rshape t = [7; 2]%nat).
Proof.
  eapply returns_mono.
  - apply (proj1 to_tensor_layout (identity_frame [2]%nat (1, 2, 3))
             (full_quat [2]%nat identity_quat) [2]%nat); reflexivity.
  - intros t H. exact (proj1 H).
Defined.

Lemma quat_unit_of_unit q : quat_norm q = 1 -> quat_unit q = q.
Proof.
  destruct q as [[[w x] y] z]. intros Hn. unfold quat_unit. rewrite Hn.
  apply quat_eq; field.
Qed.

Lemma quat_norm_nonzero q : quat_norm q = 1 -> q <> (0, 0, 0, 0).
Proof.
  intros Hn ->. unfold quat_norm in Hn.
  replace (0 * 0 + 0 * 0 + 0 * 0 + 0 * 0) with 0 in Hn by ring.
  rewrite sqrt_0 in Hn. lra.
Qed.

(** X11.  With [normalize=True] the constructor stores [q / |q|]: at every
    batch index where the given quaternion is not zero, the stored
    quaternion is the given one divided by its norm and has norm 1.  The
    rotation and the translation are stored as given. *)
Theorem QuatAffine_init_normalizes q trans rot s st sr :
  rshape q = (4 :: s)%nat -> rshape trans = (3 :: st)%nat ->
  rshape rot = (3 :: 3 :: sr)%nat ->
  returns (QuatAffine_init (Some q) trans (Some rot) true)
    (fun self =>
       rotation self = rot /\ translation self = trans /\
       exists q', quaternion self = Some q' /\ rshape q' = (4 :: s)%nat /\
         forall l, in_shape l s -> quat_at q l <> (0, 0, 0, 0) ->
           quat_at q' l = quat_unit (quat_at q l) /\ quat_norm (quat_at q' l) = 1).
Proof.
  intros Hq Ht Hr.
  eapply returns_mono; [apply (QuatAffine_init_normalized q trans rot s st sr Hq Ht Hr)|].
  intros self (H1 & H2 & q' & H3 & H4 & H5).
  split; [exact H1|]. split; [exact H2|]. exists q'. split; [exact H3|].
  split; [exact H4|]. intros l Hl Hne. split; [now apply H5|].
  rewrite (H5 l Hl). now apply quat_unit_norm.
Qed.

Lemma QuatAffine_init_normalizes_witness :
  returns (QuatAffine_init (Some (full_quat [2]%nat (0, 3, 0, 4))) (full_vec [2]%nat (1, 2, 3))
             (Some (full_mat [2]%nat identity_mat)) true)
    (fun self => exists q', quaternion self = Some q' /\ quat_norm (quat_at q' [1]%nat) = 1).
Proof.
  eapply returns_mono.
  - apply (QuatAffine_init_normalizes _ _ _ [2]%nat [2]%nat [2]%nat); reflexivity.
  - intros self (_ & _ & q' & Hq & _ & H). exists q'. split; [exact Hq|].
    apply H.
    + apply in_shape_cons. split; [lia|apply in_shape_nil].
    + unfold quat_at, full_quat. simpl. intros E. injection E as E1 E2. lra.
Defined.

(** X12.  Normalising is idempotent: a frame built with [normalize=True]
    from quaternions none of which is zero, when given to the constructor
    again with [normalize=True], keeps its quaternion. *)
Theorem QuatAffine_init_normalize_idempotent q trans rot s st sr :
  rshape q = (4 :: s)%nat -> rshape trans = (3 :: st)%nat ->
  rshape rot = (3 :: 3 :: sr)%nat ->
  (forall l, in_shape l s -> quat_at q l <> (0, 0, 0, 0)) ->
  returns (QuatAffine_init (Some q) trans (Some rot) true)
    (fun self =>
       returns (QuatAffine_init (quaternion self) (translation self)
                  (Some (rotation self)) true)
         (fun self' =>
            exists q1 q2, quaternion self = Some q1 /\ quaternion self' = Some q2 /\
              same_array q2 q1)).
Proof.
  intros Hq Ht Hr Hne.
  eapply returns_mono; [apply (QuatAffine_init_normalized q trans rot s st sr Hq Ht Hr)|].
  intros self (H1 & H2 & q1 & H3 & H4 & H5). rewrite H1, H2, H3.
  eapply returns_mono; [apply (QuatAffine_init_normalized q1 trans rot s st sr H4 Ht Hr)|].
  intros self' (_ & _ & q2 & G3 & G4 & G5).
  exists q1, q2. split; [reflexivity|]. split; [exact G3|].
  split; [congruence|]. rewrite G4.
  intros idx Hi. apply in_shape_cons_inv in Hi. destruct Hi as (k & l & -> & Hk & Hl).
  assert (E : quat_at q2 l = quat_at q1 l).
  { rewrite (G5 l Hl). apply quat_unit_of_unit. rewrite (H5 l Hl).
    apply quat_unit_norm. now apply Hne. }
  unfold quat_at in E. injection E as E0 E1 E2 E3.
  destruct k as [|[|[|[|k]]]]; try assumption. lia.
Qed.

Lemma QuatAffine_init_normalize_idempotent_witness :
  returns (QuatAffine_init (Some (full_quat [2]%nat (0, 3, 0, 4))) (full_vec [2]%nat (1, 2, 3))
             (Some (full_mat [2]%nat identity_mat)) true)
    (fun self =>
       returns (QuatAffine_init (quaternion self) (translation self)
                  (Some (rotation self)) true)
         (fun self' =>
            exists q1 q2, quaternion self = Some q1 /\ quaternion self' = Some q2 /\
              same_array q2 q1)).
Proof.
  apply (QuatAffine_init_normalize_idempotent _ _ _ [2]%nat [2]%nat [2]%nat);
    try reflexivity.
  intros l _. unfold quat_at, full_quat. simpl. intros E. injection E as E1 E2. lra.
Defined.

(** * Points: the other round trip and rigidity *)

Lemma mvec_isometry (m : mat3) (p q t : vec3) :
  orthonormal m ->
  dist2 (vadd (mvec m p) t) (vadd (mvec m q) t) = dist2 p q.
Proof.
  intros H. pose proof (orthonormal_columns m H) as C.
  pose proof (C 0%nat 0%nat ltac:(lia) ltac:(lia)) as C00.
  pose proof (C 0%nat 1%nat ltac:(lia) ltac:(lia)) as C01.
  pose proof (C 0%nat 2%nat ltac:(lia) ltac:(lia)) as C02.
  pose proof (C 1%nat 1%nat ltac:(lia) ltac:(lia)) as C11.
  pose proof (C 1%nat 2%nat ltac:(lia) ltac:(lia)) as C12.
  pose proof (C 2%nat 2%nat ltac:(lia) ltac:(lia)) as C22.
  unfold identity_mat in *. cbn [Nat.eqb] in *.
  destruct p as [[px py] pz]. destruct q as [[qx qy] qz]. destruct t as [[tx ty] tz].
  unfold dist2, sumsq, vsub, vadd, mvec.
  set (a := m 0%nat 0%nat) in *. set (b := m 0%nat 1%nat) in *.
  set (c := m 0%nat 2%nat) in *. set (d := m 1%nat 0%nat) in *.
  set (e := m 1%nat 1%nat) in *. set (f := m 1%nat 2%nat) in *.
  set (g := m 2%nat 0%nat) in *. set (h := m 2%nat 1%nat) in *.
  set (k := m 2%nat 2%nat) in *.
  transitivity
    ((a * a + d * d + g * g) * (px - qx) ^ 2
     + (b * b + e * e + h * h) * (py - qy) ^ 2
     + (c * c + f * f + k * k) * (pz - qz) ^ 2
     + 2 * (a * b + d * e + g * h) * ((px - qx) * (py - qy))
     + 2 * (a * c + d * f + g * k) * ((px - qx) * (pz - qz))
     + 2 * (b * c + e * f + h * k) * ((py - qy) * (pz - qz))); [ring|].
  rewrite C00, C01, C02, C11, C12, C22. ring.
Qed.

Lemma mvec_mtvec_shift (m : mat3) (p t : vec3) :
  orthonormal m -> vadd (mvec m (mtvec m (vsub p t))) t = p.
Proof.
  intros H. rewrite mvec_of_mtvec by assumption.
  destruct p as [[px py] pz]. destruct t as [[tx ty] tz].
  unfold vadd, vsub. apply vec3_eq; ring.
Qed.

Lemma point_at_denotes x y z s g idx :
  denotes x s (fun l => vec_get (g l) 0) ->
  denotes y s (fun l => vec_get (g l) 1) ->
  denotes z s (fun l => vec_get (g l) 2) ->
  in_shape idx s -> point_at x y z idx = g idx.
Proof.
  intros Hx Hy Hz Hi. unfold point_at.
  rewrite (denotes_item _ _ _ _ Hx Hi), (denotes_item _ _ _ _ Hy Hi),
    (denotes_item _ _ _ _ Hz Hi).
  destruct (g idx) as [[a b] c]. reflexivity.
Qed.

Lemma same_array_coord r x y z s g k :
  denotes r s (fun l => vec_get (g l) k) ->
  rshape (match k with 0%nat => x | 1%nat => y | _ => z end) = s -> (k < 3)%nat ->
  (forall l, in_shape l s -> g l = point_at x y z l) ->
  same_array r (match k with 0%nat => x | 1%nat => y | _ => z end).
Proof.
  intros Hr Hs Hk Hg.
  apply (same_array_denotes _ _ s (fun l => vec_get (g l) k) Hr).
  eapply denotes_ext; [apply (denotes_coord x y z s k Hs Hk)|].
  intros l Hl. cbv beta. now rewrite Hg.
Qed.

(** X13.  [invert_point] returns [rotation^T (p - translation)] at each
    index, for any rotation; when the rotation matrices are orthonormal,
    [apply_to_point] with the same [extra_dims] maps the result back to
    the point. *)
Theorem apply_to_point_invert_point (self : QuatAffine) (s E : list nat)
  (extra_dims : nat) px py pz :
  rshape (rotation self) = (3 :: 3 :: s)%nat ->
  rshape (translation self) = (3 :: s)%nat ->
  length E = extra_dims ->
  rshape px = E ++ s -> rshape py = E ++ s -> rshape pz = E ++ s ->
  returns (invert_point self (Unstacked px py pz) extra_dims)
    (fun '(q0, q1, q2) =>
       (forall idx, in_shape idx (E ++ s) ->
          point_at q0 q1 q2 idx
          = mtvec (frame_rot self extra_dims idx)
                  (vsub (point_at px py pz idx) (frame_trans self extra_dims idx))) /\
       ((forall l, in_shape l s -> orthonormal (mat_at (rotation self) l)) ->
        returns (apply_to_point self (Unstacked q0 q1 q2) extra_dims)
          (fun '(r0, r1, r2) =>
             same_array r0 px /\ same_array r1 py /\ same_array r2 pz))).
Proof.
  intros Hrot Htrans Hextra Hx Hy Hz.
  pose proof (denotes_coord px py pz (E ++ s) 0 Hx ltac:(lia)) as Dx.
  pose proof (denotes_coord px py pz (E ++ s) 1 Hy ltac:(lia)) as Dy.
  pose proof (denotes_coord px py pz (E ++ s) 2 Hz ltac:(lia)) as Dz.
  eapply returns_mono;
    [apply (invert_point_spec self s E extra_dims Hrot Htrans Hextra _ _ _ _ Dx Dy Dz)|].
  intros [[q0 q1] q2] (H0 & H1 & H2). cbv zeta in H0, H1, H2. split.
  - intros idx Hi. exact (point_at_denotes _ _ _ _ _ idx H0 H1 H2 Hi).
  - intros Hortho.
    eapply returns_mono;
      [apply (apply_to_point_spec self s E extra_dims Hrot Htrans Hextra _ _ _ _ H0 H1 H2)|].
    intros [[r0 r1] r2] (G0 & G1 & G2). cbv zeta in G0, G1, G2.
    assert (Back : forall idx, in_shape idx (E ++ s) ->
              vadd (mvec (frame_rot self extra_dims idx)
                      (mtvec (frame_rot self extra_dims idx)
                         (vsub (point_at px py pz idx) (frame_trans self extra_dims idx))))
                   (frame_trans self extra_dims idx)
              = point_at px py pz idx).
    { intros idx Hi. apply mvec_mtvec_shift. apply Hortho.
      apply (in_shape_skipn _ E s idx Hextra Hi). }
    split; [|split].
    + exact (same_array_coord r0 px py pz _ _ 0 G0 Hx ltac:(lia) Back).
    + exact (same_array_coord r1 px py pz _ _ 1 G1 Hy ltac:(lia) Back).
    + exact (same_array_coord r2 px py pz _ _ 2 G2 Hz ltac:(lia) Back).
Qed.

Lemma apply_to_point_invert_point_witness :
  returns (invert_point (identity_frame [2]%nat (1, 2, 3))
             (Unstacked points_2_4 points_2_4 points_2_4) 1)
    (fun '(q0, q1, q2) =>
       returns (apply_to_point (identity_frame [2]%nat (1, 2, 3)) (Unstacked q0 q1 q2) 1)
         (fun '(r0, r1, r2) =>
            same_array r0 points_2_4 /\ same_array r1 points_2_4 /\
            same_array r2 points_2_4)).
Proof.
  eapply returns_mono.
  - apply (apply_to_point_invert_point (identity_frame [2]%nat (1, 2, 3)) [2]%nat [4]%nat 1);
      reflexivity.
  - intros [[q0 q1] q2] [_ H]. apply H. intros l _. apply orthonormal_identity.
Defined.

(** X14.  A frame with orthonormal rotation matrices moves points
    rigidly: the images [apply_to_point] returns for two points are as far
    apart as the points are. *)
Theorem apply_to_point_keeps_distances (self : QuatAffine) (s E : list nat)
  (extra_dims : nat) px py pz qx qy qz :
  rshape (rotation self) = (3 :: 3 :: s)%nat ->
  rshape (translation self) = (3 :: s)%nat ->
  length E = extra_dims ->
  rshape px = E ++ s -> rshape py = E ++ s -> rshape pz = E ++ s ->
  rshape qx = E ++ s -> rshape qy = E ++ s -> rshape qz = E ++ s ->
  (forall l, in_shape l s -> orthonormal (mat_at (rotation self) l)) ->
  returns (apply_to_point self (Unstacked px py pz) extra_dims)
    (fun '(p0, p1, p2) =>
       returns (apply_to_point self (Unstacked qx qy qz) extra_dims)
         (fun '(q0, q1, q2) =>
            forall idx, in_shape idx (E ++ s) ->
              dist2 (point_at p0 p1 p2 idx) (point_at q0 q1 q2 idx)
              = dist2 (point_at px py pz idx) (point_at qx qy qz idx))).
Proof.
  intros Hrot Htrans Hextra Hpx Hpy Hpz Hqx Hqy Hqz Hortho.
  pose proof (denotes_coord px py pz (E ++ s) 0 Hpx ltac:(lia)) as Dpx.
  pose proof (denotes_coord px py pz (E ++ s) 1 Hpy ltac:(lia)) as Dpy.
  pose proof (denotes_coord px py pz (E ++ s) 2 Hpz ltac:(lia)) as Dpz.
  pose proof (denotes_coord qx qy qz (E ++ s) 0 Hqx ltac:(lia)) as Dqx.
  pose proof (denotes_coord qx qy qz (E ++ s) 1 Hqy ltac:(lia)) as Dqy.
  pose proof (denotes_coord qx qy qz (E ++ s) 2 Hqz ltac:(lia)) as Dqz.
  eapply returns_mono;
    [apply (apply_to_point_spec self s E extra_dims Hrot Htrans Hextra _ _ _ _ Dpx Dpy Dpz)|].
  intros [[p0 p1] p2] (P0 & P1 & P2). cbv zeta in P0, P1, P2.
  eapply returns_mono;
    [apply (apply_to_point_spec self s E extra_dims Hrot Htrans Hextra _ _ _ _ Dqx Dqy Dqz)|].
  intros [[q0 q1] q2] (Q0 & Q1 & Q2). cbv zeta in Q0, Q1, Q2.
  intros idx Hi.
  rewrite (point_at_denotes _ _ _ _ _ idx P0 P1 P2 Hi),
    (point_at_denotes _ _ _ _ _ idx Q0 Q1 Q2 Hi).
  apply mvec_isometry. apply Hortho. apply (in_shape_skipn _ E s idx Hextra Hi).
Qed.

Lemma apply_to_point_keeps_distances_witness :
  returns (apply_to_point (identity_frame [2]%nat (1, 2, 3))
             (Unstacked points_2_4 points_2_4 points_2_4) 1)
    (fun '(p0, p1, p2) =>
       returns (apply_to_point (identity_frame [2]%nat (1, 2, 3))
                  (Unstacked points_2_4 (np_zeros_like points_2_4) points_2_4) 1)
         (fun '(q0, q1, q2) =>
            forall idx, in_shape idx [4; 2]%nat ->
              dist2 (point_at p0 p1 p2 idx) (point_at q0 q1 q2 idx)
              = dist2 (point_at points_2_4 points_2_4 points_2_4 idx)
                  (point_at points_2_4 (np_zeros_like points_2_4) points_2_4 idx))).
Proof.
  apply (apply_to_point_keeps_distances (identity_frame [2]%nat (1, 2, 3)) [2]%nat [4]%nat 1);
    try reflexivity.
  intros l _. apply orthonormal_identity.
Defined.

(** * Canonical transforms: preconditions, invariance, reference frames *)

Lemma canonical_inputs_shapes rank n_xyz ca_xyz c_xyz :
  canonical_inputs (S rank) n_xyz ca_xyz c_xyz ->
  exists s, length s = rank /\ rshape n_xyz = (3 :: s)%nat /\
            rshape ca_xyz = (3 :: s)%nat /\ rshape c_xyz = (3 :: s)%nat.
Proof.
  unfold canonical_inputs, np_ndim, last_dim.
  intros (Hr & Hl & H1 & H2).
  destruct (rshape n_xyz) as [|d s] eqn:E; [discriminate|].
  injection Hl as ->. exists s. simpl in Hr.
  repeat split; congruence.
Qed.

(** The three assertions at the head of both builders. *)
Lemma canonical_asserts_fail {A : Type} rank n_xyz ca_xyz c_xyz (k : unit -> result A) :
  ~ canonical_inputs (S rank) n_xyz ca_xyz c_xyz ->
  (_ <- assert (np_ndim n_xyz =? S rank)%nat ;;
   d <- shape_neg n_xyz 1 ;;
   _ <- assert (d =? 3)%nat ;;
   u <- assert (shape_eqb (rshape n_xyz) (rshape ca_xyz)
                && shape_eqb (rshape ca_xyz) (rshape c_xyz)) ;;
   k u) = Raise AssertionError.
Proof.
  intros Hno.
  destruct (np_ndim n_xyz =? S rank)%nat eqn:E1; [|reflexivity].
  cbn [assert bind]. unfold shape_neg.
  destruct (rshape n_xyz) as [|d s] eqn:E.
  { unfold np_ndim in E1. rewrite E in E1. discriminate E1. }
  cbn [Nat.sub nth_error bind].
  destruct (d =? 3)%nat eqn:E2; [|reflexivity].
  cbn [assert bind].
  destruct (shape_eqb (d :: s) (rshape ca_xyz) && shape_eqb (rshape ca_xyz) (rshape c_xyz))
    eqn:E3; [|reflexivity].
  exfalso. apply Hno. apply andb_prop in E3. destruct E3 as [A1 A2].
  apply shape_eqb_eq in A1, A2. apply Nat.eqb_eq in E1, E2. subst d.
  unfold canonical_inputs, last_dim. rewrite E. auto.
Qed.

(** X15.  [make_canonical_transform] accepts exactly the triples of
    arrays of one shape (b, n, 3): on those it returns a translation of
    that shape and a rotation of shape (b, n, 3, 3), whatever the
    coordinates; on every other input it raises [AssertionError]. *)
Theorem make_canonical_transform_accepts n_xyz ca_xyz c_xyz :
  (canonical_inputs 3 n_xyz ca_xyz c_xyz ->
   returns (make_canonical_transform n_xyz ca_xyz c_xyz)
     (fun '(translation, rotation) =>
        rshape translation = rshape n_xyz /\
        rshape rotation = (3 :: rshape n_xyz)%nat)) /\
  (~ canonical_inputs 3 n_xyz ca_xyz c_xyz ->
   make_canonical_transform n_xyz ca_xyz c_xyz = Raise AssertionError).
Proof.
  split.
  - intros Hin. destruct (canonical_inputs_shapes _ _ _ _ Hin) as (s & Hl & Hn & Hca & Hc).
    eapply returns_mono; [apply (make_canonical_transform_spec _ _ _ s Hl Hn Hca Hc)|].
    intros [t r] [Ht Hr]. rewrite Hn.
    split; [exact (denotes_shape _ _ _ Ht)|exact (denotes_shape _ _ _ Hr)].
  - intros Hno. unfold make_canonical_transform.
    now apply canonical_asserts_fail.
Qed.

Lemma make_canonical_transform_accepts_witness :
  make_canonical_transform (array_1_3 N_ref) (array_1_3 CA_ref) (array_1_3 C_ref)
  = Raise AssertionError.
Proof.
  apply (proj2 (make_canonical_transform_accepts _ _ _)).
  intros (H & _). discriminate H.
Defined.

(** X16.  [make_canonical_transform_np] accepts exactly the triples of
    arrays of one shape (b, 3): on those it returns a translation of that
    shape and a rotation of shape (b, 3, 3); on every other input it
    raises [AssertionError]. *)
Theorem make_canonical_transform_np_accepts n_xyz ca_xyz c_xyz :
  (canonical_inputs 2 n_xyz ca_xyz c_xyz ->
   returns (make_canonical_transform_np n_xyz ca_xyz c_xyz)
     (fun '(translation, rotation) =>
        rshape translation = rshape n_xyz /\
        rshape rotation = (3 :: rshape n_xyz)%nat)) /\
  (~ canonical_inputs 2 n_xyz ca_xyz c_xyz ->
   make_canonical_transform_np n_xyz ca_xyz c_xyz = Raise AssertionError).
Proof.
  split.
  - intros Hin. destruct (canonical_inputs_shapes _ _ _ _ Hin) as (s & Hl & Hn & Hca & Hc).
    destruct s as [|b [|? ?]]; try discriminate Hl.
    eapply returns_mono; [apply (make_canonical_transform_np_spec _ _ _ b Hn Hca Hc)|].
    intros [t r] [Ht Hr]. rewrite Hn.
    split; [exact (denotes_shape _ _ _ Ht)|exact (denotes_shape _ _ _ Hr)].
  - intros Hno. unfold make_canonical_transform_np.
    now apply canonical_asserts_fail.
Qed.

Lemma make_canonical_transform_np_accepts_witness :
  make_canonical_transform_np (array_1_1_3 N_ref) (array_1_1_3 CA_ref) (array_1_1_3 C_ref)
  = Raise AssertionError.
Proof.
  apply (proj2 (make_canonical_transform_np_accepts _ _ _)).
  intros (H & _). discriminate H.
Defined.

Lemma canonical_rotation_shift n ca c d :
  canonical_rotation (vadd n d) (vadd ca d) (vadd c d) = canonical_rotation n ca c.
Proof.
  assert (E : forall p, vadd (vadd p d) (vneg (vadd ca d)) = vadd p (vneg ca)).
  { intros [[px py] pz]. destruct ca as [[ax ay] az]. destruct d as [[dx dy] dz].
    unfold vadd, vneg. apply vec3_eq; ring. }
  unfold canonical_rotation. rewrite !E. reflexivity.
Qed.

Lemma np_add_vec a d s :
  rshape a = (3 :: s)%nat -> rshape d = (3 :: s)%nat ->
  returns (np_add a d)
    (fun r => rshape r = (3 :: s)%nat /\
       forall l, in_shape l s -> vec_at r l = vadd (vec_at a l) (vec_at d l)).
Proof.
  intros Ha Hd.
  pose proof (denotes_self a) as Da. rewrite Ha in Da.
  pose proof (denotes_self d) as Dd. rewrite Hd in Dd.
  eapply returns_mono; [apply (np_add_same a d _ _ _ Da Dd)|].
  intros r [Hs Hr]. split; [exact Hs|]. intros l Hl.
  unfold vec_at, vadd.
  rewrite !Hr by (apply in_shape_cons; split; [lia|assumption]). reflexivity.
Qed.

(** X17.  The canonical rotation depends on the positions of N and C
    relative to CA only: moving the three atoms by one displacement [d]
    leaves the rotation of [make_canonical_transform] unchanged and
    changes the translation by [-d]. *)
Theorem make_canonical_transform_shift n_xyz ca_xyz c_xyz d s :
  length s = 2%nat ->
  rshape n_xyz = (3 :: s)%nat -> rshape ca_xyz = (3 :: s)%nat ->
  rshape c_xyz = (3 :: s)%nat -> rshape d = (3 :: s)%nat ->
  returns (make_canonical_transform n_xyz ca_xyz c_xyz)
    (fun '(translation, rotation) =>
       returns (n' <- np_add n_xyz d ;;
                ca' <- np_add ca_xyz d ;;
                c' <- np_add c_xyz d ;;
                make_canonical_transform n' ca' c')
         (fun '(translation', rotation') =>
            same_array rotation' rotation /\
            returns (np_subtract translation d)
              (fun moved => same_array translation' moved))).
Proof.
  intros Hl Hn Hca Hc Hd.
  eapply returns_mono; [apply (make_canonical_transform_spec _ _ _ s Hl Hn Hca Hc)|].
  intros [t r] [Ht Hr].
  step (apply (np_add_vec n_xyz d s Hn Hd)) as n' Hn'.
  step (apply (np_add_vec ca_xyz d s Hca Hd)) as ca' Hca'.
  step (apply (np_add_vec c_xyz d s Hc Hd)) as c' Hc'.
  destruct Hn' as [Sn' En']. destruct Hca' as [Sca' Eca']. destruct Hc' as [Sc' Ec'].
  eapply returns_mono; [apply (make_canonical_transform_spec _ _ _ s Hl Sn' Sca' Sc')|].
  intros [t' r'] [Ht' Hr']. split.
  - apply (same_array_denotes _ _ _ _ Hr'). eapply denotes_ext; [exact Hr|].
    intros idx Hi. mat_cases idx Hi; cbn [mat_entries];
      rewrite (En' _ Hl0), (Eca' _ Hl0), (Ec' _ Hl0), canonical_rotation_shift;
      reflexivity.
  - pose proof (denotes_self d) as Dd. rewrite Hd in Dd.
    eapply returns_mono; [apply (np_subtract_same t d _ _ _ Ht Dd)|].
    intros moved Hm. apply (same_array_denotes _ _ _ _ Ht').
    eapply denotes_ext; [exact Hm|].
    intros idx Hi. apply in_shape_cons_inv in Hi. destruct Hi as (k & l & -> & Hk & Hl').
    cbn [vec_entries]. rewrite (Eca' _ Hl').
    unfold vec_at, vadd, vneg.
    destruct k as [|[|[|k]]]; try lia; simpl; ring.
Qed.

Lemma make_canonical_transform_shift_witness :
  returns (make_canonical_transform (array_1_1_3 N_ref) (array_1_1_3 CA_ref)
             (array_1_1_3 C_ref))
    (fun '(translation, rotation) =>
       returns (n' <- np_add (array_1_1_3 N_ref) (array_1_1_3 (1, 2, 3)) ;;
                ca' <- np_add (array_1_1_3 CA_ref) (array_1_1_3 (1, 2, 3)) ;;
                c' <- np_add (array_1_1_3 C_ref) (array_1_1_3 (1, 2, 3)) ;;
                make_canonical_transform n' ca' c')
         (fun '(translation', rotation') =>
            same_array rotation' rotation /\
            returns (np_subtract translation (array_1_1_3 (1, 2, 3)))
              (fun moved => same_array translation' moved))).
Proof.
  apply (make_canonical_transform_shift _ _ _ _ [1; 1]%nat); reflexivity.
Defined.

Lemma np_transpose_0132_spec a s M :
  length s = 2%nat ->
  denotes a (3 :: 3 :: s)%nat (mat_entries M) ->
  returns (np_transpose_0132 a)
    (fun r => denotes r (3 :: 3 :: s)%nat (mat_entries (fun l => mtranspose (M l)))).
Proof.
  intros Hl [Hs Ha]. destruct s as [|d1 [|d0 [|? ?]]]; try discriminate Hl.
  unfold np_transpose_0132. rewrite Hs. cbn [returns]. split; [reflexivity|].
  intros idx Hi. pose proof Hi as Hi'. mat_cases idx Hi.
  all: apply in_shape_cons_inv in Hl0; destruct Hl0 as (i1 & l1 & -> & H1 & Hl1).
  all: apply in_shape_cons_inv in Hl1; destruct Hl1 as (i0 & l0 & -> & H0 & Hl0).
  all: inversion Hl0; subst; cbn [item mat_entries mtranspose].
  all: rewrite Ha;
    [reflexivity
    |repeat (apply in_shape_cons; split; [lia|]); apply in_shape_nil].
Qed.

Lemma no_trailing_violation (t r : ndarray) (st sr : list nat) :
  rshape t = (3 :: st)%nat -> rshape r = (3 :: 3 :: sr)%nat ->
  ~ trailing_violation None t (Some r).
Proof.
  intros Ht Hr [(q & [=] & _)|[H|(r' & [= <-] & H)]]; apply H.
  - unfold last_dim. now rewrite Ht.
  - unfold last_two_dims. now rewrite Hr.
Qed.

Lemma mtvec_transposed (A B : mat3) (v : vec3) :
  (forall i j, (i < 3)%nat -> (j < 3)%nat -> A i j = B j i) -> mtvec A v = mvec B v.
Proof.
  intros H. destruct v as [[x y] z]. unfold mtvec, mvec.
  rewrite !H by lia. reflexivity.
Qed.

(** X18.  [make_transform_from_reference] returns the frame whose inverse
    is the canonical transform: its translation is [ca_xyz], its rotation
    is the transpose of the rotation of [make_canonical_transform], and a
    [QuatAffine] built from the two (no quaternion, [normalize=False])
    sends a point [p], by [invert_point], to the rotation of
    [make_canonical_transform] applied to [p] shifted by its
    translation. *)
Theorem reference_frame_inverts_to_canonical n_xyz ca_xyz c_xyz s px py pz :
  length s = 2%nat ->
  rshape n_xyz = (3 :: s)%nat -> rshape ca_xyz = (3 :: s)%nat ->
  rshape c_xyz = (3 :: s)%nat ->
  rshape px = s -> rshape py = s -> rshape pz = s ->
  returns (make_canonical_transform n_xyz ca_xyz c_xyz)
    (fun '(translation, rotation) =>
       returns (make_transform_from_reference n_xyz ca_xyz c_xyz)
         (fun '(rotation', translation') =>
            same_array translation' ca_xyz /\
            (forall l i j, in_shape l s -> (i < 3)%nat -> (j < 3)%nat ->
               mat_at rotation' l i j = mat_at rotation l j i) /\
            returns (QuatAffine_init None translation' (Some rotation') false)
              (fun self =>
                 returns (invert_point self (Unstacked px py pz) 0)
                   (fun '(q0, q1, q2) =>
                      forall l, in_shape l s ->
                        point_at q0 q1 q2 l
                        = mvec (mat_at rotation l)
                               (vadd (point_at px py pz l) (vec_at translation l)))))).
Proof.
  intros Hl Hn Hca Hc Hx Hy Hz.
  pose proof (make_canonical_transform_spec _ _ _ s Hl Hn Hca Hc) as H.
  destruct (returns_inv _ _ H) as ([t r] & E & Ht & Hr). clear H.
  unfold make_transform_from_reference. rewrite E. cbn [returns bind].
  step (apply (np_transpose_0132_spec r s _ Hl Hr)) as r' Hr'.
  cbn [returns]. split.
  - apply (same_array_denotes _ _ (3 :: s)%nat (item ca_xyz)).
    + eapply denotes_ext; [apply np_negative_spec; exact Ht|].
      intros idx Hi. apply in_shape_cons_inv in Hi.
      destruct Hi as (k & l & -> & Hk & Hl'). cbn [vec_entries].
      unfold vec_at, vneg. destruct k as [|[|[|k]]]; try lia; simpl; ring.
    + rewrite <- Hca. apply denotes_self.
  - assert (Tr : forall l i j, in_shape l s -> (i < 3)%nat -> (j < 3)%nat ->
              mat_at r' l i j = mat_at r l j i).
    { intros l i j Hl' Hi Hj.
      rewrite (mat_at_denotes r' s _ l i j Hr' Hl' Hi Hj).
      unfold mtranspose.
      now rewrite <- (mat_at_denotes r s _ l j i Hr Hl' Hj Hi). }
    split; [exact Tr|].
    pose proof (denotes_shape _ _ _ Hr') as Sr'.
    assert (St' : rshape (np_negative t) = (3 :: s)%nat)
      by exact (denotes_shape _ _ _ (np_negative_spec _ _ _ Ht)).
    eapply returns_mono;
      [apply (QuatAffine_init_returns None (np_negative t) r' false
                (no_trailing_violation _ _ _ _ St' Sr'))|].
    intros self (Er & Et & _).
    assert (Hrot : rshape (rotation self) = (3 :: 3 :: s)%nat) by now rewrite Er.
    assert (Htr : rshape (translation self) = (3 :: s)%nat) by now rewrite Et.
    pose proof (denotes_coord px py pz s 0 Hx ltac:(lia)) as Dx.
    pose proof (denotes_coord px py pz s 1 Hy ltac:(lia)) as Dy.
    pose proof (denotes_coord px py pz s 2 Hz ltac:(lia)) as Dz.
    eapply returns_mono;
      [apply (invert_point_spec self s [] 0 Hrot Htr eq_refl _ _ _ _ Dx Dy Dz)|].
    intros [[q0 q1] q2] (H0 & H1 & H2). cbv zeta in H0, H1, H2. cbn [app] in H0, H1, H2.
    intros l Hl'.
    rewrite (point_at_denotes _ _ _ _ _ l H0 H1 H2 Hl').
    unfold frame_rot, frame_trans. cbn [skipn]. rewrite Er, Et.
    rewrite (mtvec_transposed (mat_at r' l) (mat_at r l)).
    + f_equal. unfold vec_at, np_negative, np_map1. cbn [item].
      destruct (point_at px py pz l) as [[x y] z]. unfold vsub, vadd.
      apply vec3_eq; ring.
    + intros i j Hi Hj. now apply Tr.
Qed.

Lemma reference_frame_inverts_to_canonical_witness :
  returns (make_canonical_transform (array_1_1_3 N_ref) (array_1_1_3 CA_ref)
             (array_1_1_3 C_ref))
    (fun '(translation, rotation) =>
       returns (make_transform_from_reference (array_1_1_3 N_ref) (array_1_1_3 CA_ref)
                  (array_1_1_3 C_ref))
         (fun '(rotation', translation') =>
            same_array translation' (array_1_1_3 CA_ref))).
Proof.
  eapply returns_mono.
  - apply (reference_frame_inverts_to_canonical _ _ _ [1; 1]%nat
             (mkarray [1; 1]%nat (fun _ => 1)) (mkarray [1; 1]%nat (fun _ => 2))
             (mkarray [1; 1]%nat (fun _ => 3))); reflexivity.
  - intros [t r] H. eapply returns_mono; [exact H|].
    intros [r' t'] [H' _]. exact H'.
Defined.

(** ** The placement of the unbatched variant *)

(** [c_rot_matrix] of the unbatched variant applied to the shifted C. *)
Lemma c_rot_np_on (x y z r n1 n2 : R) :
  r = sqrt (x ^ 2 + y ^ 2) ->
  n1 = sqrt (x ^ 2 + y ^ 2 + eps20) ->
  n2 = sqrt (eps20 + x ^ 2 + y ^ 2 + z ^ 2) ->
  mvec (mmul (c2_rot_np (x, y, z)) (c1_rot (x, y, z))) (x, y, z)
  = ((r * (r * r / n1) + z * z) / n2, 0, z / n2 * (r * (n1 - r) / n1)).
Proof.
  intros Er En1 En2.
  destruct (guarded_norm x y) as (Hr & Hrr & Hn & Hnn & _).
  rewrite <- Er in Hr, Hrr. rewrite <- En1 in Hn, Hnn.
  destruct (guarded_norm3 x y z) as (Hn2 & _).
  rewrite <- En2 in Hn2.
  rewrite mvec_mmul. unfold c1_rot, c2_rot_np, mvec, rows9.
  cbn [nth Nat.mul Nat.add].
  rewrite <- Er, <- En1, <- En2. clear Er En1 En2.
  apply vec3_eq; field_simplify_eq; try lra.
  - replace (x ^ 2) with (r * r - y ^ 2) by lra. ring.
  - replace (x ^ 2) with (r * r - y ^ 2) by lra. ring.
Qed.

Lemma c_rot_np_y (x y z a b c : R) :
  let '(_, Y, _) := mvec (mmul (c2_rot_np (x, y, z)) (c1_rot (x, y, z))) (a, b, c) in
  Y = (x * b - y * a) / sqrt (x ^ 2 + y ^ 2 + eps20).
Proof.
  destruct (guarded_norm x y) as (_ & _ & Hn & _).
  destruct (guarded_norm3 x y z) as (Hn2 & _).
  rewrite mvec_mmul. unfold c1_rot, c2_rot_np, mvec, rows9.
  cbn [nth Nat.mul Nat.add].
  set (n1 := sqrt (x ^ 2 + y ^ 2 + eps20)) in *.
  set (n2 := sqrt (eps20 + x ^ 2 + y ^ 2 + z ^ 2)) in *.
  field. lra.
Qed.

Lemma canonical_c_image_np (m : vec3) (x y z : R) :
  let '(X, Y, Z) :=
    mvec (mmul (n_rot m) (mmul (c2_rot_np (x, y, z)) (c1_rot (x, y, z)))) (x, y, z) in
  0 <= X /\ Rabs Y <= 1e-10 /\ Rabs Z <= 1e-10 /\
  ((x, y, z) <> (0, 0, 0) -> 0 < X) /\
  (z = 0 \/ (x = 0 /\ y = 0) -> Y = 0 /\ Z = 0).
Proof.
  destruct m as [[a b] c].
  rewrite mvec_mmul.
  rewrite (c_rot_np_on x y z _ _ _ eq_refl eq_refl eq_refl).
  rewrite (n_rot_apply a b c _ _ _ _ eq_refl).
  destruct (guarded_norm x y) as (Hr & Hrr & Hn & Hnn & Hrn & Hnr & _).
  destruct (guarded_norm b c) as (_ & _ & Hn3 & _ & _ & _ & Hb & Hc).
  destruct (guarded_norm3 x y z) as (Hn2 & Hnn2 & Hz).
  set (r := sqrt (x ^ 2 + y ^ 2)) in *.
  set (n1 := sqrt (x ^ 2 + y ^ 2 + eps20)) in *.
  set (n3 := sqrt (b ^ 2 + c ^ 2 + eps20)) in *.
  set (n2 := sqrt (eps20 + x ^ 2 + y ^ 2 + z ^ 2)) in *.
  pose proof eps20_pos as He.
  set (W := r * (n1 - r) / n1).
  assert (HW : 0 <= W <= 1e-10).
  { unfold W. split.
    - apply Rmult_le_pos; [nra|]. left. now apply Rinv_0_lt_compat.
    - apply Rmult_le_reg_r with n1; [assumption|].
      unfold Rdiv. rewrite Rmult_assoc, Rinv_l by lra. nra. }
  set (Z' := z / n2 * W).
  assert (HZ' : Rabs Z' <= 1e-10).
  { unfold Z'. rewrite Rabs_mult.
    pose proof (unit_ratio z n2 Hn2 Hz) as H1.
    rewrite (Rabs_right W) by lra.
    pose proof (Rabs_pos (z / n2)). nra. }
  pose proof (unit_ratio b n3 Hn3 Hb) as Hbn.
  pose proof (unit_ratio c n3 Hn3 Hc) as Hcn.
  assert (HX : 0 <= r * (r * r / n1) + z * z).
  { apply Rplus_le_le_0_compat; [|nra].
    apply Rmult_le_pos; [assumption|].
    apply Rmult_le_pos; [nra|]. left. now apply Rinv_0_lt_compat. }
  split; [|split; [|split; [|split]]].
  - apply Rmult_le_pos; [assumption|]. left. now apply Rinv_0_lt_compat.
  - replace (b / n3 * 0 + c / n3 * Z') with (c / n3 * Z') by ring.
    rewrite Rabs_mult. pose proof (Rabs_pos (c / n3)). pose proof (Rabs_pos Z'). nra.
  - replace (- c / n3 * 0 + b / n3 * Z') with (b / n3 * Z') by ring.
    rewrite Rabs_mult. pose proof (Rabs_pos (b / n3)). pose proof (Rabs_pos Z'). nra.
  - intros Hne.
    apply Rmult_lt_0_compat; [|now apply Rinv_0_lt_compat].
    destruct (Req_dec z 0) as [Hz0|Hz0].
    + assert (Hrpos : 0 < r).
      { destruct (Rle_lt_or_eq_dec _ _ Hr) as [|Hr0]; [assumption|].
        exfalso. apply Hne.
        assert (x = 0) by nra. assert (y = 0) by nra. subst. reflexivity. }
      apply Rplus_lt_le_0_compat; [|nra].
      apply Rmult_lt_0_compat; [assumption|].
      apply Rmult_lt_0_compat; [nra|]. now apply Rinv_0_lt_compat.
    + apply Rplus_le_lt_0_compat; [|nra].
      apply Rmult_le_pos; [assumption|].
      apply Rmult_le_pos; [nra|]. left. now apply Rinv_0_lt_compat.
  - intros H0. assert (HZ0 : Z' = 0).
    { unfold Z', W. destruct H0 as [->|[-> ->]].
      - unfold Rdiv. ring.
      - assert (r = 0) by nra. rewrite H. unfold Rdiv. ring. }
    rewrite HZ0. split; ring.
Qed.

Lemma canonical_n_image_np (x y z a b c : R) :
  let '(_, Y, Z) :=
    mvec (mmul (n_rot (mvec (mmul (c2_rot_np (x, y, z)) (c1_rot (x, y, z))) (a, b, c)))
               (mmul (c2_rot_np (x, y, z)) (c1_rot (x, y, z)))) (a, b, c) in
  Z = 0 /\ 0 <= Y /\ (x * b - y * a <> 0 -> 0 < Y).
Proof.
  rewrite mvec_mmul.
  pose proof (c_rot_np_y x y z a b c) as Hy.
  destruct (mvec (mmul (c2_rot_np (x, y, z)) (c1_rot (x, y, z))) (a, b, c)) as [[p q] t].
  rewrite (n_rot_on p q t _ eq_refl).
  destruct (guarded_norm q t) as (_ & _ & Hn & _).
  destruct (guarded_norm x y) as (_ & _ & Hn1 & _).
  set (n3 := sqrt (q ^ 2 + t ^ 2 + eps20)) in *.
  set (n1 := sqrt (x ^ 2 + y ^ 2 + eps20)) in *.
  split; [reflexivity|]. split.
  - apply Rmult_le_pos; [nra|]. left. now apply Rinv_0_lt_compat.
  - intros Hne. apply Rmult_lt_0_compat; [|now apply Rinv_0_lt_compat].
    assert (Hq : q <> 0).
    { rewrite Hy. intros H0. apply Hne.
      apply Rmult_eq_compat_r with (r := n1) in H0.
      unfold Rdiv in H0. rewrite Rmult_assoc, Rinv_l in H0 by lra. lra. }
    nra.
Qed.

(** X19.  [make_canonical_transform_np] places each residue as the
    batched builder does: shifting by its translation and rotating by its
    rotation puts CA at the origin, N in the xy-plane with [y >= 0]
    (strictly positive when the shifted C and N are independent in x, y),
    and C within [1e-10] of the non-negative x-axis (exactly on it when C
    lies in the xy-plane or on the z-axis through CA, and at positive [x]
    unless C coincides with CA). *)
Theorem make_canonical_transform_np_places n_xyz ca_xyz c_xyz b :
  rshape n_xyz = [3; b]%nat -> rshape ca_xyz = [3; b]%nat -> rshape c_xyz = [3; b]%nat ->
  returns (make_canonical_transform_np n_xyz ca_xyz c_xyz)
    (fun '(translation, rotation) =>
       forall ib, (ib < b)%nat ->
         shift_rotate translation rotation ca_xyz [ib] = (0, 0, 0) /\
         (let '(_, y, z) := shift_rotate translation rotation n_xyz [ib] in
          let '(c_x, c_y, _) := shifted c_xyz ca_xyz [ib] in
          let '(n_x, n_y, _) := shifted n_xyz ca_xyz [ib] in
          z = 0 /\ 0 <= y /\ (c_x * n_y - c_y * n_x <> 0 -> 0 < y)) /\
         (let '(x, y, z) := shift_rotate translation rotation c_xyz [ib] in
          let '(c_x, c_y, c_z) := shifted c_xyz ca_xyz [ib] in
          0 <= x /\ Rabs y <= 1e-10 /\ Rabs z <= 1e-10 /\
          ((c_x, c_y, c_z) <> (0, 0, 0) -> 0 < x) /\
          (c_z = 0 \/ (c_x = 0 /\ c_y = 0) -> y = 0 /\ z = 0))).
Proof.
  intros Hn Hca Hc.
  eapply returns_mono; [apply (make_canonical_transform_np_spec _ _ _ b Hn Hca Hc)|].
  intros [t r] [Ht Hr] ib Hib.
  pose proof (in_shape_1 ib b Hib) as Hl.
  pose proof (vec_at_denotes _ _ _ _ Ht Hl) as Et. cbv beta in Et.
  assert (Hp : forall p, shift_rotate t r p [ib]
             = mvec (canonical_rotation_np (vec_at n_xyz [ib]) (vec_at ca_xyz [ib])
                       (vec_at c_xyz [ib])) (shifted p ca_xyz [ib])).
  { intros p. unfold shift_rotate, shifted. rewrite Et.
    exact (mvec_mat_at r [b] _ [ib] _ Hr Hl). }
  rewrite !Hp. unfold canonical_rotation_np. cbv zeta.
  fold (shifted n_xyz ca_xyz [ib]). fold (shifted c_xyz ca_xyz [ib]).
  rewrite n_rot_np_eq, c1_rot_np_eq.
  split; [|split].
  - unfold shifted. apply mvec_zero.
  - destruct (shifted c_xyz ca_xyz [ib]) as [[x y] z].
    destruct (shifted n_xyz ca_xyz [ib]) as [[a b'] c].
    apply canonical_n_image_np.
  - destruct (shifted c_xyz ca_xyz [ib]) as [[x y] z].
    apply canonical_c_image_np.
Qed.

Lemma make_canonical_transform_np_places_witness :
  returns (make_canonical_transform_np (array_1_3 N_ref) (array_1_3 CA_ref)
             (array_1_3 C_ref))
    (fun '(translation, rotation) =>
       shift_rotate translation rotation (array_1_3 CA_ref) [0%nat] = (0, 0, 0)).
Proof.
  eapply returns_mono.
  - apply (make_canonical_transform_np_places _ _ _ 1%nat); reflexivity.
  - intros [t r] H. apply (H 0%nat). lia.
Defined.

(** ** The determinant of the canonical rotation *)

Lemma unit_mult a b : 0 <= a <= 1 -> 0 <= b <= 1 -> 0 <= a * b <= 1.
Proof. intros Ha Hb. split; nra. Qed.

Lemma guarded_ratio u : 0 <= u -> 0 <= u / (u + eps20) <= 1 /\ (0 < u -> 0 < u / (u + eps20)).
Proof.
  intros Hu. pose proof eps20_pos as He.
  assert (Hd : 0 < u + eps20) by lra.
  pose proof (Rinv_0_lt_compat _ Hd) as Hi.
  repeat split.
  - apply Rmult_le_pos; lra.
  - apply Rmult_le_reg_r with (u + eps20); [assumption|].
    unfold Rdiv. rewrite Rmult_assoc, Rinv_l by lra. lra.
  - intros Hp. apply Rmult_lt_0_compat; assumption.
Qed.

Lemma det3_c1_rot x y z :
  det3 (c1_rot (x, y, z)) = (x ^ 2 + y ^ 2) / (x ^ 2 + y ^ 2 + eps20).
Proof.
  destruct (guarded_norm x y) as (_ & _ & Hn & Hnn & _).
  unfold det3, c1_rot, rows9. cbn [nth Nat.mul Nat.add].
  set (n := sqrt (x ^ 2 + y ^ 2 + eps20)) in *.
  rewrite <- Hnn. field. lra.
Qed.

Lemma det3_n_rot a b c :
  det3 (n_rot (a, b, c)) = (b ^ 2 + c ^ 2) / (b ^ 2 + c ^ 2 + eps20).
Proof.
  destruct (guarded_norm b c) as (_ & _ & Hn & Hnn & _).
  unfold det3, n_rot, rows9. cbn [nth Nat.mul Nat.add].
  set (n := sqrt (b ^ 2 + c ^ 2 + eps20)) in *.
  rewrite <- Hnn. field. lra.
Qed.

Lemma det3_c2_rot x y z :
  0 <= det3 (c2_rot (x, y, z)) <= 1 /\
  (0 < x ^ 2 + y ^ 2 -> 0 < det3 (c2_rot (x, y, z))).
Proof.
  destruct (guarded_norm x y) as (Hr & Hrr & _).
  pose proof eps20_pos as He.
  assert (Hs : 0 <= sumsq (x, y, z)) by (unfold sumsq; nra).
  assert (Hm : 0 <= sqrt (sumsq (x, y, z))) by apply sqrt_pos.
  assert (Hmm : sqrt (sumsq (x, y, z)) * sqrt (sumsq (x, y, z)) = x ^ 2 + y ^ 2 + z ^ 2).
  { rewrite sqrt_sqrt by assumption. reflexivity. }
  assert (E : det3 (c2_rot (x, y, z))
              = (x ^ 2 + y ^ 2 + z ^ 2)
                / ((sqrt (sumsq (x, y, z)) + eps20) * (sqrt (sumsq (x, y, z)) + eps20))).
  { unfold det3, c2_rot, rows9. cbn [nth Nat.mul Nat.add].
    set (r := sqrt (x ^ 2 + y ^ 2)) in *.
    set (m := sqrt (sumsq (x, y, z))) in *.
    replace (x ^ 2 + y ^ 2) with (r * r) by exact Hrr.
    field. lra. }
  rewrite E. clear E.
  set (m := sqrt (sumsq (x, y, z))) in *.
  rewrite <- Hmm.
  assert (Hd : 0 < (m + eps20) * (m + eps20)) by nra.
  pose proof (Rinv_0_lt_compat _ Hd) as Hi.
  repeat split.
  - apply Rmult_le_pos; [nra|lra].
  - apply Rmult_le_reg_r with ((m + eps20) * (m + eps20)); [assumption|].
    unfold Rdiv. rewrite Rmult_assoc, Rinv_l by lra. nra.
  - intros Hp. apply Rmult_lt_0_compat; [|assumption]. nra.
Qed.

Lemma det3_canonical_rotation n ca c :
  0 <= det3 (canonical_rotation n ca c) <= 1 /\
  (xy_independent (vadd n (vneg ca)) (vadd c (vneg ca)) ->
   0 < det3 (canonical_rotation n ca c)).
Proof.
  unfold canonical_rotation. cbv zeta.
  destruct (vadd c (vneg ca)) as [[x y] z].
  destruct (vadd n (vneg ca)) as [[a b] d].
  rewrite !det3_mmul.
  pose proof (c_rot_y x y z a b d) as Hy.
  destruct (mvec (mmul (c2_rot (x, y, z)) (c1_rot (x, y, z))) (a, b, d)) as [[p q] t].
  rewrite det3_n_rot, det3_c1_rot.
  assert (Hxy : 0 <= x ^ 2 + y ^ 2) by nra.
  assert (Hqt : 0 <= q ^ 2 + t ^ 2) by nra.
  destruct (guarded_ratio _ Hxy) as [B1 P1].
  destruct (guarded_ratio _ Hqt) as [Bn Pn].
  destruct (det3_c2_rot x y z) as [B2 P2].
  split.
  - apply unit_mult; [assumption|]. now apply unit_mult.
  - unfold xy_independent. intros Hne.
    assert (Hxy' : 0 < x ^ 2 + y ^ 2).
    { destruct (Req_dec x 0) as [Hx|Hx]; [|nra].
      destruct (Req_dec y 0) as [Hy0|Hy0]; [|nra].
      exfalso. apply Hne. subst. ring. }
    assert (Hq : q <> 0).
    { destruct (guarded_norm x y) as (_ & _ & Hn1 & _).
      rewrite Hy. intros H0. apply Hne.
      apply Rmult_eq_compat_r with (r := sqrt (x ^ 2 + y ^ 2 + eps20)) in H0.
      unfold Rdiv in H0. rewrite Rmult_assoc, Rinv_l in H0 by lra. lra. }
    apply Rmult_lt_0_compat; [apply Pn; nra|].
    apply Rmult_lt_0_compat; [now apply P2|now apply P1].
Qed.

(** X20.  The rotation of [make_canonical_transform] is never a
    reflection: at every batch index its determinant lies between 0 and
    1, and it is positive when the shifted C and N are independent in
    x, y. *)
Theorem make_canonical_transform_determinant n_xyz ca_xyz c_xyz s :
  length s = 2%nat ->
  rshape n_xyz = (3 :: s)%nat -> rshape ca_xyz = (3 :: s)%nat ->
  rshape c_xyz = (3 :: s)%nat ->
  returns (make_canonical_transform n_xyz ca_xyz c_xyz)
    (fun '(translation, rotation) =>
       forall l, in_shape l s ->
         0 <= det3 (mat_at rotation l) <= 1 /\
         (xy_independent (shifted n_xyz ca_xyz l) (shifted c_xyz ca_xyz l) ->
          0 < det3 (mat_at rotation l))).
Proof.
  intros Hl Hn Hca Hc.
  eapply returns_mono; [apply (make_canonical_transform_spec _ _ _ s Hl Hn Hca Hc)|].
  intros [t r] [_ Hr] l Hl'.
  rewrite (det3_ext (mat_at r l)
             (canonical_rotation (vec_at n_xyz l) (vec_at ca_xyz l) (vec_at c_xyz l))).
  - apply det3_canonical_rotation.
  - intros i j Hi Hj. exact (mat_at_denotes r s _ l i j Hr Hl' Hi Hj).
Qed.

Lemma make_canonical_transform_determinant_witness :
  returns (make_canonical_transform (array_1_1_3 N_ref) (array_1_1_3 CA_ref)
             (array_1_1_3 C_ref))
    (fun '(translation, rotation) => 0 < det3 (mat_at rotation [0; 0]%nat)).
Proof.
  eapply returns_mono.
  - apply (make_canonical_transform_determinant _ _ _ [1; 1]%nat); reflexivity.
  - intros [t r] H. apply (H _ in_shape_1_1).
    unfold shifted. rewrite !vec_at_array_1_1_3.
    unfold xy_independent, N_ref, CA_ref, C_ref, vadd, vneg. lra.
Defined.

(** * Quaternion kernels: the contraction of [quat_to_rot], [quat_multiply_by_vec] *)

Lemma mat_of_9_quat_rot r q s l i j :
  denotes r (9 :: s)%nat
    (fun idx => match idx with
                | k :: l => quat_rot (quat_at q l) (k / 3)%nat (k mod 3)%nat
                | [] => 0
                end) ->
  in_shape l s -> (i < 3)%nat -> (j < 3)%nat ->
  mat_of_9 r l i j = quat_rot (quat_at q l) i j.
Proof.
  intros [_ Hr] Hl Hi Hj. unfold mat_of_9.
  rewrite Hr by (apply in_shape_cons; split; [lia|assumption]).
  cbv beta iota. f_equal.
  - symmetry. apply Nat.div_unique with (r := j); lia.
  - symmetry. apply Nat.mod_unique with (q := i); lia.
Qed.

(** X21.  The contraction [quat_to_rot] performs before its failing
    statement (the local [rot_tensor], of shape (..., 9)) holds, row after
    row, a matrix [M] with [M M^T = |q|^4 I] and [det M = |q|^6]: a
    rotation matrix when the quaternion has norm 1, a rotation scaled by
    [|q|^2] otherwise. *)
Theorem rot_tensor_scaled_rotation q s :
  rshape q = (4 :: s)%nat ->
  returns (rot_tensor q)
    (fun r => rshape r = (9 :: s)%nat /\
       forall l, in_shape l s ->
         (forall i j, (i < 3)%nat -> (j < 3)%nat ->
            mmul (mat_of_9 r l) (mtranspose (mat_of_9 r l)) i j
            = quat_sumsq (quat_at q l) ^ 2 * identity_mat i j) /\
         det3 (mat_of_9 r l) = quat_sumsq (quat_at q l) ^ 3 /\
         (quat_norm (quat_at q l) = 1 ->
          orthonormal (mat_of_9 r l) /\ det3 (mat_of_9 r l) = 1)).
Proof.
  intros Hq. eapply returns_mono; [apply (rot_tensor_spec q s Hq)|].
  intros r Hr. split; [exact (denotes_shape _ _ _ Hr)|]. intros l Hl.
  pose proof (fun i j => mat_of_9_quat_rot r q s l i j Hr Hl) as E.
  assert (G : forall i j, (i < 3)%nat -> (j < 3)%nat ->
            mmul (mat_of_9 r l) (mtranspose (mat_of_9 r l)) i j
            = quat_sumsq (quat_at q l) ^ 2 * identity_mat i j).
  { intros i j Hi Hj. unfold mmul, mtranspose. rewrite !E by lia.
    destruct (quat_at q l) as [[[w x] y] z].
    exact (quat_rot_gram w x y z i j Hi Hj). }
  assert (D : det3 (mat_of_9 r l) = quat_sumsq (quat_at q l) ^ 3).
  { rewrite (det3_ext _ _ E). destruct (quat_at q l) as [[[w x] y] z].
    apply quat_rot_det. }
  split; [exact G|]. split; [exact D|].
  intros Hn. assert (H1 : quat_sumsq (quat_at q l) = 1).
  { destruct (quat_at q l) as [[[w x] y] z]. now apply quat_norm_unit. }
  split.
  - intros i j Hi Hj. rewrite (G i j Hi Hj), H1. ring.
  - rewrite D, H1. ring.
Qed.

Lemma rot_tensor_scaled_rotation_witness :
  returns (rot_tensor (full_quat [2]%nat (0, 3, 0, 4)))
    (fun r => det3 (mat_of_9 r [1]%nat) = 25 ^ 3).
Proof.
  eapply returns_mono.
  - apply (rot_tensor_scaled_rotation _ [2]%nat). reflexivity.
  - intros r [_ H]. destruct (H [1]%nat) as (_ & D & _).
    + apply in_shape_cons. split; [lia|apply in_shape_nil].
    + rewrite D. unfold quat_sumsq, quat_at, full_quat. simpl. ring.
Defined.

Lemma quat_rot_neg w x y z i j :
  quat_rot (- w, - x, - y, - z) i j = quat_rot (w, x, y, z) i j.
Proof. cbv [quat_rot Rsum seq quat_get]. ring. Qed.

(** X22.  A quaternion and its negative give the same matrix: the
    contraction of [quat_to_rot] returns on [-q] the array it returns on
    [q]. *)
Theorem rot_tensor_sign q s :
  rshape q = (4 :: s)%nat ->
  returns (rot_tensor q)
    (fun r => returns (rot_tensor (np_negative q)) (fun r' => same_array r' r)).
Proof.
  intros Hq. eapply returns_mono; [apply (rot_tensor_spec q s Hq)|].
  intros r Hr.
  assert (Hq' : rshape (np_negative q) = (4 :: s)%nat) by exact Hq.
  eapply returns_mono; [apply (rot_tensor_spec (np_negative q) s Hq')|].
  intros r' Hr'. apply (same_array_denotes _ _ _ _ Hr').
  eapply denotes_ext; [exact Hr|].
  intros idx Hi. apply in_shape_cons_inv in Hi. destruct Hi as (k & l & -> & Hk & Hl).
  symmetry. apply quat_rot_neg.
Qed.

Lemma rot_tensor_sign_witness :
  returns (rot_tensor (full_quat [2]%nat identity_quat))
    (fun r => returns (rot_tensor (np_negative (full_quat [2]%nat identity_quat)))
                (fun r' => same_array r' r)).
Proof.
  apply (rot_tensor_sign _ [2]%nat). reflexivity.
Defined.

Lemma hamilton_pure_sumsq (q : quat) (v : vec3) :
  quat_sumsq (hamilton q (pure_quat v)) = quat_sumsq q * sumsq v.
Proof.
  destruct q as [[[w x] y] z]. destruct v as [[a b] c].
  unfold quat_sumsq, hamilton, pure_quat, sumsq. ring.
Qed.

(** X23.  [quat_multiply_by_vec] multiplies norms: at every batch index
    the squared norm of the quaternion it returns is the squared norm of
    [quat] times the squared length of [vec]. *)
Theorem quat_multiply_by_vec_norm q v s :
  rshape q = (4 :: s)%nat -> rshape v = (3 :: s)%nat ->
  returns (quat_multiply_by_vec (Some q) v)
    (fun r =>
       forall l, in_shape l s ->
         quat_sumsq (quat_at r l) = quat_sumsq (quat_at q l) * sumsq (vec_at v l)).
Proof.
  intros Hq Hv.
  eapply returns_mono; [apply (quat_multiply_by_vec_spec q v s Hq Hv)|].
  intros r [_ Hr] l Hl. rewrite (Hr l Hl). apply hamilton_pure_sumsq.
Qed.

Lemma quat_multiply_by_vec_norm_witness :
  returns (quat_multiply_by_vec (Some (full_quat [2]%nat (0, 3, 0, 4)))
             (full_vec [2]%nat (1, 2, 2)))
    (fun r => quat_sumsq (quat_at r [0]%nat) = 225).
Proof.
  eapply returns_mono.
  - apply (quat_multiply_by_vec_norm _ _ [2]%nat); reflexivity.
  - intros r H. rewrite H.
    + unfold quat_sumsq, sumsq, quat_at, vec_at, full_quat, full_vec. simpl. ring.
    + apply in_shape_cons. split; [lia|apply in_shape_nil].
Defined.

(** X24.  [quat_multiply_by_vec] leaves shape checking to broadcasting:
    with a quaternion array of shape (..., 4), a vector array of the same
    leading shape whose last axis is neither 3 nor 1 long makes the
    product of the coefficient table with the vector fail, and the call
    raises [ValueError]. *)
Theorem quat_multiply_by_vec_last_axis q v s d :
  rshape q = (4 :: s)%nat -> rshape v = (d :: s)%nat ->
  d <> 3%nat -> d <> 1%nat ->
  quat_multiply_by_vec (Some q) v = Raise ValueError.
Proof.
  intros Hq Hv H3 H1. unfold quat_multiply_by_vec.
  pose proof (denotes_self q) as Dq. rewrite Hq in Dq.
  pose proof (denotes_self v) as Dv. rewrite Hv in Dv.
  pose proof (denotes_self QUAT_MULTIPLY_BY_VEC) as DT.
  change (rshape QUAT_MULTIPLY_BY_VEC) with [4; 3; 4]%nat in DT.
  pass (eapply np_expand_dims_m1_m3_spec; exact Dv) as mat Hmat.
  pass (eapply newaxis_last2_spec; exact Dq) as qe Hqe.
  pass (eapply (np_map2_spec Rmult); [exact DT|exact Hqe|simpl; reflexivity]) as x Hx.
  unfold np_multiply, np_map2.
  rewrite (denotes_shape _ _ _ Hx), (denotes_shape _ _ _ Hmat).
  apply Nat.eqb_neq in H3, H1. rewrite Nat.eqb_sym in H3.
  cbn [bshape]. unfold bdim at 2. rewrite H3, H1. reflexivity.
Qed.

Lemma quat_multiply_by_vec_last_axis_witness :
  quat_multiply_by_vec (Some (full_quat [2]%nat identity_quat))
    (mkarray [4; 2]%nat (fun _ => 1)) = Raise ValueError.
Proof.
  apply (quat_multiply_by_vec_last_axis _ _ [2]%nat 4%nat); try reflexivity; lia.
Defined.

(** * [rot_to_quat] *)

Lemma np_stack_1_spec arrs fs d s :
  Forall2 (fun a f => denotes a (d :: s) f) arrs fs -> arrs <> [] ->
  returns (np_stack 1 arrs)
    (fun r => denotes r (d :: length arrs :: s)
       (fun idx => match idx with
                   | j :: k :: l => nth k (map (fun f => f (j :: l)) fs) 0
                   | _ => 0
                   end)).
Proof.
  intros H Hne. destruct arrs as [|a rest]; [contradiction|].
  unfold np_stack.
  assert (Hall : forallb (fun b => shape_eqb (rshape b) (rshape a)) rest = true).
  { apply forallb_forall. intros b Hb.
    inversion H as [|? f ? fs' Ha Hrest]; subst.
    destruct Ha as [Ha _]. rewrite Ha.
    apply shape_eqb_eq.
    destruct (In_nth _ _ a Hb) as (k & Hk & <-).
    pose proof (Forall2_nth _ _ _ k a (fun _ => 0) Hrest Hk) as [Hs _]. exact Hs. }
  rewrite Hall.
  inversion H as [|? f ? fs' Ha Hrest]; subst.
  unfold np_ndim. rewrite (denotes_shape _ _ _ Ha). cbn [length Nat.leb returns insert_at].
  split; [reflexivity|].
  intros idx Hi. apply in_shape_cons_inv in Hi. destruct Hi as (j & l' & -> & Hj & Hl').
  apply in_shape_cons_inv in Hl'. destruct Hl' as (k & l & -> & Hk & Hl).
  cbn [item nth remove_at].
  change (item (nth k (a :: rest) a) (j :: l)
          = nth k (map (fun f0 => f0 (j :: l)) (f :: fs')) 0).
  pose proof (Forall2_nth _ _ _ k a (fun _ => 0) H Hk) as [_ Hf].
  rewrite Hf by (apply in_shape_cons; split; assumption).
  rewrite <- (map_nth (fun f0 => f0 (j :: l))). reflexivity.
Qed.

Lemma add3_same a b c s f g h :
  denotes a s f -> denotes b s g -> denotes c s h ->
  returns (add3 a b c) (fun r => denotes r s (fun idx => f idx + g idx + h idx)).
Proof.
  intros Ha Hb Hc. unfold add3.
  step (eapply np_add_same; eassumption) as x Hx.
  eapply np_add_same; eassumption.
Qed.

Lemma sub3_same a b c s f g h :
  denotes a s f -> denotes b s g -> denotes c s h ->
  returns (sub3 a b c) (fun r => denotes r s (fun idx => f idx - g idx - h idx)).
Proof.
  intros Ha Hb Hc. unfold sub3.
  step (eapply np_subtract_same; eassumption) as x Hx.
  eapply np_subtract_same; eassumption.
Qed.

(** The matrix handed to [eigh]. *)
Lemma rot_to_quat_k_spec rot s M :
  denotes rot (3 :: 3 :: s)%nat (mat_entries M) ->
  returns (rot_to_quat_k rot)
    (fun k => denotes k (4 :: 4 :: s)%nat
       (fun idx => match idx with
                   | b :: a :: l => davenport (M l) a b
                   | _ => 0
                   end)).
Proof.
  intros Hrot. unfold rot_to_quat_k.
  step (eapply index_last2_spec; [eassumption|lia|lia]) as xx Hxx.
  step (eapply index_last2_spec; [eassumption|lia|lia]) as xy Hxy.
  step (eapply index_last2_spec; [eassumption|lia|lia]) as xz Hxz.
  step (eapply index_last2_spec; [eassumption|lia|lia]) as yx Hyx.
  step (eapply index_last2_spec; [eassumption|lia|lia]) as yy Hyy.
  step (eapply index_last2_spec; [eassumption|lia|lia]) as yz Hyz.
  step (eapply index_last2_spec; [eassumption|lia|lia]) as zx Hzx.
  step (eapply index_last2_spec; [eassumption|lia|lia]) as zy Hzy.
  step (eapply index_last2_spec; [eassumption|lia|lia]) as zz Hzz.
  cbn [mat_entries] in *.
  step (eapply add3_same; eassumption) as k00 H00.
  step (eapply np_subtract_same; eassumption) as k01 H01.
  step (eapply np_subtract_same; eassumption) as k02 H02.
  step (eapply np_subtract_same; eassumption) as k03 H03.
  step (eapply np_subtract_same; eassumption) as k10 H10.
  step (eapply sub3_same; eassumption) as k11 H11.
  step (eapply np_add_same; eassumption) as k12 H12.
  step (eapply np_add_same; eassumption) as k13 H13.
  step (eapply np_subtract_same; eassumption) as k20 H20.
  step (eapply np_add_same; eassumption) as k21 H21.
  step (eapply sub3_same; eassumption) as k22 H22.
  step (eapply np_add_same; eassumption) as k23 H23.
  step (eapply np_subtract_same; eassumption) as k30 H30.
  step (eapply np_add_same; eassumption) as k31 H31.
  step (eapply np_add_same; eassumption) as k32 H32.
  step (eapply sub3_same; eassumption) as k33 H33.
  step (eapply np_stack_0_spec; [|discriminate];
        repeat (apply Forall2_cons; [eassumption|]); apply Forall2_nil) as row0 R0.
  step (eapply np_stack_0_spec; [|discriminate];
        repeat (apply Forall2_cons; [eassumption|]); apply Forall2_nil) as row1 R1.
  step (eapply np_stack_0_spec; [|discriminate];
        repeat (apply Forall2_cons; [eassumption|]); apply Forall2_nil) as row2 R2.
  step (eapply np_stack_0_spec; [|discriminate];
        repeat (apply Forall2_cons; [eassumption|]); apply Forall2_nil) as row3 R3.
  cbn [length] in R0, R1, R2, R3.
  step (eapply np_stack_1_spec; [|discriminate];
        repeat (apply Forall2_cons; [eassumption|]); apply Forall2_nil) as k Hk.
  cbn [length] in Hk. cbn [returns].
  eapply denotes_ext; [apply (np_map1_spec _ _ _ _ Hk)|].
  intros idx Hi.
  apply in_shape_cons_inv in Hi. destruct Hi as (b & l' & -> & Hb & Hl').
  apply in_shape_cons_inv in Hl'. destruct Hl' as (a & l & -> & Ha & Hl).
  unfold davenport.
  destruct a as [|[|[|[|a]]]]; try lia;
    (destruct b as [|[|[|[|b]]]]; try lia); reflexivity.
Qed.

(** For a unit quaternion the matrix is [(4 q q^T - I) / 3]. *)
Lemma davenport_quat_rot (A : mat3) w x y z a b :
  (forall i j, (i < 3)%nat -> (j < 3)%nat -> A i j = quat_rot (w, x, y, z) i j) ->
  w * w + x * x + y * y + z * z = 1 ->
  (a < 4)%nat -> (b < 4)%nat ->
  davenport A a b
  = (4 * quat_get (w, x, y, z) a * quat_get (w, x, y, z) b - delta a b) / 3.
Proof.
  intros HA Hn Ha Hb. unfold davenport. cbv zeta. rewrite !HA by lia.
  destruct a as [|[|[|[|a]]]]; try lia;
    (destruct b as [|[|[|[|b]]]]; try lia);
    cbv [quat_rot Rsum seq table2 QUAT_TO_ROT_block nth quat_get delta Nat.eqb];
    field_simplify_eq;
    try (replace (w ^ 2) with (1 - x * x - y * y - z * z) by lra); ring.
Qed.

(** The eigenvector of the largest eigenvalue of [(4 q q^T - I) / 3] is
    [q] or [-q]. *)
Lemma top_eigenvector (q0 q1 q2 q3 : R) (K V : nat -> nat -> R) (W : nat -> R) :
  q0 * q0 + q1 * q1 + q2 * q2 + q3 * q3 = 1 ->
  (forall a b, (a < 4)%nat -> (b < 4)%nat ->
     K a b = (4 * quat_get (q0, q1, q2, q3) a * quat_get (q0, q1, q2, q3) b - delta a b) / 3) ->
  W 0%nat <= W 1%nat /\ W 1%nat <= W 2%nat /\ W 2%nat <= W 3%nat ->
  (forall a i, (a < 4)%nat -> (i < 4)%nat ->
     Rsum (fun b => K a b * V b i) (seq 0 4) = W i * V a i) ->
  (forall i j, (i < 4)%nat -> (j < 4)%nat ->
     Rsum (fun a => V a i * V a j) (seq 0 4) = delta i j) ->
  (forall a b, (a < 4)%nat -> (b < 4)%nat ->
     Rsum (fun i => V a i * V b i) (seq 0 4) = delta a b) ->
  (V 0%nat 3%nat, V 1%nat 3%nat, V 2%nat 3%nat, V 3%nat 3%nat) = (q0, q1, q2, q3) \/
  (V 0%nat 3%nat, V 1%nat 3%nat, V 2%nat 3%nat, V 3%nat 3%nat) = (- q0, - q1, - q2, - q3).
Proof.
  intros Hq HK Hasc Heig Hcol Hrow.
  pose (c := fun i => q0 * V 0%nat i + q1 * V 1%nat i + q2 * V 2%nat i + q3 * V 3%nat i).
  (* each eigen-equation, with K written out *)
  assert (E : forall a i, (a < 4)%nat -> (i < 4)%nat ->
            4 * quat_get (q0, q1, q2, q3) a * c i - V a i = 3 * W i * V a i).
  { intros a i Ha Hi. pose proof (Heig a i Ha Hi) as H.
    cbn [Rsum seq] in H. rewrite !HK in H by lia. unfold c.
    destruct a as [|[|[|[|a]]]]; try lia; cbn [quat_get delta Nat.eqb] in *; lra. }
  assert (N : forall i, (i < 4)%nat ->
            V 0%nat i * V 0%nat i + V 1%nat i * V 1%nat i + V 2%nat i * V 2%nat i
            + V 3%nat i * V 3%nat i = 1).
  { intros i Hi. pose proof (Hcol i i Hi Hi) as H. cbn [Rsum seq] in H.
    unfold delta in H. rewrite Nat.eqb_refl in H. lra. }
  (* eigenvalue i is (4 c_i^2 - 1) / 3, and c_i is 0 unless it is 1 *)
  assert (Wc : forall i, (i < 4)%nat -> 4 * c i * c i - 1 = 3 * W i).
  { intros i Hi.
    pose proof (E 0%nat i ltac:(lia) Hi) as E0. pose proof (E 1%nat i ltac:(lia) Hi) as E1.
    pose proof (E 2%nat i ltac:(lia) Hi) as E2. pose proof (E 3%nat i ltac:(lia) Hi) as E3.
    cbn [quat_get] in E0, E1, E2, E3. pose proof (N i Hi) as Ni.
    assert (S : V 0%nat i * (4 * q0 * c i - V 0%nat i) + V 1%nat i * (4 * q1 * c i - V 1%nat i)
                + V 2%nat i * (4 * q2 * c i - V 2%nat i) + V 3%nat i * (4 * q3 * c i - V 3%nat i)
                = 3 * W i * (V 0%nat i * V 0%nat i + V 1%nat i * V 1%nat i
                             + V 2%nat i * V 2%nat i + V 3%nat i * V 3%nat i)).
    { rewrite E0, E1, E2, E3. ring. }
    assert (S2 : 4 * c i * c i
                 - (V 0%nat i * V 0%nat i + V 1%nat i * V 1%nat i + V 2%nat i * V 2%nat i
                    + V 3%nat i * V 3%nat i)
                 = V 0%nat i * (4 * q0 * c i - V 0%nat i) + V 1%nat i * (4 * q1 * c i - V 1%nat i)
                   + V 2%nat i * (4 * q2 * c i - V 2%nat i)
                   + V 3%nat i * (4 * q3 * c i - V 3%nat i)).
    { unfold c. ring. }
    rewrite Ni in S, S2. lra. }
  assert (Cz : forall i, (i < 4)%nat -> c i * (1 - W i) = 0).
  { intros i Hi.
    pose proof (E 0%nat i ltac:(lia) Hi) as E0. pose proof (E 1%nat i ltac:(lia) Hi) as E1.
    pose proof (E 2%nat i ltac:(lia) Hi) as E2. pose proof (E 3%nat i ltac:(lia) Hi) as E3.
    cbn [quat_get] in E0, E1, E2, E3.
    assert (S : q0 * (4 * q0 * c i - V 0%nat i) + q1 * (4 * q1 * c i - V 1%nat i)
                + q2 * (4 * q2 * c i - V 2%nat i) + q3 * (4 * q3 * c i - V 3%nat i)
                = 3 * W i * c i).
    { rewrite E0, E1, E2, E3. unfold c. ring. }
    assert (S' : 4 * (q0 * q0 + q1 * q1 + q2 * q2 + q3 * q3) * c i - c i = 3 * W i * c i).
    { rewrite <- S. unfold c. ring. }
    rewrite Hq in S'. lra. }
  (* the c_i are the coordinates of q in the basis V *)
  assert (Sc : c 0%nat * c 0%nat + c 1%nat * c 1%nat + c 2%nat * c 2%nat + c 3%nat * c 3%nat = 1).
  { assert (R : forall a b, (a < 4)%nat -> (b < 4)%nat ->
              V a 0%nat * V b 0%nat + V a 1%nat * V b 1%nat + V a 2%nat * V b 2%nat
              + V a 3%nat * V b 3%nat = delta a b).
    { intros a b Ha Hb. pose proof (Hrow a b Ha Hb) as H. cbn [Rsum seq] in H. lra. }
    pose (G := fun a b => V a 0%nat * V b 0%nat + V a 1%nat * V b 1%nat
                          + V a 2%nat * V b 2%nat + V a 3%nat * V b 3%nat).
    transitivity
      (q0 * q0 * G 0%nat 0%nat + q0 * q1 * G 0%nat 1%nat + q0 * q2 * G 0%nat 2%nat
       + q0 * q3 * G 0%nat 3%nat
       + q1 * q0 * G 1%nat 0%nat + q1 * q1 * G 1%nat 1%nat + q1 * q2 * G 1%nat 2%nat
       + q1 * q3 * G 1%nat 3%nat
       + q2 * q0 * G 2%nat 0%nat + q2 * q1 * G 2%nat 1%nat + q2 * q2 * G 2%nat 2%nat
       + q2 * q3 * G 2%nat 3%nat
       + q3 * q0 * G 3%nat 0%nat + q3 * q1 * G 3%nat 1%nat + q3 * q2 * G 3%nat 2%nat
       + q3 * q3 * G 3%nat 3%nat).
    { unfold c, G. ring. }
    unfold G. rewrite !R by lia. unfold delta. cbn [Nat.eqb]. lra. }
  (* the top eigenvalue is 1 *)
  assert (W3 : W 3%nat = 1).
  { destruct (Rmult_integral _ _ (Cz 3%nat ltac:(lia))) as [C0|C1]; [|lra].
    exfalso.
    pose proof (Wc 0%nat ltac:(lia)) as A0. pose proof (Wc 1%nat ltac:(lia)) as A1.
    pose proof (Wc 2%nat ltac:(lia)) as A2. pose proof (Wc 3%nat ltac:(lia)) as A3.
    rewrite C0 in A3, Sc.
    assert (B0 : c 0%nat * c 0%nat <= 0) by lra.
    assert (B1 : c 1%nat * c 1%nat <= 0) by lra.
    assert (B2 : c 2%nat * c 2%nat <= 0) by lra.
    pose proof (Rle_0_sqr (c 0%nat)) as P0. pose proof (Rle_0_sqr (c 1%nat)) as P1.
    pose proof (Rle_0_sqr (c 2%nat)) as P2. unfold Rsqr in P0, P1, P2. lra. }
  pose proof (Wc 3%nat ltac:(lia)) as A3. rewrite W3 in A3.
  assert (C3 : c 3%nat = 1 \/ c 3%nat = -1).
  { assert (H : (c 3%nat - 1) * (c 3%nat + 1) = 0) by lra.
    destruct (Rmult_integral _ _ H); [left|right]; lra. }
  pose proof (E 0%nat 3%nat ltac:(lia) ltac:(lia)) as E0.
  pose proof (E 1%nat 3%nat ltac:(lia) ltac:(lia)) as E1.
  pose proof (E 2%nat 3%nat ltac:(lia) ltac:(lia)) as E2.
  pose proof (E 3%nat 3%nat ltac:(lia) ltac:(lia)) as E3.
  cbn [quat_get] in E0, E1, E2, E3. rewrite W3 in E0, E1, E2, E3.
  destruct C3 as [C3|C3]; rewrite C3 in E0, E1, E2, E3; [left|right];
    apply quat_eq; lra.
Qed.

(** X25.  [rot_to_quat] inverts the quaternion-to-rotation map up to
    sign.  Let [rot] hold, at each batch index, the rotation matrix of a
    unit quaternion [q] (the matrix the contraction of [quat_to_rot]
    computes).  Whenever [np.linalg.eigh] returns, for the matrix it is
    handed, ascending eigenvalues and an orthogonal matrix of
    eigenvectors, [rot_to_quat(rot)] returns [q] or [-q] at each index. *)
Theorem rot_to_quat_recovers_quaternion
  (np_linalg_eigh : ndarray -> result (ndarray * ndarray)) rot q s :
  rshape rot = (3 :: 3 :: s)%nat ->
  (forall l, in_shape l s ->
     quat_norm (quat_at q l) = 1 /\
     forall i j, (i < 3)%nat -> (j < 3)%nat ->
       mat_at rot l i j = quat_rot (quat_at q l) i j) ->
  (forall k, rot_to_quat_k rot = Ok k ->
     returns (np_linalg_eigh k) (fun '(w, v) => eigh_contract s k w v)) ->
  returns (rot_to_quat np_linalg_eigh rot)
    (fun r => rshape r = (4 :: s)%nat /\
       forall l, in_shape l s ->
         quat_at r l = quat_at q l \/ quat_at r l = quat_neg (quat_at q l)).
Proof.
  intros Hrot Hq Heigh.
  pose proof (rot_to_quat_k_spec rot s _ (denotes_mat_at rot s Hrot)) as Hk.
  destruct (returns_inv _ _ Hk) as (k & Ek & Dk). clear Hk.
  unfold rot_to_quat. rewrite Ek. cbn [bind].
  specialize (Heigh k Ek).
  destruct (np_linalg_eigh k) as [[w v]|e]; [|contradiction].
  cbn [bind returns] in *. destruct Heigh as (Sw & Sv & Hc).
  unfold index_last_m1. rewrite Sv. change (4 - 1)%nat with 3%nat.
  pose proof (denotes_self v) as Dv. rewrite Sv in Dv.
  eapply returns_mono; [apply (index_last_spec v 3 4 _ _ Dv); lia|].
  intros r [Sr Hr]. split; [exact Sr|]. intros l Hl.
  destruct (Hq l Hl) as [Hn HA]. destruct (Hc l Hl) as (Hasc & Heig & Hcol & Hrow).
  unfold quat_at at 1 3.
  rewrite !Hr by (apply in_shape_cons; split; [lia|assumption]).
  unfold quat_at, quat_neg.
  apply (top_eigenvector _ _ _ _ (fun a b => item k (b :: a :: l))
           (fun a i => item v (i :: a :: l)) (fun i => item w (i :: l))).
  - now apply quat_norm_unit.
  - intros a b Ha Hb. destruct Dk as [_ Dk].
    rewrite Dk by (apply in_shape_cons; split; [lia|]; apply in_shape_cons; split;
                   [lia|assumption]).
    apply davenport_quat_rot; try assumption.
    now apply quat_norm_unit.
  - exact Hasc.
  - exact Heig.
  - exact Hcol.
  - exact Hrow.
Qed.

Lemma rot_to_quat_recovers_quaternion_witness :
  returns (rot_to_quat eigh_of_identity (full_mat [] identity_mat))
    (fun r => rshape r = [4]%nat /\
       forall l, in_shape l [] ->
         quat_at r l = quat_at (full_quat [] identity_quat) l \/
         quat_at r l = quat_neg (quat_at (full_quat [] identity_quat) l)).
Proof.
  apply (rot_to_quat_recovers_quaternion eigh_of_identity (full_mat [] identity_mat)
           (full_quat [] identity_quat) []).
  - reflexivity.
  - intros l _. split.
    + unfold quat_norm, quat_at, full_quat, identity_quat. simpl.
      replace (1 * 1 + 0 * 0 + 0 * 0 + 0 * 0) with 1 by ring. apply sqrt_1.
    + intros i j Hi Hj.
      destruct i as [|[|[|i]]]; try lia; (destruct j as [|[|[|j]]]; try lia);
        cbv [mat_at full_mat item identity_mat Nat.eqb quat_at full_quat identity_quat
             quat_get hd quat_rot Rsum seq table2 QUAT_TO_ROT_block nth];
        ring.
  - intros k Ek.
    pose proof (rot_to_quat_k_spec (full_mat [] identity_mat) [] _
                  (denotes_mat_at (full_mat [] identity_mat) [] eq_refl)) as Hk.
    rewrite Ek in Hk. cbn [returns] in Hk. destruct Hk as [_ Dk].
    unfold eigh_of_identity. cbn [returns].
    split; [reflexivity|]. split; [reflexivity|].
    intros l Hl. inversion Hl; subst. cbn [item hd].
    assert (K : forall a b, (a < 4)%nat -> (b < 4)%nat ->
              item k [b; a] = davenport identity_mat a b).
    { intros a b Ha Hb. rewrite Dk; [reflexivity|].
      apply in_shape_cons. split; [lia|]. apply in_shape_1. lia. }
    split; [|split; [|split]].
    + cbn [Nat.eqb]. lra.
    + intros a i Ha Hi. cbn [Rsum seq]. rewrite !K by lia.
      destruct a as [|[|[|[|a]]]]; try lia; (destruct i as [|[|[|[|i]]]]; try lia);
        cbv [davenport identity_mat nth Nat.eqb Nat.add Nat.modulo Nat.divmod fst snd Nat.sub];
        lra.
    + intros i j Hi Hj. cbn [Rsum seq].
      destruct i as [|[|[|[|i]]]]; try lia; (destruct j as [|[|[|[|j]]]]; try lia);
        cbv [delta Nat.eqb Nat.add Nat.modulo Nat.divmod fst snd Nat.sub]; lra.
    + intros a b Ha Hb. cbn [Rsum seq].
      destruct a as [|[|[|[|a]]]]; try lia; (destruct b as [|[|[|[|b]]]]; try lia);
        cbv [delta Nat.eqb Nat.add Nat.modulo Nat.divmod fst snd Nat.sub]; lra.
Defined.

Lemma rot_to_quat_k_needs_3x3 rot :
  has_3x3 rot = false -> rot_to_quat_k rot = Raise IndexError.
Proof.
  intros H. unfold rot_to_quat_k.
  do 9 (apply bind_raises_only; [intros e'; apply index_last2_error|intros ? ?]).
  exfalso.
  match goal with
  | Ea : index_last2 rot 2 2 = Ok _ |- _ =>
      apply index_last2_corner in Ea; congruence
  end.
Qed.

(** X26.  [rot_to_quat] reads the nine entries [rot[..., i, j]] before
    anything else: when [rot] has fewer than two axes, or a trailing axis
    shorter than 3, it raises [IndexError], whatever [np.linalg.eigh]
    would do. *)
Theorem rot_to_quat_needs_3x3
  (np_linalg_eigh : ndarray -> result (ndarray * ndarray)) rot :
  has_3x3 rot = false -> rot_to_quat np_linalg_eigh rot = Raise IndexError.
Proof.
  intros H. unfold rot_to_quat.
  rewrite (rot_to_quat_k_needs_3x3 rot H). reflexivity.
Qed.

Lemma rot_to_quat_needs_3x3_witness :
  rot_to_quat eigh_of_identity (full_vec [2]%nat (1, 2, 3)) = Raise IndexError.
Proof.
  apply rot_to_quat_needs_3x3. reflexivity.
Defined.
